(** * Linear heat conduction for SIMP topology optimisation

    A shallow embedding of [src/heat/LinearHeatConduction.cc] (class
    [LinearHeatConduction]) and the properties its specification states.

    Conventions of the embedding:
    - [PetscScalar] and [PetscReal] are the real numbers: arithmetic is
      exact, rounding of IEEE doubles is abstracted away;
    - division is the total division of the reals, where the code would
      produce an infinity or a NaN: a statement about a quotient the code
      computes without a test carries the hypothesis that the divisor is
      not zero;
    - [PetscInt] indices are natural numbers;
    - a PETSc [Vec] is the list of its entries, a C array is a list read with
      [a !!! i] and written with [<[i:=v]> a];
    - a PETSc [Mat] is the function giving the entry at a row and a column;
    - one MPI rank: local and global numberings coincide and a reduction over
      the communicator is the identity;
    - [for (i = 0; i < n; i++) body] is [for_loop n body]. *)

From Stdlib Require Import Reals Lra Lia ZArith.
From stdpp Require Import base tactics option list strings gmap.

Local Open Scope R_scope.

(** ** Scalars, vectors and matrices *)

Abbreviation PetscScalar := R (only parsing).
Abbreviation PetscInt := nat (only parsing).
Abbreviation PetscErrorCode := Z (only parsing).
Abbreviation Vec := (list R) (only parsing).
Abbreviation Mat := (nat -> nat -> R) (only parsing).

#[global] Instance R_eq_dec : EqDecision R := Req_dec_T.
#[global] Instance Rlt_rel_dec : RelDecision Rlt := Rlt_dec.
#[global] Instance Rle_rel_dec : RelDecision Rle := Rle_dec.
#[global] Instance Rge_rel_dec : RelDecision Rge := Rge_dec.
#[global] Instance R_inhabited : Inhabited R := populate 0.

(** [for (i = 0; i < n; i++) s = body i s;] *)
Fixpoint for_loop {S : Type} (n : nat) (body : nat -> S -> S) (s : S) : S :=
  match n with
  | O => s
  | S m => body m (for_loop m body s)
  end.

(** The sum of [f 0 .. f (n-1)], used to state what a loop accumulates. *)
Fixpoint sum_n (n : nat) (f : nat -> R) : R :=
  match n with
  | O => 0
  | S m => sum_n m f + f m
  end.

(** *** The vector operations of PETSc the code calls *)

Definition VecSet (v : Vec) (a : PetscScalar) : Vec := replicate (length v) a.
Definition VecDuplicate (v : Vec) : Vec := replicate (length v) 0.
(** [VecCopy x y]: y <- x (PETSc requires both to have one layout). *)
Definition VecCopy (x y : Vec) : Vec := x.
Definition VecShift (v : Vec) (a : PetscScalar) : Vec := (fun x => x + a) <$> v.
Definition VecScale (v : Vec) (a : PetscScalar) : Vec := (fun x => a * x) <$> v.
Definition VecPointwiseMult (x y : Vec) : Vec := zip_with Rmult x y.
(** [VecAXPY y a x]: y <- y + a x. *)
Definition VecAXPY (y : Vec) (a : PetscScalar) (x : Vec) : Vec :=
  zip_with (fun yi xi => yi + a * xi) y x.
Definition VecSum (v : Vec) : PetscScalar := foldr Rplus 0 v.
Definition VecGetSize (v : Vec) : PetscInt := length v.

(** [VecSetValueLocal v i a INSERT_VALUES] *)
Definition VecSetValueLocal_INSERT (v : Vec) (i : nat) (a : PetscScalar) : Vec :=
  <[i := a]> v.
(** [VecSetValuesLocal v n ix y mode]: entry [ix[j]] receives [y[j]], j < n;
    an index outside the vector is an error in PETSc and changes nothing
    here. *)
Definition VecSetValuesLocal_INSERT (v : Vec) (n : nat) (ix : list nat) (y : list PetscScalar) : Vec :=
  for_loop n (fun j v => <[ix !!! j := y !!! j]> v) v.
Definition VecSetValuesLocal_ADD (v : Vec) (n : nat) (ix : list nat) (y : list PetscScalar) : Vec :=
  for_loop n (fun j v => <[ix !!! j := v !!! (ix !!! j) + y !!! j]> v) v.

(** *** The matrix operations of PETSc the code calls *)

Definition MatZeroEntries (A : Mat) : Mat := fun _ _ => 0.
Definition MatAddEntry (A : Mat) (r c : nat) (v : PetscScalar) : Mat :=
  fun r' c' => if bool_decide (r' = r /\ c' = c) then A r' c' + v else A r' c'.
(** [MatSetValuesLocal A m idxm n idxn v ADD_VALUES]: the logically dense
    m x n block [v], row-major, is added at rows [idxm] and columns [idxn]. *)
Definition MatSetValuesLocal_ADD (A : Mat) (m : nat) (idxm : list nat)
    (n : nat) (idxn : list nat) (v : list PetscScalar) : Mat :=
  for_loop m (fun k A =>
    for_loop n (fun h A =>
      MatAddEntry A (idxm !!! k) (idxn !!! h) (v !!! (k * n + h)%nat)) A) A.
(** [MatDiagonalScale A l r]: A <- diag(l) A diag(r). *)
Definition MatDiagonalScale (A : Mat) (l r : Vec) : Mat :=
  fun i j => l !!! i * A i j * r !!! j.
(** [MatDiagonalSet A D ADD_VALUES]: the entries of [D] are added to the
    diagonal of [A]. *)
Definition MatDiagonalSet_ADD (A : Mat) (D : Vec) : Mat :=
  fun i j => if bool_decide (i = j) then A i j + D !!! i else A i j.

(** ** The PETSc objects the class holds *)

(** A structured grid (DMDA): global sizes, the corners of the owned and of
    the ghosted patch (start and width per axis, as [DMDAGetCorners] and
    [DMDAGetGhostCorners] return them) and the local coordinate array,
    interleaved per node, and the element type. *)
Inductive DMDAElementType := DMDA_ELEMENT_P1 | DMDA_ELEMENT_Q1.

#[global] Instance DMDAElementType_eq_dec : EqDecision DMDAElementType.
Proof. solve_decision. Defined.

Record DM := mkDM {
  dm_elementtype : DMDAElementType;
  dm_M : nat; dm_N : nat; dm_P : nat;
  dm_xs : nat; dm_ys : nat; dm_zs : nat;
  dm_xm : nat; dm_ym : nat; dm_zm : nat;
  dm_Xs : nat; dm_Ys : nat; dm_Zs : nat;
  dm_Xm : nat; dm_Ym : nat; dm_Zm : nat;
  dm_coor : list PetscScalar
}.

#[global] Instance DM_inhabited : Inhabited DM :=
  populate (mkDM DMDA_ELEMENT_P1 0 0 0 0 0 0 0 0 0 0 0 0 0 0 0 []).

Inductive KSPType := KSPFGMRES | KSPGMRES | KSPCG | KSPCHEBYSHEV | KSPPREONLY | KSPRICHARDSON.
Inductive PCType := PCMG | PCSOR | PCJACOBI | PCGAMG | PCLU | PCNONE.
Inductive PCMGType := PC_MG_MULTIPLICATIVE | PC_MG_ADDITIVE | PC_MG_FULL | PC_MG_KASKADE.
Inductive PCMGCycleType := PC_MG_CYCLE_V | PC_MG_CYCLE_W.
Inductive PCMGGalerkinType :=
  PC_MG_GALERKIN_BOTH | PC_MG_GALERKIN_PMAT | PC_MG_GALERKIN_MAT | PC_MG_GALERKIN_NONE.

#[global] Instance KSPType_eq_dec : EqDecision KSPType.
Proof. solve_decision. Defined.
#[global] Instance PCType_eq_dec : EqDecision PCType.
Proof. solve_decision. Defined.

(** The convergence test of a solver: the default test against the
    tolerances, or [KSPConvergedSkip], which tests nothing and lets the
    solver run its maximum number of iterations. *)
Inductive KSPConvergedTest := KSPConvergedDefault | KSPConvergedSkip.

(** The solver of one multigrid level (level 0 is the coarse-grid solver,
    level k > 0 the smoother of level k). The class never calls
    [KSPSetConvergenceTest]: [lksp_converged] is what the library installed
    when it created the level. *)
Record LevelKSP := mkLevelKSP {
  lksp_type : KSPType;
  lksp_gmres_restart : PetscInt;
  lksp_rtol : PetscScalar;
  lksp_atol : PetscScalar;
  lksp_dtol : PetscScalar;
  lksp_maxits : PetscInt;
  lksp_pc_type : PCType;
  lksp_converged : KSPConvergedTest
}.

Record PC := mkPC {
  pc_type : PCType;
  pc_mg_type : PCMGType;
  pc_mg_cycle : PCMGCycleType;
  pc_mg_galerkin : PCMGGalerkinType;
  pc_mg_levels : list LevelKSP;
  pc_mg_interpolation : list (nat * Mat)
}.

Record KSP := mkKSP {
  ksp_type : KSPType;
  ksp_gmres_restart : PetscInt;
  ksp_rtol : PetscScalar;
  ksp_atol : PetscScalar;
  ksp_dtol : PetscScalar;
  ksp_maxits : PetscInt;
  ksp_guess_nonzero : bool;
  ksp_Amat : Mat;
  ksp_Pmat : Mat;
  ksp_pc : PC
}.

(** The options database: the options the class reads itself and the
    solver options [KSPSetFromOptions] honours; [None] is an option that was
    not given. *)
Record PetscOptions := mkOptions {
  opt_nlvls : option PetscInt;
  opt_restart : option bool;
  opt_onlyLoadDesign : option bool;
  opt_workdir : option string;
  opt_restartFileVecSol : option string;
  opt_ksp_type : option KSPType;
  opt_ksp_gmres_restart : option PetscInt;
  opt_ksp_rtol : option PetscScalar;
  opt_ksp_atol : option PetscScalar;
  opt_ksp_divtol : option PetscScalar;
  opt_ksp_max_it : option PetscInt;
  opt_pc_type : option PCType;
  opt_ksp_initial_guess_nonzero : option bool
}.

Definition no_options : PetscOptions :=
  mkOptions None None None None None None None None None None None None None.

(** Binary files holding one vector each. *)
Definition FileSystem := gmap string Vec.

(** ** What the build and the library provide *)

(** Modelled from the spec: the macros [DIM], [nedof] and [IMPORT_GEO] of the
    header, which is not part of the sources at hand. The spec has one scalar
    degree of freedom per node and 4 (2-D) or 8 (3-D) nodes per element, and
    a configuration flag that selects the load and boundary scenario. *)
Class BuildConfig := {
  DIM : nat;
  nedof : nat;
  IMPORT_GEO : nat
}.

(** The library calls whose results the class only passes on. *)
Class Petsc := {
  PetscPowScalar : PetscScalar -> PetscScalar -> PetscScalar;
  DMDACreate : nat -> nat -> nat -> DM;
  DMDASetElementType : DM -> DMDAElementType -> DM;
  DMDASetUniformCoordinates :
    DM -> PetscScalar -> PetscScalar -> PetscScalar -> PetscScalar ->
    PetscScalar -> PetscScalar -> DM;
  DMCoarsen : DM -> DM;
  DMCreateInterpolation : DM -> DM -> Mat;
  KSPCreate : KSP;
  PCMGCreateLevel : nat -> LevelKSP;
  KSPSolve : KSP -> Vec -> Vec -> Vec
}.

(** ** Element connectivity *)

(** [DMDAGetElements_2D]: the node indices of every Q1 cell of the local
    patch, in local (ghosted) numbering, four per cell. The cache [da->e]
    of the source holds exactly this list; it is filled for Q1 elements
    only. *)
Definition DMDAGetElements_2D (dm : DM) : nat * nat * list nat :=
  let ns := 1%nat in
  let nn := 4%nat in
  let xs := dm_xs dm in let ys := dm_ys dm in
  let xe := dm_xm dm in let ye := dm_ym dm in
  let Xs := dm_Xs dm in let Ys := dm_Ys dm in
  let Xe := dm_Xm dm in let Ye := dm_Ym dm in
  let xe := (xe + xs)%nat in
  let Xe := (Xe + Xs)%nat in
  let xs := if bool_decide (xs <> Xs) then (xs - 1)%nat else xs in
  let ye := (ye + ys)%nat in
  let Ye := (Ye + Ys)%nat in
  let ys := if bool_decide (ys <> Ys) then (ys - 1)%nat else ys in
  let ne := (ns * (xe - xs - 1) * (ye - ys - 1))%nat in
  let e :=
    for_loop (ye - 1 - ys) (fun dj e => let j := (ys + dj)%nat in
      for_loop (xe - 1 - xs) (fun di e => let i := (xs + di)%nat in
        let cell :=
          [ ((i - Xs) + (j - Ys) * (Xe - Xs))%nat;
            ((i - Xs + 1) + (j - Ys) * (Xe - Xs))%nat;
            ((i - Xs + 1) + (j - Ys + 1) * (Xe - Xs))%nat;
            ((i - Xs) + (j - Ys + 1) * (Xe - Xs))%nat ] in
        if bool_decide (dm_elementtype dm = DMDA_ELEMENT_Q1) then e ++ cell
        else e) e) [] in
  (ne, nn, e).

(** [DMDAGetElements_3D]: eight node indices per Q1 cell. *)
Definition DMDAGetElements_3D (dm : DM) : nat * nat * list nat :=
  let ns := 1%nat in
  let nn := 8%nat in
  let xs := dm_xs dm in let ys := dm_ys dm in let zs := dm_zs dm in
  let xe := dm_xm dm in let ye := dm_ym dm in let ze := dm_zm dm in
  let Xs := dm_Xs dm in let Ys := dm_Ys dm in let Zs := dm_Zs dm in
  let Xe := dm_Xm dm in let Ye := dm_Ym dm in let Ze := dm_Zm dm in
  let xe := (xe + xs)%nat in
  let Xe := (Xe + Xs)%nat in
  let xs := if bool_decide (xs <> Xs) then (xs - 1)%nat else xs in
  let ye := (ye + ys)%nat in
  let Ye := (Ye + Ys)%nat in
  let ys := if bool_decide (ys <> Ys) then (ys - 1)%nat else ys in
  let ze := (ze + zs)%nat in
  let Ze := (Ze + Zs)%nat in
  let zs := if bool_decide (zs <> Zs) then (zs - 1)%nat else zs in
  let ne := (ns * (xe - xs - 1) * (ye - ys - 1) * (ze - zs - 1))%nat in
  let e :=
    for_loop (ze - 1 - zs) (fun dk e => let k := (zs + dk)%nat in
      for_loop (ye - 1 - ys) (fun dj e => let j := (ys + dj)%nat in
        for_loop (xe - 1 - xs) (fun di e => let i := (xs + di)%nat in
          let cell :=
            [ ((i - Xs) + (j - Ys) * (Xe - Xs) + (k - Zs) * (Xe - Xs) * (Ye - Ys))%nat;
              ((i - Xs + 1) + (j - Ys) * (Xe - Xs) + (k - Zs) * (Xe - Xs) * (Ye - Ys))%nat;
              ((i - Xs + 1) + (j - Ys + 1) * (Xe - Xs) + (k - Zs) * (Xe - Xs) * (Ye - Ys))%nat;
              ((i - Xs) + (j - Ys + 1) * (Xe - Xs) + (k - Zs) * (Xe - Xs) * (Ye - Ys))%nat;
              ((i - Xs) + (j - Ys) * (Xe - Xs) + (k - Zs + 1) * (Xe - Xs) * (Ye - Ys))%nat;
              ((i - Xs + 1) + (j - Ys) * (Xe - Xs) + (k - Zs + 1) * (Xe - Xs) * (Ye - Ys))%nat;
              ((i - Xs + 1) + (j - Ys + 1) * (Xe - Xs) + (k - Zs + 1) * (Xe - Xs) * (Ye - Ys))%nat;
              ((i - Xs) + (j - Ys + 1) * (Xe - Xs) + (k - Zs + 1) * (Xe - Xs) * (Ye - Ys))%nat ] in
          if bool_decide (dm_elementtype dm = DMDA_ELEMENT_Q1) then e ++ cell
          else e) e) e) [] in
  (ne, nn, e).

(** The [#if DIM == 2 ... #elif DIM == 3] selection of the callers. *)
Definition DMDAGetElements `{BuildConfig} (dm : DM) : nat * nat * list nat :=
  if bool_decide (DIM = 2%nat) then DMDAGetElements_2D dm
  else DMDAGetElements_3D dm.

(** ** Element kernel *)

(** Small dense arrays [A[i][j]] of the element routines. *)
Definition get2 (A : list (list PetscScalar)) (i j : nat) : PetscScalar :=
  (A !!! i) !!! j.
Definition set2 (A : list (list PetscScalar)) (i j : nat) (v : PetscScalar)
    : list (list PetscScalar) :=
  <[i := <[j := v]> (A !!! i)]> A.

(** [memset (a, 0, sizeof(a[0]) * n)] *)
Definition memset_zero (a : list PetscScalar) (n : nat) : list PetscScalar :=
  replicate (n `min` length a) 0 ++ drop n a.

Definition Dot (v1 v2 : list PetscScalar) (l : PetscInt) : PetscScalar :=
  for_loop l (fun i result => result + v1 !!! i * v2 !!! i) 0.0.

Definition DifferentiatedShapeFunctions_2D (xi eta : PetscScalar)
    : list PetscScalar * list PetscScalar :=
  let dNdxi :=
    [ -0.25 * (1.0 - eta); 0.25 * (1.0 - eta);
      0.25 * (1.0 + eta); -0.25 * (1.0 + eta) ] in
  let dNdeta :=
    [ -0.25 * (1.0 - xi); -0.25 * (1.0 + xi);
      0.25 * (1.0 + xi); 0.25 * (1.0 - xi) ] in
  (dNdxi, dNdeta).

Definition Inverse2M (J : list (list PetscScalar))
    : PetscScalar * list (list PetscScalar) :=
  let detJ := get2 J 0 0 * get2 J 1 1 - get2 J 0 1 * get2 J 1 0 in
  let invJ :=
    [ [ get2 J 1 1 / detJ; - get2 J 0 1 / detJ ];
      [ - get2 J 1 0 / detJ; get2 J 0 0 / detJ ] ] in
  (detJ, invJ).

Definition Quad4Isoparametric (X Y : list PetscScalar) (redInt : PetscInt)
    (ke : list PetscScalar) : list PetscScalar :=
  let kcond := [ [1.0; 0.0]; [0.0; 1.0] ] in
  let GP := [ -0.577350269189626; 0.577350269189626 ] in
  let W := [ 1.0; 1.0 ] in
  let GP := if bool_decide (redInt <> 0%nat) then <[0%nat := 0.0]> GP else GP in
  let W := if bool_decide (redInt <> 0%nat) then <[0%nat := 2.0]> W else W in
  let ke := memset_zero ke (4 * 4) in
  for_loop (2 - redInt) (fun ii ke =>
    for_loop (2 - redInt) (fun jj ke =>
      let xi := GP !!! ii in
      let eta := GP !!! jj in
      let '(dNdxi, dNdeta) := DifferentiatedShapeFunctions_2D xi eta in
      let J := [ [ Dot dNdxi X 4; Dot dNdxi Y 4 ];
                 [ Dot dNdeta X 4; Dot dNdeta Y 4 ] ] in
      let '(detJ, invJ) := Inverse2M J in
      let weight := W !!! ii * W !!! jj * detJ in
      let B := replicate 2 (replicate 4 0) in
      let B :=
        for_loop 2 (fun ll B =>
          let dN := if bool_decide (ll = 0%nat) then dNdxi else dNdeta in
          let beta := [ get2 invJ 0 ll; get2 invJ 1 ll ] in
          for_loop 2 (fun i B =>
            for_loop 4 (fun j B =>
              set2 B i j (get2 B i j + beta !!! i * dN !!! j)) B) B) B in
      for_loop 4 (fun i ke =>
        for_loop 4 (fun j ke =>
          for_loop 2 (fun k ke =>
            for_loop 2 (fun l ke =>
              <[(j + 4 * i)%nat :=
                  ke !!! (j + 4 * i)%nat
                  + weight * (get2 B k i * get2 kcond k l * get2 B l j)]> ke)
            ke) ke) ke) ke) ke) ke.

Definition DifferentiatedShapeFunctions (xi eta zeta : PetscScalar)
    : list PetscScalar * list PetscScalar * list PetscScalar :=
  let dNdxi :=
    [ -0.125 * (1.0 - eta) * (1.0 - zeta); 0.125 * (1.0 - eta) * (1.0 - zeta);
      0.125 * (1.0 + eta) * (1.0 - zeta); -0.125 * (1.0 + eta) * (1.0 - zeta);
      -0.125 * (1.0 - eta) * (1.0 + zeta); 0.125 * (1.0 - eta) * (1.0 + zeta);
      0.125 * (1.0 + eta) * (1.0 + zeta); -0.125 * (1.0 + eta) * (1.0 + zeta) ] in
  let dNdeta :=
    [ -0.125 * (1.0 - xi) * (1.0 - zeta); -0.125 * (1.0 + xi) * (1.0 - zeta);
      0.125 * (1.0 + xi) * (1.0 - zeta); 0.125 * (1.0 - xi) * (1.0 - zeta);
      -0.125 * (1.0 - xi) * (1.0 + zeta); -0.125 * (1.0 + xi) * (1.0 + zeta);
      0.125 * (1.0 + xi) * (1.0 + zeta); 0.125 * (1.0 - xi) * (1.0 + zeta) ] in
  let dNdzeta :=
    [ -0.125 * (1.0 - xi) * (1.0 - eta); -0.125 * (1.0 + xi) * (1.0 - eta);
      -0.125 * (1.0 + xi) * (1.0 + eta); -0.125 * (1.0 - xi) * (1.0 + eta);
      0.125 * (1.0 - xi) * (1.0 - eta); 0.125 * (1.0 + xi) * (1.0 - eta);
      0.125 * (1.0 + xi) * (1.0 + eta); 0.125 * (1.0 - xi) * (1.0 + eta) ] in
  (dNdxi, dNdeta, dNdzeta).

Definition Inverse3M (J : list (list PetscScalar))
    : PetscScalar * list (list PetscScalar) :=
  let detJ :=
    get2 J 0 0 * (get2 J 1 1 * get2 J 2 2 - get2 J 2 1 * get2 J 1 2)
    - get2 J 0 1 * (get2 J 1 0 * get2 J 2 2 - get2 J 2 0 * get2 J 1 2)
    + get2 J 0 2 * (get2 J 1 0 * get2 J 2 1 - get2 J 2 0 * get2 J 1 1) in
  let invJ :=
    [ [ (get2 J 1 1 * get2 J 2 2 - get2 J 2 1 * get2 J 1 2) / detJ;
        - (get2 J 0 1 * get2 J 2 2 - get2 J 0 2 * get2 J 2 1) / detJ;
        (get2 J 0 1 * get2 J 1 2 - get2 J 0 2 * get2 J 1 1) / detJ ];
      [ - (get2 J 1 0 * get2 J 2 2 - get2 J 1 2 * get2 J 2 0) / detJ;
        (get2 J 0 0 * get2 J 2 2 - get2 J 0 2 * get2 J 2 0) / detJ;
        - (get2 J 0 0 * get2 J 1 2 - get2 J 0 2 * get2 J 1 0) / detJ ];
      [ (get2 J 1 0 * get2 J 2 1 - get2 J 1 1 * get2 J 2 0) / detJ;
        - (get2 J 0 0 * get2 J 2 1 - get2 J 0 1 * get2 J 2 0) / detJ;
        (get2 J 0 0 * get2 J 1 1 - get2 J 1 0 * get2 J 0 1) / detJ ] ] in
  (detJ, invJ).

Definition Hex8Isoparametric (X Y Z : list PetscScalar) (redInt : PetscInt)
    (ke : list PetscScalar) : list PetscScalar :=
  let kcond := [ [1.0; 0.0; 0.0]; [0.0; 1.0; 0.0]; [0.0; 0.0; 1.0] ] in
  let GP := [ -0.577350269189626; 0.577350269189626 ] in
  let W := [ 1.0; 1.0 ] in
  let GP := if bool_decide (redInt <> 0%nat) then <[0%nat := 0.0]> GP else GP in
  let W := if bool_decide (redInt <> 0%nat) then <[0%nat := 2.0]> W else W in
  let ke := memset_zero ke (8 * 8) in
  for_loop (2 - redInt) (fun ii ke =>
    for_loop (2 - redInt) (fun jj ke =>
      for_loop (2 - redInt) (fun kk ke =>
        let xi := GP !!! ii in
        let eta := GP !!! jj in
        let zeta := GP !!! kk in
        let '(dNdxi, dNdeta, dNdzeta) := DifferentiatedShapeFunctions xi eta zeta in
        let J := [ [ Dot dNdxi X 8; Dot dNdxi Y 8; Dot dNdxi Z 8 ];
                   [ Dot dNdeta X 8; Dot dNdeta Y 8; Dot dNdeta Z 8 ];
                   [ Dot dNdzeta X 8; Dot dNdzeta Y 8; Dot dNdzeta Z 8 ] ] in
        let '(detJ, invJ) := Inverse3M J in
        let weight := W !!! ii * W !!! jj * W !!! kk * detJ in
        let B := replicate 3 (replicate 8 0) in
        let B :=
          for_loop 3 (fun ll B =>
            let dN := if bool_decide (ll = 0%nat) then dNdxi
                      else if bool_decide (ll = 1%nat) then dNdeta
                      else dNdzeta in
            let beta := [ get2 invJ 0 ll; get2 invJ 1 ll; get2 invJ 2 ll ] in
            for_loop 3 (fun i B =>
              for_loop 8 (fun j B =>
                set2 B i j (get2 B i j + beta !!! i * dN !!! j)) B) B) B in
        for_loop 8 (fun i ke =>
          for_loop 8 (fun j ke =>
            for_loop 3 (fun k ke =>
              for_loop 3 (fun l ke =>
                <[(j + 8 * i)%nat :=
                    ke !!! (j + 8 * i)%nat
                    + weight * (get2 B k i * get2 kcond k l * get2 B l j)]> ke)
              ke) ke) ke) ke) ke) ke) ke.

(** ** The state of a [LinearHeatConduction] object *)

(** The data members the methods read and write. Pointers to PETSc objects
    are modelled by the objects; only [ksp], which [SolveState] tests against
    [NULL], is optional. A method that assigns many members is written with
    one local value per member and builds the object at its end. *)
Record LinearHeatConduction := mkLHC {
  K : Mat;
  U : Vec;
  RHS : Vec;
  N : Vec;
  ksp : option KSP;
  da_nodal : DM;
  KE : list PetscScalar;
  nlvls : PetscInt;
  nn : list PetscInt;
  ne : list PetscInt;
  xc : list PetscScalar;
  restart : bool;
  flip : bool;
  filename00 : string;
  filename01 : string
}.

Definition set_K (v : Mat) (s : LinearHeatConduction) : LinearHeatConduction :=
  mkLHC v (U s) (RHS s) (N s) (ksp s) (da_nodal s) (KE s) (nlvls s) (nn s) (ne s) (xc s) (restart s) (flip s) (filename00 s) (filename01 s).
Definition set_U (v : Vec) (s : LinearHeatConduction) : LinearHeatConduction :=
  mkLHC (K s) v (RHS s) (N s) (ksp s) (da_nodal s) (KE s) (nlvls s) (nn s) (ne s) (xc s) (restart s) (flip s) (filename00 s) (filename01 s).
Definition set_RHS (v : Vec) (s : LinearHeatConduction) : LinearHeatConduction :=
  mkLHC (K s) (U s) v (N s) (ksp s) (da_nodal s) (KE s) (nlvls s) (nn s) (ne s) (xc s) (restart s) (flip s) (filename00 s) (filename01 s).
Definition set_N (v : Vec) (s : LinearHeatConduction) : LinearHeatConduction :=
  mkLHC (K s) (U s) (RHS s) v (ksp s) (da_nodal s) (KE s) (nlvls s) (nn s) (ne s) (xc s) (restart s) (flip s) (filename00 s) (filename01 s).
Definition set_ksp (v : option KSP) (s : LinearHeatConduction) : LinearHeatConduction :=
  mkLHC (K s) (U s) (RHS s) (N s) v (da_nodal s) (KE s) (nlvls s) (nn s) (ne s) (xc s) (restart s) (flip s) (filename00 s) (filename01 s).
Definition set_da_nodal (v : DM) (s : LinearHeatConduction) : LinearHeatConduction :=
  mkLHC (K s) (U s) (RHS s) (N s) (ksp s) v (KE s) (nlvls s) (nn s) (ne s) (xc s) (restart s) (flip s) (filename00 s) (filename01 s).
Definition set_KE (v : list PetscScalar) (s : LinearHeatConduction) : LinearHeatConduction :=
  mkLHC (K s) (U s) (RHS s) (N s) (ksp s) (da_nodal s) v (nlvls s) (nn s) (ne s) (xc s) (restart s) (flip s) (filename00 s) (filename01 s).
Definition set_nlvls (v : PetscInt) (s : LinearHeatConduction) : LinearHeatConduction :=
  mkLHC (K s) (U s) (RHS s) (N s) (ksp s) (da_nodal s) (KE s) v (nn s) (ne s) (xc s) (restart s) (flip s) (filename00 s) (filename01 s).
Definition set_nn (v : list PetscInt) (s : LinearHeatConduction) : LinearHeatConduction :=
  mkLHC (K s) (U s) (RHS s) (N s) (ksp s) (da_nodal s) (KE s) (nlvls s) v (ne s) (xc s) (restart s) (flip s) (filename00 s) (filename01 s).
Definition set_ne (v : list PetscInt) (s : LinearHeatConduction) : LinearHeatConduction :=
  mkLHC (K s) (U s) (RHS s) (N s) (ksp s) (da_nodal s) (KE s) (nlvls s) (nn s) v (xc s) (restart s) (flip s) (filename00 s) (filename01 s).
Definition set_xc (v : list PetscScalar) (s : LinearHeatConduction) : LinearHeatConduction :=
  mkLHC (K s) (U s) (RHS s) (N s) (ksp s) (da_nodal s) (KE s) (nlvls s) (nn s) (ne s) v (restart s) (flip s) (filename00 s) (filename01 s).
Definition set_restart (v : bool) (s : LinearHeatConduction) : LinearHeatConduction :=
  mkLHC (K s) (U s) (RHS s) (N s) (ksp s) (da_nodal s) (KE s) (nlvls s) (nn s) (ne s) (xc s) v (flip s) (filename00 s) (filename01 s).
Definition set_flip (v : bool) (s : LinearHeatConduction) : LinearHeatConduction :=
  mkLHC (K s) (U s) (RHS s) (N s) (ksp s) (da_nodal s) (KE s) (nlvls s) (nn s) (ne s) (xc s) (restart s) v (filename00 s) (filename01 s).
Definition set_filename00 (v : string) (s : LinearHeatConduction) : LinearHeatConduction :=
  mkLHC (K s) (U s) (RHS s) (N s) (ksp s) (da_nodal s) (KE s) (nlvls s) (nn s) (ne s) (xc s) (restart s) (flip s) v (filename01 s).
Definition set_filename01 (v : string) (s : LinearHeatConduction) : LinearHeatConduction :=
  mkLHC (K s) (U s) (RHS s) (N s) (ksp s) (da_nodal s) (KE s) (nlvls s) (nn s) (ne s) (xc s) (restart s) (flip s) (filename00 s) v.

(** ** Problem setup *)

Definition PetscMin (a b : PetscScalar) : PetscScalar :=
  if bool_decide (a < b) then a else b.
Definition PetscAbsScalar (a : PetscScalar) : PetscScalar := Rabs a.

Definition DMCreateMatrix (dm : DM) : Mat := fun _ _ => 0.
Definition DMCreateGlobalVector (dm : DM) : Vec :=
  replicate (dm_xm dm * dm_ym dm * dm_zm dm) 0.

(** [for (l = 0; l < nen; l++) edof[l] = necon[i * nen + l];]
    The array [edof] is a local of the caller that every element rewrites;
    it is modelled as a fresh array of [len] entries per element. *)
Definition element_dofs (len nen : nat) (necon : list nat) (i : nat) : list nat :=
  for_loop nen (fun l edof => <[l := necon !!! (i * nen + l)%nat]> edof)
    (replicate len 0%nat).

(** The default scenario of the 2-D build: the clamped nodes. *)
Definition clamp_nodes_2D (lcoorp : list PetscScalar) (nn : nat)
    (xc : list PetscScalar) (epsi : PetscScalar) (N : Vec) : Vec :=
  for_loop nn (fun i N =>
    if bool_decide ((i mod 2)%nat = 0%nat)
       && bool_decide (PetscAbsScalar (lcoorp !!! (i + 1)%nat - xc !!! 2%nat) < epsi)
       && (bool_decide (lcoorp !!! i >= xc !!! 1%nat / 8.0 * 3)
           && bool_decide (lcoorp !!! i <= xc !!! 1%nat / 8.0 * 5))
    then VecSetValueLocal_INSERT N (i / 2)%nat 0.0
    else N) N.

(** The default scenario: the body load, element by element. *)
Definition body_load (nnode : nat) (nel nen : nat) (necon : list nat)
    (LoadIntensity : PetscScalar) (RHS : Vec) : Vec :=
  for_loop nel (fun i RHS =>
    let rhs_ele := replicate nnode 0 in
    let edof := element_dofs nnode nen necon i in
    let rhs_ele :=
      for_loop nnode (fun j rhs_ele =>
        <[j := 1.0 / INR nnode * LoadIntensity]> rhs_ele) rhs_ele in
    VecSetValuesLocal_ADD RHS nnode edof rhs_ele) RHS.

(** The imported-geometry scenario: load outside the solid region, clamping
    of the elements flagged as fixed. *)
Definition imported_load_and_bc (nnode : nat) (nel nen : nat) (necon : list nat)
    (LoadIntensity : PetscScalar) (xPassive0p xPassive1p : list PetscScalar)
    (st : Vec * Vec) : Vec * Vec :=
  for_loop nel (fun i '(RHS, N) =>
    let rhs_ele := replicate nnode 0 in
    let n_ele := replicate nnode 0 in
    let edof := element_dofs nnode nen necon i in
    let RHS :=
      if bool_decide (xPassive0p !!! i = 0) then
        let rhs_ele :=
          for_loop nnode (fun j rhs_ele => <[j := LoadIntensity]> rhs_ele) rhs_ele in
        VecSetValuesLocal_ADD RHS nnode edof rhs_ele
      else RHS in
    let N :=
      if bool_decide (xPassive1p !!! i = 1) then
        let n_ele := for_loop nnode (fun j n_ele => <[j := 0.0]> n_ele) n_ele in
        VecSetValuesLocal_INSERT N nnode edof n_ele
      else N in
    (RHS, N)) st.

Section ProblemSetup.
Context `{BuildConfig} `{Petsc}.

  (** [SetUpLoadAndBC], [#if DIM == 2]. The members the method assigns are
      followed as local values and stored in the object at the end. *)
Definition SetUpLoadAndBC_2D (s : LinearHeatConduction) (da_nodes da_elem : DM)
      (xPassive0 xPassive1 xPassive2 : Vec) : LinearHeatConduction :=
    let M := dm_M da_nodes in
    let N_ := dm_N da_nodes in
    let lcoorp := dm_coor da_nodes in
    let '(nel, nen, necon) := DMDAGetElements_2D da_nodes in
    let dx := lcoorp !!! (DIM * necon !!! (0 * nen + 1) + 0)%nat
              - lcoorp !!! (DIM * necon !!! (0 * nen + 0) + 0)%nat in
    let dy := lcoorp !!! (DIM * necon !!! (0 * nen + 2) + 1)%nat
              - lcoorp !!! (DIM * necon !!! (0 * nen + 1) + 1)%nat in
    let nn_ := [M; N_] in
    let ne_ := [(M - 1)%nat; (N_ - 1)%nat] in
    let xc_ := [0.0; INR (M - 1) * dx; 0.0; INR (N_ - 1) * dy] in
    let da := DMDACreate M N_ 1 in
    let da := DMDASetUniformCoordinates da
                (xc_ !!! 0%nat) (xc_ !!! 1%nat) (xc_ !!! 2%nat) (xc_ !!! 3%nat) 0.0 0.0 in
    let da := DMDASetElementType da DMDA_ELEMENT_Q1 in
    let K_ := DMCreateMatrix da in
    let U_ := DMCreateGlobalVector da in
    let RHS_ := VecDuplicate U_ in
    let Nvec := VecDuplicate U_ in
    let X := [0.0; dx; dx; 0.0] in
    let Y := [0.0; 0.0; dy; dy] in
    let KE_ := Quad4Isoparametric X Y 0 (KE s) in
    let Nvec := VecSet Nvec 1.0 in
    let RHS_ := VecSet RHS_ 0.0 in
    let lcoorp := dm_coor da in
    let nn := VecGetSize lcoorp in
    let epsi := PetscMin (dx * 0.05) (dy * 0.05) in
    let Nvec := VecSet Nvec 1.0 in
    let RHS_ := VecSet RHS_ 0.0 in
    let '(nel, nen, necon) := DMDAGetElements_2D da_nodes in
    let '(RHS_, Nvec) :=
      if bool_decide (IMPORT_GEO = 0%nat) then
        let LoadIntensity := 0.001 in
        let Nvec := clamp_nodes_2D lcoorp nn xc_ epsi Nvec in
        let RHS_ := body_load 4 nel nen necon LoadIntensity RHS_ in
        (RHS_, Nvec)
      else
        let LoadIntensity := 0.001 in
        imported_load_and_bc 4 nel nen necon LoadIntensity xPassive0 xPassive1
          (RHS_, Nvec) in
    mkLHC K_ (U_) RHS_ Nvec (ksp s) da KE_ (nlvls s) nn_ ne_ xc_
      (restart s) (flip s) (filename00 s) (filename01 s).

  (** The default scenario of the 3-D build: the clamped nodes. *)
Definition clamp_nodes_3D (lcoorp : list PetscScalar) (nn : nat)
      (xc : list PetscScalar) (epsi : PetscScalar) (N : Vec) : Vec :=
    for_loop nn (fun i N =>
      if bool_decide ((i mod 3)%nat = 0%nat)
         && bool_decide (PetscAbsScalar (lcoorp !!! (i + 1)%nat - xc !!! 2%nat) < epsi)
         && (bool_decide (lcoorp !!! i >= xc !!! 1%nat / 8.0 * 3)
             && bool_decide (lcoorp !!! i <= xc !!! 1%nat / 8.0 * 5))
         && (bool_decide (lcoorp !!! (i + 2)%nat >= xc !!! 5%nat / 8.0 * 3)
             && bool_decide (lcoorp !!! (i + 2)%nat <= xc !!! 5%nat / 8.0 * 5))
      then VecSetValueLocal_INSERT N (i / 3)%nat 0.0
      else N) N.

  (** [SetUpLoadAndBC], [#if DIM == 3] *)
Definition SetUpLoadAndBC_3D (s : LinearHeatConduction) (da_nodes da_elem : DM)
      (xPassive0 xPassive1 xPassive2 : Vec) : LinearHeatConduction :=
    let M := dm_M da_nodes in
    let N_ := dm_N da_nodes in
    let P := dm_P da_nodes in
    let lcoorp := dm_coor da_nodes in
    let '(nel, nen, necon) := DMDAGetElements_3D da_nodes in
    let dx := lcoorp !!! (3 * necon !!! (0 * nen + 1) + 0)%nat
              - lcoorp !!! (3 * necon !!! (0 * nen + 0) + 0)%nat in
    let dy := lcoorp !!! (3 * necon !!! (0 * nen + 2) + 1)%nat
              - lcoorp !!! (3 * necon !!! (0 * nen + 1) + 1)%nat in
    let dz := lcoorp !!! (3 * necon !!! (0 * nen + 4) + 2)%nat
              - lcoorp !!! (3 * necon !!! (0 * nen + 0) + 2)%nat in
    let nn_ := [M; N_; P] in
    let ne_ := [(M - 1)%nat; (N_ - 1)%nat; (P - 1)%nat] in
    let xc_ := [0.0; INR (M - 1) * dx; 0.0; INR (N_ - 1) * dy;
                0.0; INR (P - 1) * dz] in
    let da := DMDACreate M N_ P in
    let da := DMDASetUniformCoordinates da
                (xc_ !!! 0%nat) (xc_ !!! 1%nat) (xc_ !!! 2%nat) (xc_ !!! 3%nat)
                (xc_ !!! 4%nat) (xc_ !!! 5%nat) in
    let da := DMDASetElementType da DMDA_ELEMENT_Q1 in
    let K_ := DMCreateMatrix da in
    let U_ := DMCreateGlobalVector da in
    let RHS_ := VecDuplicate U_ in
    let Nvec := VecDuplicate U_ in
    let X := [0.0; dx; dx; 0.0; 0.0; dx; dx; 0.0] in
    let Y := [0.0; 0.0; dy; dy; 0.0; 0.0; dy; dy] in
    let Z := [0.0; 0.0; 0.0; 0.0; dz; dz; dz; dz] in
    let KE_ := Hex8Isoparametric X Y Z 0 (KE s) in
    let Nvec := VecSet Nvec 1.0 in
    let RHS_ := VecSet RHS_ 0.0 in
    let lcoorp := dm_coor da in
    let nn := VecGetSize lcoorp in
    let epsi := PetscMin (dx * 0.05) (PetscMin (dy * 0.05) (dz * 0.05)) in
    let Nvec := VecSet Nvec 1.0 in
    let RHS_ := VecSet RHS_ 0.0 in
    let '(nel, nen, necon) := DMDAGetElements_3D da_nodes in
    let '(RHS_, Nvec) :=
      if bool_decide (IMPORT_GEO = 0%nat) then
        let LoadIntensity := 0.001 in
        let Nvec := clamp_nodes_3D lcoorp nn xc_ epsi Nvec in
        let RHS_ := body_load 8 nel nen necon LoadIntensity RHS_ in
        (RHS_, Nvec)
      else
        let LoadIntensity := 0.001 in
        imported_load_and_bc 8 nel nen necon LoadIntensity xPassive0 xPassive1
          (RHS_, Nvec) in
    mkLHC K_ (U_) RHS_ Nvec (ksp s) da KE_ (nlvls s) nn_ ne_ xc_
      (restart s) (flip s) (filename00 s) (filename01 s).

Definition SetUpLoadAndBC (s : LinearHeatConduction) (da_nodes da_elem : DM)
      (xPassive0 xPassive1 xPassive2 : Vec) : LinearHeatConduction :=
    if bool_decide (DIM = 2%nat) then
      SetUpLoadAndBC_2D s da_nodes da_elem xPassive0 xPassive1 xPassive2
    else
      SetUpLoadAndBC_3D s da_nodes da_elem xPassive0 xPassive1 xPassive2.
End ProblemSetup.

(** ** Matrix assembler *)

Section Assembler.
Context `{BuildConfig} `{Petsc}.

  (** The SIMP interpolation of the conductivity of element [i]. *)
Definition simp_conductivity (xp : list PetscScalar) (Emin Emax penal : PetscScalar)
      (i : nat) : PetscScalar :=
    Emin + PetscPowScalar (xp !!! i) penal * (Emax - Emin).

  (** First half of [AssembleConductivityMatrix]: [MatZeroEntries] and the
      loop over the elements, up to [MatAssemblyEnd]. *)
Definition AssembleElements (s : LinearHeatConduction) (xPhys : Vec)
      (Emin Emax penal : PetscScalar) : Mat :=
    let '(nel, nen, necon) := DMDAGetElements (da_nodal s) in
    let xp := xPhys in
    let K0 := MatZeroEntries (K s) in
    for_loop nel (fun i K =>
      let edof := element_dofs nedof nen necon i in
      let dens := Emin + PetscPowScalar (xp !!! i) penal * (Emax - Emin) in
      let ke :=
        for_loop (nedof * nedof) (fun k ke => <[k := KE s !!! k * dens]> ke)
          (replicate (nedof * nedof) 0) in
      MatSetValuesLocal_ADD K nedof edof nedof edof ke) K0.

  (** Second half: the Dirichlet conditions, [K = N'*K*N - (N-I)], and the
      masking of the load vector. *)
Definition ImposeDirichlet (Kmat : Mat) (s : LinearHeatConduction)
      : LinearHeatConduction :=
    let Kmat := MatDiagonalScale Kmat (N s) (N s) in
    let NI := VecDuplicate (N s) in
    let NI := VecSet NI 1.0 in
    let NI := VecAXPY NI (-1.0) (N s) in
    let Kmat := MatDiagonalSet_ADD Kmat NI in
    let s := set_K Kmat s in
    set_RHS (VecPointwiseMult (RHS s) (N s)) s.

Definition AssembleConductivityMatrix (s : LinearHeatConduction) (xPhys : Vec)
      (Emin Emax penal : PetscScalar) : LinearHeatConduction :=
    ImposeDirichlet (AssembleElements s xPhys Emin Emax penal) s.
End Assembler.

(** ** Linear solver configurator *)

Definition KSPSetType (k : KSP) (t : KSPType) : KSP :=
  mkKSP t (ksp_gmres_restart k) (ksp_rtol k) (ksp_atol k) (ksp_dtol k)
    (ksp_maxits k) (ksp_guess_nonzero k) (ksp_Amat k) (ksp_Pmat k) (ksp_pc k).
Definition KSPGMRESSetRestart (k : KSP) (r : PetscInt) : KSP :=
  mkKSP (ksp_type k) r (ksp_rtol k) (ksp_atol k) (ksp_dtol k)
    (ksp_maxits k) (ksp_guess_nonzero k) (ksp_Amat k) (ksp_Pmat k) (ksp_pc k).
Definition KSPSetTolerances (k : KSP) (rtol atol dtol : PetscScalar)
    (maxits : PetscInt) : KSP :=
  mkKSP (ksp_type k) (ksp_gmres_restart k) rtol atol dtol
    maxits (ksp_guess_nonzero k) (ksp_Amat k) (ksp_Pmat k) (ksp_pc k).
Definition KSPSetInitialGuessNonzero (k : KSP) (flg : bool) : KSP :=
  mkKSP (ksp_type k) (ksp_gmres_restart k) (ksp_rtol k) (ksp_atol k) (ksp_dtol k)
    (ksp_maxits k) flg (ksp_Amat k) (ksp_Pmat k) (ksp_pc k).
Definition KSPSetOperators (k : KSP) (A P : Mat) : KSP :=
  mkKSP (ksp_type k) (ksp_gmres_restart k) (ksp_rtol k) (ksp_atol k) (ksp_dtol k)
    (ksp_maxits k) (ksp_guess_nonzero k) A P (ksp_pc k).
Definition KSPSetPC (k : KSP) (p : PC) : KSP :=
  mkKSP (ksp_type k) (ksp_gmres_restart k) (ksp_rtol k) (ksp_atol k) (ksp_dtol k)
    (ksp_maxits k) (ksp_guess_nonzero k) (ksp_Amat k) (ksp_Pmat k) p.

Definition PCSetType (p : PC) (t : PCType) : PC :=
  mkPC t (pc_mg_type p) (pc_mg_cycle p) (pc_mg_galerkin p) (pc_mg_levels p)
    (pc_mg_interpolation p).
Definition PCMGSetType (p : PC) (t : PCMGType) : PC :=
  mkPC (pc_type p) t (pc_mg_cycle p) (pc_mg_galerkin p) (pc_mg_levels p)
    (pc_mg_interpolation p).
Definition PCMGSetCycleType (p : PC) (t : PCMGCycleType) : PC :=
  mkPC (pc_type p) (pc_mg_type p) t (pc_mg_galerkin p) (pc_mg_levels p)
    (pc_mg_interpolation p).
Definition PCMGSetGalerkin (p : PC) (t : PCMGGalerkinType) : PC :=
  mkPC (pc_type p) (pc_mg_type p) (pc_mg_cycle p) t (pc_mg_levels p)
    (pc_mg_interpolation p).
Definition PCMGSetInterpolation (p : PC) (l : nat) (R : Mat) : PC :=
  mkPC (pc_type p) (pc_mg_type p) (pc_mg_cycle p) (pc_mg_galerkin p)
    (pc_mg_levels p) (pc_mg_interpolation p ++ [(l, R)]).
Definition PCMGSetLevelKSPs (p : PC) (ls : list LevelKSP) : PC :=
  mkPC (pc_type p) (pc_mg_type p) (pc_mg_cycle p) (pc_mg_galerkin p) ls
    (pc_mg_interpolation p).

(** The setters of a level solver. In [LKSPSetTolerances] an argument [None]
    is [PETSC_DEFAULT]: the value the solver has is kept. *)
Definition LKSPSetType (k : LevelKSP) (t : KSPType) : LevelKSP :=
  mkLevelKSP t (lksp_gmres_restart k) (lksp_rtol k) (lksp_atol k) (lksp_dtol k)
    (lksp_maxits k) (lksp_pc_type k) (lksp_converged k).
Definition LKSPGMRESSetRestart (k : LevelKSP) (r : PetscInt) : LevelKSP :=
  mkLevelKSP (lksp_type k) r (lksp_rtol k) (lksp_atol k) (lksp_dtol k)
    (lksp_maxits k) (lksp_pc_type k) (lksp_converged k).
Definition LKSPSetTolerances (k : LevelKSP) (rtol atol dtol : option PetscScalar)
    (maxits : option PetscInt) : LevelKSP :=
  mkLevelKSP (lksp_type k) (lksp_gmres_restart k)
    (default (lksp_rtol k) rtol) (default (lksp_atol k) atol)
    (default (lksp_dtol k) dtol) (default (lksp_maxits k) maxits)
    (lksp_pc_type k) (lksp_converged k).
Definition LPCSetType (k : LevelKSP) (t : PCType) : LevelKSP :=
  mkLevelKSP (lksp_type k) (lksp_gmres_restart k) (lksp_rtol k) (lksp_atol k)
    (lksp_dtol k) (lksp_maxits k) t (lksp_converged k).

(** [KSPSetFromOptions]: every solver option that was given replaces the
    value set in the code, [-ksp_initial_guess_nonzero] included: the call
    comes after [KSPSetInitialGuessNonzero]. *)
Definition KSPSetFromOptions (opts : PetscOptions) (k : KSP) : KSP :=
  mkKSP (default (ksp_type k) (opt_ksp_type opts))
    (default (ksp_gmres_restart k) (opt_ksp_gmres_restart opts))
    (default (ksp_rtol k) (opt_ksp_rtol opts))
    (default (ksp_atol k) (opt_ksp_atol opts))
    (default (ksp_dtol k) (opt_ksp_divtol opts))
    (default (ksp_maxits k) (opt_ksp_max_it opts))
    (default (ksp_guess_nonzero k) (opt_ksp_initial_guess_nonzero opts))
    (ksp_Amat k) (ksp_Pmat k)
    (PCSetType (ksp_pc k) (default (pc_type (ksp_pc k)) (opt_pc_type opts))).

(** [PCMGSetLevels pc n]: one solver per level, as the library creates it. *)
Definition PCMGSetLevels `{Petsc} (p : PC) (n : nat) : PC :=
  PCMGSetLevelKSPs p (PCMGCreateLevel <$> seq 0 n).

(** [PCMGGetCoarseSolve], [PCMGGetSmoother] followed by calls on the solver
    obtained: the solver of level [l] is updated in place. *)
Definition PCMGUpdateLevel (p : PC) (l : nat) (f : LevelKSP -> LevelKSP) : PC :=
  PCMGSetLevelKSPs p (alter f l (pc_mg_levels p)).

Definition fexists (fs : FileSystem) (name : string) : bool :=
  bool_decide (is_Some (fs !! name)).
Definition VecLoad (fs : FileSystem) (name : string) (v : Vec) : Vec :=
  default v (fs !! name).
Definition VecView (v : Vec) (name : string) (fs : FileSystem) : FileSystem :=
  <[name := v]> fs.

Section Solver.
Context `{BuildConfig} `{Petsc}.

  (** The restart part of [SetUpSolver]: "CHECK FOR RESTART POINT" and
      "READ THE RESTART FILE INTO THE SOLUTION VECTOR(S)". *)
Definition SetUpRestart (s : LinearHeatConduction) (opts : PetscOptions)
      (fs : FileSystem) : LinearHeatConduction :=
    let s := set_restart true s in
    let s := set_flip true s in
    let onlyDesign := false in
    let s := set_restart (default (restart s) (opt_restart opts)) s in
    let onlyDesign := default onlyDesign (opt_onlyLoadDesign opts) in
    if restart s then
      let filenameWorkdir := "./"%string in
      let filenameWorkdir :=
        match opt_workdir opts with
        | Some filenameChar => (String.append "" filenameChar)
        | None => filenameWorkdir
        end in
      let s := set_filename00 filenameWorkdir s in
      let s := set_filename01 filenameWorkdir s in
      let s := set_filename00 (String.append (filename00 s) "/RestartSol00.dat") s in
      let s := set_filename01 (String.append (filename01 s) "/RestartSol01.dat") s in
      if negb onlyDesign then
        let restartFileVec := ""%string in
        let restartFileVec :=
          match opt_restartFileVecSol opts with
          | Some filenameChar => String.append restartFileVec filenameChar
          | None => restartFileVec
          end in
        let vecFile := fexists fs restartFileVec in
        if vecFile then set_U (VecLoad fs restartFileVec (U s)) s else s
      else s
    else s.

  (** The grid hierarchy: [daclist[0]] is the finest grid and
      [daclist[k]] its k-th coarsening. *)
Definition DMCoarsenHierarchy (dm : DM) (n : nat) : list DM :=
    (fun k => Nat.iter (S k) DMCoarsen dm) <$> seq 0 n.

Definition SetUpSolver (s : LinearHeatConduction) (opts : PetscOptions)
      (fs : FileSystem) : LinearHeatConduction :=
    let s := SetUpRestart s opts fs in
    let ksp_ := KSPCreate in
    let rtol := 1.0e-5 in
    let atol := 1.0e-50 in
    let dtol := 1.0e5 in
    let restart_ := 100%nat in
    let maxitsGlobal := 200%nat in
    let coarse_rtol := 1.0e-8 in
    let coarse_atol := 1.0e-50 in
    let coarse_dtol := 1e5 in
    let coarse_maxits := 30%nat in
    let coarse_restart := 30%nat in
    let smooth_sweeps := 4%nat in
    let ksp_ := KSPSetType ksp_ KSPFGMRES in
    let ksp_ := KSPGMRESSetRestart ksp_ restart_ in
    let ksp_ := KSPSetTolerances ksp_ rtol atol dtol maxitsGlobal in
    let ksp_ := KSPSetInitialGuessNonzero ksp_ true in
    let ksp_ := KSPSetOperators ksp_ (K s) (K s) in
    let ksp_ := KSPSetPC ksp_ (PCSetType (ksp_pc ksp_) PCMG) in
    let ksp_ := KSPSetFromOptions opts ksp_ in
    let pc := ksp_pc ksp_ in
    let pcmg_flag := bool_decide (pc_type pc = PCMG) in
    if pcmg_flag then
      let daclist := da_nodal s :: DMCoarsenHierarchy (da_nodal s) (nlvls s - 1) in
      let da_list :=
        for_loop (nlvls s) (fun k da_list =>
          let da := daclist !!! (nlvls s - 1 - k)%nat in
          let da :=
            if bool_decide (DIM = 2%nat) then
              DMDASetUniformCoordinates da (xc s !!! 0%nat) (xc s !!! 1%nat)
                (xc s !!! 2%nat) (xc s !!! 3%nat) 0.0 0.0
            else
              DMDASetUniformCoordinates da (xc s !!! 0%nat) (xc s !!! 1%nat)
                (xc s !!! 2%nat) (xc s !!! 3%nat) (xc s !!! 4%nat) (xc s !!! 5%nat) in
          da_list ++ [da]) [] in
      let pc := PCMGSetLevels pc (nlvls s) in
      let pc := PCMGSetType pc PC_MG_MULTIPLICATIVE in
      let pc := PCMGSetCycleType pc PC_MG_CYCLE_V in
      let pc := PCMGSetGalerkin pc PC_MG_GALERKIN_BOTH in
      let pc :=
        for_loop (nlvls s - 1) (fun k' pc =>
          let k := S k' in
          let R := DMCreateInterpolation (da_list !!! (k - 1)%nat) (da_list !!! k) in
          PCMGSetInterpolation pc k R) pc in
      let pc :=
        PCMGUpdateLevel pc 0 (fun cksp =>
          let cksp := LKSPSetType cksp KSPGMRES in
          let cksp := LKSPGMRESSetRestart cksp coarse_restart in
          let cksp := LKSPSetTolerances cksp (Some coarse_rtol) (Some coarse_atol)
                        (Some coarse_dtol) (Some coarse_maxits) in
          LPCSetType cksp PCSOR) in
      let pc :=
        for_loop (nlvls s - 1) (fun k' pc =>
          let k := S k' in
          PCMGUpdateLevel pc k (fun dksp =>
            let dksp := LKSPSetType dksp KSPGMRES in
            let dksp := LKSPGMRESSetRestart dksp smooth_sweeps in
            let dksp := LKSPSetTolerances dksp None None None (Some smooth_sweeps) in
            LPCSetType dksp PCSOR)) pc in
      (* [DMDASetUniformCoordinates] acts on the grid objects themselves, and
         [da_list[nlvls - 1]] is [da_nodal]. *)
      let s := if bool_decide (nlvls s = 0%nat) then s
               else set_da_nodal (da_list !!! (nlvls s - 1)%nat) s in
      set_ksp (Some (KSPSetPC ksp_ pc)) s
    else
      set_ksp (Some ksp_) s.

  (** ** Response and sensitivity evaluator *)

Definition SolveState (s : LinearHeatConduction) (opts : PetscOptions)
      (fs : FileSystem) (xPhys : Vec) (Emin Emax penal : PetscScalar)
      : LinearHeatConduction :=
    let s := AssembleConductivityMatrix s xPhys Emin Emax penal in
    let s :=
      match ksp s with
      | None => SetUpSolver s opts fs
      | Some k => set_ksp (Some (KSPSetOperators k (K s) (K s))) s
      end in
    match ksp s with
    | Some k => set_U (KSPSolve k (RHS s) (U s)) s
    | None => s
    end.

  (** The loop over the elements of [ComputeObjectiveConstraintsSensitivities]:
      the state is the pair of [fx[0]] and the array [df]. *)
Definition sensitivity_loop (s : LinearHeatConduction) (nel nen : nat)
      (necon : list nat) (up xp xPassive0p xPassive1p xPassive2p : list PetscScalar)
      (Emin Emax penal : PetscScalar) (st : PetscScalar * list PetscScalar)
      : PetscScalar * list PetscScalar :=
    for_loop nel (fun i '(fx, df) =>
      if bool_decide (xPassive0p !!! i = 0) && bool_decide (xPassive1p !!! i = 0)
         && bool_decide (xPassive2p !!! i = 0) then
        let edof := element_dofs nedof nen necon i in
        let uKu :=
          for_loop nedof (fun k uKu =>
            for_loop nedof (fun h uKu =>
              uKu + up !!! (edof !!! k) * KE s !!! (k * nedof + h)%nat
                    * up !!! (edof !!! h)) uKu) 0.0 in
        (fx + (Emin + PetscPowScalar (xp !!! i) penal * (Emax - Emin)) * uKu,
         <[i := -1.0 * penal * PetscPowScalar (xp !!! i) (penal - 1)
                * (Emax - Emin) * uKu]> df)
      else if bool_decide (xPassive0p !!! i = 1) then
        (fx, <[i := 1.0E9]> df)
      else if bool_decide (xPassive1p !!! i = 1)
              || bool_decide (xPassive2p !!! i = 1) then
        (fx, <[i := -1.0E9]> df)
      else (fx, df)) st.

  (** The volume constraint and its sensitivity, from the mask vectors. *)
Definition volume_constraint (dgdx xPhys : Vec) (volfrac : PetscScalar)
      (xPassive0 xPassive1 xPassive2 : Vec) : PetscScalar * Vec :=
    let tmpVec0 := VecDuplicate dgdx in
    let tmpVec0 := VecCopy xPassive0 tmpVec0 in
    let tmpVec0 := VecShift tmpVec0 (-1) in
    let tmpVec0 := VecScale tmpVec0 (-1) in
    let tmpVec1 := VecDuplicate dgdx in
    let tmpVec1 := VecCopy xPassive1 tmpVec1 in
    let tmpVec1 := VecShift tmpVec1 (-1) in
    let tmpVec1 := VecScale tmpVec1 (-1) in
    let tmpVec2 := VecDuplicate dgdx in
    let tmpVec2 := VecCopy xPassive2 tmpVec2 in
    let tmpVec2 := VecShift tmpVec2 (-1) in
    let tmpVec2 := VecScale tmpVec2 (-1) in
    let tmpxPhys := VecDuplicate xPhys in
    let tmpxPhys := VecCopy xPhys tmpxPhys in
    let tmpxPhys := VecPointwiseMult tmpxPhys tmpVec0 in
    let tmpxPhys := VecPointwiseMult tmpxPhys tmpVec1 in
    let tmpxPhys := VecPointwiseMult tmpxPhys tmpVec2 in
    let nNonDesign0 := VecSum xPassive0 in
    let nNonDesign1 := VecSum xPassive1 in
    let nNonDesign2 := VecSum xPassive2 in
    let neltot := VecGetSize tmpxPhys in
    let gx := VecSum tmpxPhys in
    let gx := gx / (INR neltot - nNonDesign0 - nNonDesign1 - nNonDesign2)
              - volfrac in
    let dgdx :=
      VecSet dgdx
        (1.0 / (INR neltot - nNonDesign0 - nNonDesign1 - nNonDesign2)) in
    let dgdx := VecPointwiseMult dgdx tmpVec0 in
    let dgdx := VecPointwiseMult dgdx tmpVec1 in
    let dgdx := VecPointwiseMult dgdx tmpVec2 in
    (gx, dgdx).

  (** The results of an evaluation: the state of the object, [fx[0]],
      [gx[0]], [dfdx] and [dgdx]. *)
Record Response := mkResponse {
    r_state : LinearHeatConduction;
    r_fx : PetscScalar;
    r_gx : PetscScalar;
    r_dfdx : Vec;
    r_dgdx : Vec
  }.

Definition ComputeObjectiveConstraintsSensitivities (s : LinearHeatConduction)
      (opts : PetscOptions) (fs : FileSystem) (dfdx dgdx xPhys : Vec)
      (Emin Emax penal volfrac : PetscScalar)
      (xPassive0 xPassive1 xPassive2 : Vec) : Response :=
    let s := SolveState s opts fs xPhys Emin Emax penal in
    let '(nel, nen, necon) := DMDAGetElements (da_nodal s) in
    let Uloc := U s in
    let up := Uloc in
    let '(fx, df) :=
      sensitivity_loop s nel nen necon up xPhys xPassive0 xPassive1 xPassive2
        Emin Emax penal (0.0, dfdx) in
    let tmp := fx in
    let fx := tmp in
    let '(gx, dgdx) :=
      volume_constraint dgdx xPhys volfrac xPassive0 xPassive1 xPassive2 in
    mkResponse s fx gx df dgdx.

  (** ** Checkpoints *)

Definition WriteRestartFiles (s : LinearHeatConduction) (fs : FileSystem)
      : PetscErrorCode * LinearHeatConduction * FileSystem :=
    if negb (restart s) then ((-1)%Z, s, fs)
    else
      let s := if flip s then set_flip false s else set_flip true s in
      let fs :=
        if negb (flip s) then VecView (U s) (filename00 s) fs
        else if flip s then VecView (U s) (filename01 s) fs
        else fs in
      (0%Z, s, fs).
End Solver.


(** * Vocabulary of the statements *)

(** [adds F d]: [F] keeps the length of an array and adds [d p] to its
    entry [p]. *)
Definition adds (F : list R -> list R) (d : nat -> R) : Prop :=
  forall a, length (F a) = length a
            /\ forall p, (p < length a)%nat -> F a !!! p = a !!! p + d p.

(** ** Problem setup *)

(** Node [n] of a 2-D grid lies on the bottom face, within [epsi] of the
    lower extent [ymin], with its in-face coordinate between 3/8 and 5/8 of
    the extent [xmax]. *)
Definition clamped_2D (lcoorp : list R) (ymin xmax epsi : R) (n : nat) : Prop :=
  Rabs (lcoorp !!! (2 * n + 1)%nat - ymin) < epsi
  /\ 3 / 8 * xmax <= lcoorp !!! (2 * n)%nat <= 5 / 8 * xmax.

(** The same in 3-D, with the two in-face coordinates x and z. *)
Definition clamped_3D (lcoorp : list R) (ymin xmax zmax epsi : R) (n : nat) : Prop :=
  Rabs (lcoorp !!! (3 * n + 1)%nat - ymin) < epsi
  /\ 3 / 8 * xmax <= lcoorp !!! (3 * n)%nat <= 5 / 8 * xmax
  /\ 3 / 8 * zmax <= lcoorp !!! (3 * n + 2)%nat <= 5 / 8 * zmax.

#[global] Instance clamped_2D_dec lcoorp ymin xmax epsi n :
  Decision (clamped_2D lcoorp ymin xmax epsi n).
Proof. unfold clamped_2D. apply _. Defined.
#[global] Instance clamped_3D_dec lcoorp ymin xmax zmax epsi n :
  Decision (clamped_3D lcoorp ymin xmax zmax epsi n).
Proof. unfold clamped_3D. apply _. Defined.

(** The load of node [n]: one share per element node that is [n]. *)
Definition node_load (nnode nel : nat) (necon : list nat) (share : R) (n : nat) : R :=
  sum_n nel (fun i =>
    sum_n nnode (fun j =>
      if bool_decide (necon !!! (i * nnode + j)%nat = n) then share else 0)).

Section SetupVocabulary.
Context `{BuildConfig} `{Petsc}.

  (** The grid the 2-D setup creates from the grid it is given. *)
Definition nodal_grid_2D (da_nodes : DM) (necon : list nat) : DM :=
    let c := dm_coor da_nodes in
    let dx := c !!! (DIM * necon !!! 1 + 0)%nat - c !!! (DIM * necon !!! 0 + 0)%nat in
    let dy := c !!! (DIM * necon !!! 2 + 1)%nat - c !!! (DIM * necon !!! 1 + 1)%nat in
    DMDASetElementType
      (DMDASetUniformCoordinates (DMDACreate (dm_M da_nodes) (dm_N da_nodes) 1)
         0.0 (INR (dm_M da_nodes - 1) * dx) 0.0 (INR (dm_N da_nodes - 1) * dy)
         0.0 0.0)
      DMDA_ELEMENT_Q1.

  (** The grid the 3-D setup creates. *)
Definition nodal_grid_3D (da_nodes : DM) (necon : list nat) : DM :=
    let c := dm_coor da_nodes in
    let dx := c !!! (3 * necon !!! 1 + 0)%nat - c !!! (3 * necon !!! 0 + 0)%nat in
    let dy := c !!! (3 * necon !!! 2 + 1)%nat - c !!! (3 * necon !!! 1 + 1)%nat in
    let dz := c !!! (3 * necon !!! 4 + 2)%nat - c !!! (3 * necon !!! 0 + 2)%nat in
    DMDASetElementType
      (DMDASetUniformCoordinates
         (DMDACreate (dm_M da_nodes) (dm_N da_nodes) (dm_P da_nodes))
         0.0 (INR (dm_M da_nodes - 1) * dx) 0.0 (INR (dm_N da_nodes - 1) * dy)
         0.0 (INR (dm_P da_nodes - 1) * dz))
      DMDA_ELEMENT_Q1.
End SetupVocabulary.

(** ** Evaluator *)

(** Element [i] belongs to the free design domain: its three passive flags
    are clear. *)
Definition designable (xPassive0 xPassive1 xPassive2 : Vec) (i : nat) : Prop :=
  xPassive0 !!! i = 0 /\ xPassive1 !!! i = 0 /\ xPassive2 !!! i = 0.

#[global] Instance designable_dec xPassive0 xPassive1 xPassive2 i :
  Decision (designable xPassive0 xPassive1 xPassive2 i).
Proof. unfold designable. apply _. Defined.

Section EvaluatorVocabulary.
Context `{BuildConfig} `{Petsc}.

  (** The quadratic form [u^T KE u] over the local temperatures of an
      element with degrees of freedom [edof]. *)
Definition quadratic_form (KE up : list PetscScalar) (edof : list nat) : PetscScalar :=
    sum_n nedof (fun k =>
      sum_n nedof (fun h =>
        up !!! (edof !!! k) * KE !!! (k * nedof + h)%nat * up !!! (edof !!! h))).

  (** What element [i] adds to the objective. *)
Definition objective_term (KE up : list PetscScalar) (nen : nat) (necon : list nat)
      (xp xPassive0 xPassive1 xPassive2 : Vec) (Emin Emax penal : PetscScalar)
      (i : nat) : PetscScalar :=
    if bool_decide (designable xPassive0 xPassive1 xPassive2 i) then
      (Emin + PetscPowScalar (xp !!! i) penal * (Emax - Emin))
      * quadratic_form KE up (element_dofs nedof nen necon i)
    else 0.

  (** The value the loop writes to [df[i]], if it writes one. *)
Definition sensitivity_written (KE up : list PetscScalar) (nen : nat) (necon : list nat)
      (xp xPassive0 xPassive1 xPassive2 : Vec) (Emin Emax penal : PetscScalar)
      (i : nat) : option PetscScalar :=
    if bool_decide (designable xPassive0 xPassive1 xPassive2 i) then
      Some (- penal * PetscPowScalar (xp !!! i) (penal - 1) * (Emax - Emin)
            * quadratic_form KE up (element_dofs nedof nen necon i))
    else if bool_decide (xPassive0 !!! i = 1) then Some 1.0E9
    else if bool_decide (xPassive1 !!! i = 1 \/ xPassive2 !!! i = 1) then Some (-1.0E9)
    else None.
End EvaluatorVocabulary.

(** Every entry of a flag vector is 0 or 1. *)
Definition boolean_flags (v : Vec) : Prop := Forall (fun x => x = 0 \/ x = 1) v.

(** ** A serial build on a small grid *)

(** The 2-D build with the default load and boundary scenario. *)
Definition Build2D : BuildConfig := {| DIM := 2; nedof := 4; IMPORT_GEO := 0 |}.
(** The 3-D build with the default load and boundary scenario. *)
Definition Build3D : BuildConfig := {| DIM := 3; nedof := 8; IMPORT_GEO := 0 |}.

(** Uniform node coordinates of an M x N (x P) grid, x fastest: two
    coordinates per node when P <= 1, three otherwise. *)
Definition uniform_coordinates (M N_ P : nat)
    (xmin xmax ymin ymax zmin zmax : PetscScalar) : list PetscScalar :=
  flat_map (fun k =>
    flat_map (fun j =>
      flat_map (fun i =>
        let x := xmin + INR i * ((xmax - xmin) / INR (M - 1)) in
        let y := ymin + INR j * ((ymax - ymin) / INR (N_ - 1)) in
        let z := zmin + INR k * ((zmax - zmin) / INR (P - 1)) in
        if (P <=? 1)%nat then [x; y] else [x; y; z])
      (seq 0 M)) (seq 0 N_)) (seq 0 P).

(** A one-rank library: every grid is owned whole, without ghost layers;
    coarsening halves the cell counts; a multigrid level is created as
    [PCMGSetLevels] does, level 0 as a direct solve and every other level as
    a Chebyshev smoother that skips the convergence test; the stand-in for
    the linear solve returns the right-hand side. *)
Definition SerialPetsc : Petsc := {|
  PetscPowScalar := fun x y => Rpower x y;
  DMDACreate := fun M N_ P =>
    mkDM DMDA_ELEMENT_P1 M N_ P 0 0 0 M N_ P 0 0 0 M N_ P [];
  DMDASetElementType := fun dm t =>
    mkDM t (dm_M dm) (dm_N dm) (dm_P dm) (dm_xs dm) (dm_ys dm) (dm_zs dm)
      (dm_xm dm) (dm_ym dm) (dm_zm dm) (dm_Xs dm) (dm_Ys dm) (dm_Zs dm)
      (dm_Xm dm) (dm_Ym dm) (dm_Zm dm) (dm_coor dm);
  DMDASetUniformCoordinates := fun dm xmin xmax ymin ymax zmin zmax =>
    mkDM (dm_elementtype dm) (dm_M dm) (dm_N dm) (dm_P dm)
      (dm_xs dm) (dm_ys dm) (dm_zs dm)
      (dm_xm dm) (dm_ym dm) (dm_zm dm) (dm_Xs dm) (dm_Ys dm) (dm_Zs dm)
      (dm_Xm dm) (dm_Ym dm) (dm_Zm dm)
      (uniform_coordinates (dm_M dm) (dm_N dm) (dm_P dm)
         xmin xmax ymin ymax zmin zmax);
  DMCoarsen := fun dm =>
    let c n := S ((n - 1) / 2) in
    mkDM (dm_elementtype dm) (c (dm_M dm)) (c (dm_N dm)) (c (dm_P dm)) 0 0 0
      (c (dm_M dm)) (c (dm_N dm)) (c (dm_P dm)) 0 0 0
      (c (dm_M dm)) (c (dm_N dm)) (c (dm_P dm)) [];
  DMCreateInterpolation := fun _ _ _ _ => 0;
  KSPCreate :=
    mkKSP KSPGMRES 30 1.0e-5 1.0e-50 1.0e4 (100 * 100) false (fun _ _ => 0) (fun _ _ => 0)
      (mkPC PCNONE PC_MG_MULTIPLICATIVE PC_MG_CYCLE_V PC_MG_GALERKIN_NONE [] []);
  PCMGCreateLevel := fun l =>
    if bool_decide (l = 0%nat) then
      mkLevelKSP KSPPREONLY 30 1.0e-5 1.0e-50 1.0e4 (100 * 100) PCLU
        KSPConvergedDefault
    else
      mkLevelKSP KSPCHEBYSHEV 30 1.0e-5 1.0e-50 1.0e4 2 PCSOR KSPConvergedSkip;
  KSPSolve := fun _ b _ => b
|}.

(** A 3 x 3 node grid (2 x 2 elements) of spacing 1. *)
Definition grid_3x3 : DM :=
  @DMDASetElementType SerialPetsc
    (@DMDASetUniformCoordinates SerialPetsc (@DMDACreate SerialPetsc 3 3 1)
       0 2 0 2 0 0)
    DMDA_ELEMENT_Q1.

(** The members of an object that no method has set yet. *)
Definition unset_members : LinearHeatConduction :=
  mkLHC (fun _ _ => 0) [] [] [] None inhabitant (replicate 16 0) 4 [] [] []
    false false "" "".

(** The object set up on the 3 x 3 grid, no element passive. *)
Definition heat_3x3 : LinearHeatConduction :=
  @SetUpLoadAndBC Build2D SerialPetsc unset_members grid_3x3 grid_3x3
    (replicate 4 0) (replicate 4 0) (replicate 4 0).

(** ** Solver and checkpoints *)

(** No solver option was given on the command line. *)
Definition no_solver_overrides (opts : PetscOptions) : Prop :=
  opt_ksp_type opts = None /\ opt_ksp_gmres_restart opts = None
  /\ opt_ksp_rtol opts = None /\ opt_ksp_atol opts = None
  /\ opt_ksp_divtol opts = None /\ opt_ksp_max_it opts = None
  /\ opt_pc_type opts = None /\ opt_ksp_initial_guess_nonzero opts = None.

(** The library creates the smoothers (the levels above the coarsest) with
    [KSPConvergedSkip], as PETSc's [PCMGSetLevels] does. *)
Definition smoothers_created_without_test `{Petsc} : Prop :=
  forall l, (1 <= l)%nat -> lksp_converged (PCMGCreateLevel l) = KSPConvergedSkip.

(** Restart is enabled and the two checkpoint names are those
    [SetUpSolver] builds from the working directory [wd]. *)
Definition restart_ready (wd : string) (s : LinearHeatConduction) : Prop :=
  restart s = true
  /\ filename00 s = String.append wd "/RestartSol00.dat"
  /\ filename01 s = String.append wd "/RestartSol01.dat".

(** The checkpoint file the flip flag selects. *)
Definition restart_target (s : LinearHeatConduction) : string :=
  if flip s then filename01 s else filename00 s.

(** Two states agree on the members [WriteRestartFiles] reads, apart from
    the temperature field. *)
Definition same_restart_members (s t : LinearHeatConduction) : Prop :=
  restart s = restart t /\ flip s = flip t
  /\ filename00 s = filename00 t /\ filename01 s = filename01 t.

(** ** Element kernel *)

(** The sum of [f] over the entries of a list. *)
Definition sum_list {A : Type} (l : list A) (f : A -> R) : R :=
  foldr (fun a acc => f a + acc) 0 l.

(** The dot product of the first [n] entries of two arrays. *)
Definition dot_n (n : nat) (u v : list R) : R :=
  sum_n n (fun i => u !!! i * v !!! i).

(** The Gauss rule of one axis, as pairs of a point and its weight: the two
    points [-g] and [g] with weight 1, or the point 0 with weight 2 when the
    integration is reduced. *)
Definition gauss_rule (g : R) (reduced : bool) : list (R * R) :=
  if reduced then [(0, 2)] else [(- g, 1); (g, 1)].

(** The Gauss point of both element kernels. *)
Definition gauss_point_code : R := 0.577350269189626.

(** The unit conductivity tensor. *)
Definition unit_conductivity (k l : nat) : R :=
  if bool_decide (k = l) then 1 else 0.

(** [redInt] for a choice of integration. *)
Definition redInt_of (reduced : bool) : nat := if reduced then 1 else 0.

(** What one Gauss point [(xi, eta)] with weights [wxi], [weta] adds to the
    entry [(i, j)] of the 2-D element matrix: [weight * (B^T kcond B)[i][j]]
    with [weight = wxi weta det J], the Jacobian [J] made of the dot
    products of the local derivatives with the coordinates, and [B] the
    derivatives multiplied by the columns of the inverse Jacobian. *)
Definition gauss_term_2D (X Y : list R) (xi eta wxi weta : R) (i j : nat) : R :=
  let '(dNdxi, dNdeta) := DifferentiatedShapeFunctions_2D xi eta in
  let J := [ [ dot_n 4 dNdxi X; dot_n 4 dNdxi Y ];
             [ dot_n 4 dNdeta X; dot_n 4 dNdeta Y ] ] in
  let '(detJ, invJ) := Inverse2M J in
  let B k a := get2 invJ k 0 * dNdxi !!! a + get2 invJ k 1 * dNdeta !!! a in
  let weight := wxi * weta * detJ in
  weight * sum_n 2 (fun k => sum_n 2 (fun l =>
             B k i * unit_conductivity k l * B l j)).

(** The 2-D element matrix as the specification describes it. *)
Definition Quad4_quadrature (g : R) (reduced : bool) (X Y : list R) (i j : nat) : R :=
  sum_list (gauss_rule g reduced) (fun p =>
    sum_list (gauss_rule g reduced) (fun q =>
      gauss_term_2D X Y p.1 q.1 p.2 q.2 i j)).

(** The same for the 3-D element. *)
Definition gauss_term_3D (X Y Z : list R) (xi eta zeta wxi weta wzeta : R)
    (i j : nat) : R :=
  let '(dNdxi, dNdeta, dNdzeta) := DifferentiatedShapeFunctions xi eta zeta in
  let J := [ [ dot_n 8 dNdxi X; dot_n 8 dNdxi Y; dot_n 8 dNdxi Z ];
             [ dot_n 8 dNdeta X; dot_n 8 dNdeta Y; dot_n 8 dNdeta Z ];
             [ dot_n 8 dNdzeta X; dot_n 8 dNdzeta Y; dot_n 8 dNdzeta Z ] ] in
  let '(detJ, invJ) := Inverse3M J in
  let B k a := get2 invJ k 0 * dNdxi !!! a + get2 invJ k 1 * dNdeta !!! a
               + get2 invJ k 2 * dNdzeta !!! a in
  let weight := wxi * weta * wzeta * detJ in
  weight * sum_n 3 (fun k => sum_n 3 (fun l =>
             B k i * unit_conductivity k l * B l j)).

Definition Hex8_quadrature (g : R) (reduced : bool) (X Y Z : list R) (i j : nat) : R :=
  sum_list (gauss_rule g reduced) (fun p =>
    sum_list (gauss_rule g reduced) (fun q =>
      sum_list (gauss_rule g reduced) (fun r =>
        gauss_term_3D X Y Z p.1 q.1 r.1 p.2 q.2 r.2 i j))).

(** A dense array of [r] rows of [c] entries. *)
Definition shape (r c : nat) (B : list (list R)) : Prop :=
  length B = r /\ forall k, (k < r)%nat -> length (B !!! k) = c.

(** [adds2 r c F d]: [F] keeps the shape of an [r] x [c] array and adds
    [d k a] to its entry [(k, a)]. *)
Definition adds2 (r c : nat) (F : list (list R) -> list (list R))
    (d : nat -> nat -> R) : Prop :=
  forall B, shape r c B ->
    shape r c (F B)
    /\ forall k a, (k < r)%nat -> (a < c)%nat -> get2 (F B) k a = get2 B k a + d k a.


(** * Further vocabulary *)

(** ** Element connectivity *)

(** The first cell of the local patch along one axis, from the start [s] of
    the owned nodes and the start [S] of the ghosted ones: the cell before
    the first owned node when a ghost layer precedes it. *)
Definition first_cell (s S : nat) : nat :=
  if bool_decide (s <> S) then (s - 1)%nat else s.

(** The number of cells of the local patch along one axis, [m] being the
    number of owned nodes. *)
Definition cells_along (s m S : nat) : nat := (s + m - first_cell s S - 1)%nat.

(** The owned nodes [s .. s + m - 1] of one axis are not empty and lie within
    the ghosted nodes [S .. S + M - 1]. *)
Definition patch_axis (s m S M : nat) : Prop :=
  (1 <= m)%nat /\ (S <= s)%nat /\ (s + m <= S + M)%nat.

(** The nodes of the cell whose first node is node [i] of row [j] of a
    patch of [W] nodes per row. *)
Definition Q1_cell (W i j : nat) : list nat :=
  [ (i + j * W)%nat; (i + 1 + j * W)%nat; (i + 1 + (j + 1) * W)%nat;
    (i + (j + 1) * W)%nat ].

(** The nodes of the 3-D cell whose first node is node [i] of row [j] of
    layer [k] of a patch of [W] nodes per row and [H] rows per layer. *)
Definition Q1_cell_3D (W H i j k : nat) : list nat :=
  [ (i + j * W + k * W * H)%nat; (i + 1 + j * W + k * W * H)%nat;
    (i + 1 + (j + 1) * W + k * W * H)%nat; (i + (j + 1) * W + k * W * H)%nat;
    (i + j * W + (k + 1) * W * H)%nat; (i + 1 + j * W + (k + 1) * W * H)%nat;
    (i + 1 + (j + 1) * W + (k + 1) * W * H)%nat;
    (i + (j + 1) * W + (k + 1) * W * H)%nat ].

(** A 2 x 2 x 2 node grid (one element) of spacing 1. *)
Definition grid_2x2x2 : DM :=
  @DMDASetElementType SerialPetsc
    (@DMDASetUniformCoordinates SerialPetsc (@DMDACreate SerialPetsc 2 2 2)
       0 1 0 1 0 1)
    DMDA_ELEMENT_Q1.

(** The members of a 3-D object that no method has set yet, and the object
    set up on the 2 x 2 x 2 grid, its one element not passive. *)
Definition unset_members_3D : LinearHeatConduction :=
  mkLHC (fun _ _ => 0) [] [] [] None inhabitant (replicate 64 0) 4 [] [] []
    false false "" "".

Definition heat_2x2x2 : LinearHeatConduction :=
  @SetUpLoadAndBC Build3D SerialPetsc unset_members_3D grid_2x2x2 grid_2x2x2
    [0] [0] [0].

(** The 3-D build with the imported-geometry scenario. *)
Definition Build3D_imported : BuildConfig :=
  {| DIM := 3; nedof := 8; IMPORT_GEO := 1 |}.

(** ** Element kernel *)

(** The product of two [n] x [n] arrays at row [i] and column [j]. *)
Definition mat_mul (n : nat) (A B : list (list R)) (i j : nat) : R :=
  sum_n n (fun k => get2 A i k * get2 B k j).

(** The Jacobian of the 2-D element at the local point [(xi, eta)]. *)
Definition Jacobian_2D (X Y : list R) (xi eta : R) : list (list R) :=
  let '(dNdxi, dNdeta) := DifferentiatedShapeFunctions_2D xi eta in
  [ [ dot_n 4 dNdxi X; dot_n 4 dNdxi Y ];
    [ dot_n 4 dNdeta X; dot_n 4 dNdeta Y ] ].

(** Entry [(k, a)] of the matrix [B] at that point: the derivative of the
    shape function of node [a] along the physical axis [k]. *)
Definition gradient_2D (X Y : list R) (xi eta : R) (k a : nat) : R :=
  let '(dNdxi, dNdeta) := DifferentiatedShapeFunctions_2D xi eta in
  let invJ := (Inverse2M (Jacobian_2D X Y xi eta)).2 in
  get2 invJ k 0 * dNdxi !!! a + get2 invJ k 1 * dNdeta !!! a.

(** The same for the 3-D element. *)
Definition Jacobian_3D (X Y Z : list R) (xi eta zeta : R) : list (list R) :=
  let '(dNdxi, dNdeta, dNdzeta) := DifferentiatedShapeFunctions xi eta zeta in
  [ [ dot_n 8 dNdxi X; dot_n 8 dNdxi Y; dot_n 8 dNdxi Z ];
    [ dot_n 8 dNdeta X; dot_n 8 dNdeta Y; dot_n 8 dNdeta Z ];
    [ dot_n 8 dNdzeta X; dot_n 8 dNdzeta Y; dot_n 8 dNdzeta Z ] ].

Definition gradient_3D (X Y Z : list R) (xi eta zeta : R) (k a : nat) : R :=
  let '(dNdxi, dNdeta, dNdzeta) := DifferentiatedShapeFunctions xi eta zeta in
  let invJ := (Inverse3M (Jacobian_3D X Y Z xi eta zeta)).2 in
  get2 invJ k 0 * dNdxi !!! a + get2 invJ k 1 * dNdeta !!! a
  + get2 invJ k 2 * dNdzeta !!! a.

(** The element is not degenerate where the kernels evaluate it: the
    determinant of the Jacobian, by which they divide, is not zero at any
    Gauss point of the rule. *)
Definition nonsingular_2D (reduced : bool) (X Y : list R) : Prop :=
  forall p q,
    p ∈ gauss_rule gauss_point_code reduced ->
    q ∈ gauss_rule gauss_point_code reduced ->
    (Inverse2M (Jacobian_2D X Y p.1 q.1)).1 <> 0.

Definition nonsingular_3D (reduced : bool) (X Y Z : list R) : Prop :=
  forall p q r,
    p ∈ gauss_rule gauss_point_code reduced ->
    q ∈ gauss_rule gauss_point_code reduced ->
    r ∈ gauss_rule gauss_point_code reduced ->
    (Inverse3M (Jacobian_3D X Y Z p.1 q.1 r.1)).1 <> 0.

(** The quadratic form [u^T ke u] of a row-major [n] x [n] array. *)
Definition quadratic_form_of (n : nat) (ke : list R) (u : nat -> R) : R :=
  sum_n n (fun i => sum_n n (fun j => u i * ke !!! (i * n + j)%nat * u j)).

(** A row-major [n] x [n] array is symmetric. *)
Definition symmetric_array (n : nat) (ke : list R) : Prop :=
  forall k h, (k < n)%nat -> (h < n)%nat ->
    ke !!! (k * n + h)%nat = ke !!! (h * n + k)%nat.

(** ** Problem setup *)

(** The load the imported-geometry scenario puts on node [n]: [share] for
    every corner at [n] of an element outside the solid region. *)
Definition node_load_outside_solid (nnode nel : nat) (necon : list nat)
    (xPassive0 : Vec) (share : R) (n : nat) : R :=
  sum_n nel (fun i =>
    if bool_decide (xPassive0 !!! i = 0) then
      sum_n nnode (fun j =>
        if bool_decide (necon !!! (i * nnode + j)%nat = n) then share else 0)
    else 0).

(** Node [n] is a corner of one of the first [nel] elements that is flagged
    as fixed. *)
Definition corner_of_fixed_element (nnode nel : nat) (necon : list nat)
    (xPassive1 : Vec) (n : nat) : Prop :=
  exists i j, (i < nel)%nat /\ (j < nnode)%nat /\ xPassive1 !!! i = 1
              /\ necon !!! (i * nnode + j)%nat = n.

(** The two halves of the loop of the imported-geometry scenario: what it
    does to the load vector and what it does to the mask. *)
Definition imported_load (nnode nel nen : nat) (necon : list nat)
    (LoadIntensity : R) (xPassive0p : list R) (RHS : Vec) : Vec :=
  for_loop nel (fun i RHS =>
    if bool_decide (xPassive0p !!! i = 0) then
      VecSetValuesLocal_ADD RHS nnode (element_dofs nnode nen necon i)
        (for_loop nnode (fun j rhs_ele => <[j := LoadIntensity]> rhs_ele)
           (replicate nnode 0))
    else RHS) RHS.

Definition imported_bc (nnode nel nen : nat) (necon : list nat)
    (xPassive1p : list R) (N : Vec) : Vec :=
  for_loop nel (fun i N =>
    if bool_decide (xPassive1p !!! i = 1) then
      VecSetValuesLocal_INSERT N nnode (element_dofs nnode nen necon i)
        (for_loop nnode (fun j n_ele => <[j := 0.0]> n_ele) (replicate nnode 0))
    else N) N.

(** The 2-D build with the imported-geometry scenario. *)
Definition Build2D_imported : BuildConfig :=
  {| DIM := 2; nedof := 4; IMPORT_GEO := 1 |}.

(** ** State of the object *)

(** Two states agree on the members that describe the problem: the mask,
    the element matrix, the level count and the sizes of the grid. *)
Definition same_problem (s t : LinearHeatConduction) : Prop :=
  N s = N t /\ KE s = KE t /\ nlvls s = nlvls t /\ nn s = nn t /\ ne s = ne t
  /\ xc s = xc t.

(** ** Evaluator *)

(** No element lies in two passive regions. *)
Definition disjoint_flags (p0 p1 p2 : Vec) : Prop :=
  forall i, p0 !!! i + p1 !!! i + p2 !!! i <= 1.

(** The number of designable elements among the first [n]. *)
Definition designable_count (n : nat) (p0 p1 p2 : Vec) : R :=
  sum_n n (fun i => if bool_decide (designable p0 p1 p2 i) then 1 else 0).

(** ** Solver and checkpoints *)

(** The options let [SetUpSolver] load a temperature field: [-restart] was
    not given as false and [-onlyLoadDesign] was not given as true. *)
Definition loads_state (opts : PetscOptions) : Prop :=
  opt_restart opts <> Some false /\ opt_onlyLoadDesign opts <> Some true.

(** The multigrid preconditioner is in use: [-pc_type] was not given, or
    given as [mg]. *)
Definition multigrid_selected (opts : PetscOptions) : Prop :=
  opt_pc_type opts = None \/ opt_pc_type opts = Some PCMG.

(** The options with [-restartFileVecSol] set to [name]. *)
Definition restart_from (name : string) : PetscOptions :=
  mkOptions None None None None (Some name) None None None None None None None
    None.

(** The options with [-pc_type] set to [t]. *)
Definition with_pc_type (t : PCType) : PetscOptions :=
  mkOptions None None None None None None None None None None None (Some t)
    None.

Section MoreVocabulary.
Context `{BuildConfig} `{Petsc}.

  (** The grid of multigrid level [k] of [nlvls]: the nodal grid coarsened
      [nlvls - 1 - k] times, with the coordinates of the domain set again. *)
Definition level_grid (s : LinearHeatConduction) (k : nat) : DM :=
    let da := Nat.iter (nlvls s - 1 - k) DMCoarsen (da_nodal s) in
    if bool_decide (DIM = 2%nat) then
      DMDASetUniformCoordinates da (xc s !!! 0%nat) (xc s !!! 1%nat)
        (xc s !!! 2%nat) (xc s !!! 3%nat) 0.0 0.0
    else
      DMDASetUniformCoordinates da (xc s !!! 0%nat) (xc s !!! 1%nat)
        (xc s !!! 2%nat) (xc s !!! 3%nat) (xc s !!! 4%nat) (xc s !!! 5%nat).

  (** The constructor. [mem] is the storage of the object before the
      constructor runs: the members the constructor does not assign keep
      what it holds. The null pointers are the empty objects, [ksp] is
      [None]. *)
Definition LinearHeatConduction_new (mem : LinearHeatConduction)
      (opts : PetscOptions) (da_nodes da_elem : DM) (numLoads : PetscInt)
      (xPassive0 xPassive1 xPassive2 : Vec) : LinearHeatConduction :=
    let s := mkLHC (fun _ _ => 0) [] [] [] None inhabitant (KE mem) (nlvls mem)
               (nn mem) (ne mem) (xc mem) (restart mem) (flip mem)
               (filename00 mem) (filename01 mem) in
    let s := set_nlvls 4 s in
    let s := set_nlvls (default (nlvls s) (opt_nlvls opts)) s in
    SetUpLoadAndBC s da_nodes da_elem xPassive0 xPassive1 xPassive2.
End MoreVocabulary.
(** * Properties *)

(** ** Loops and sums *)

Lemma R_zero_literal : 0.0 = 0.
Proof. lra. Qed.

Lemma for_loop_S {S : Type} (n : nat) (body : nat -> S -> S) (s : S) :
  for_loop (Datatypes.S n) body s = body n (for_loop n body s).
Proof. reflexivity. Qed.

Lemma for_loop_ext {S : Type} (n : nat) (f g : nat -> S -> S) (s : S) :
  (forall i x, (i < n)%nat -> f i x = g i x) ->
  for_loop n f s = for_loop n g s.
Proof.
  induction n as [|n IH]; intros Hfg; [reflexivity|].
  simpl. rewrite IH by (intros; apply Hfg; lia). apply Hfg. lia.
Qed.

Lemma sum_n_ext (n : nat) (f g : nat -> R) :
  (forall i, (i < n)%nat -> f i = g i) -> sum_n n f = sum_n n g.
Proof.
  induction n as [|n IH]; intros Hfg; [reflexivity|].
  simpl. rewrite IH by (intros; apply Hfg; lia). rewrite Hfg by lia. reflexivity.
Qed.

Lemma sum_n_zero (n : nat) : sum_n n (fun _ => 0) = 0.
Proof. induction n as [|n IH]; simpl; [reflexivity|]. rewrite IH. lra. Qed.

Lemma sum_n_plus (n : nat) (f g : nat -> R) :
  sum_n n (fun i => f i + g i) = sum_n n f + sum_n n g.
Proof. induction n as [|n IH]; simpl; [lra|]. rewrite IH. lra. Qed.

Lemma sum_n_scale (n : nat) (c : R) (f : nat -> R) :
  sum_n n (fun i => c * f i) = c * sum_n n f.
Proof. induction n as [|n IH]; simpl; [lra|]. rewrite IH. lra. Qed.

Lemma sum_n_const (n : nat) (c : R) : sum_n n (fun _ => c) = INR n * c.
Proof.
  induction n as [|n IH]; [simpl; lra|].
  rewrite S_INR. simpl. rewrite IH. lra.
Qed.

(** Only index [i0] contributes. *)
Lemma sum_n_single (n i0 : nat) (f : nat -> R) :
  (i0 < n)%nat ->
  sum_n n (fun i => if bool_decide (i = i0) then f i else 0) = f i0.
Proof.
  induction n as [|n IH]; intros Hlt; [lia|].
  simpl. destruct (decide (n = i0)) as [->|Hne].
  - rewrite bool_decide_eq_true_2 by reflexivity.
    rewrite (sum_n_ext i0 _ (fun _ => 0)).
    + rewrite sum_n_zero. lra.
    + intros i Hi. rewrite bool_decide_eq_false_2 by lia. reflexivity.
  - rewrite bool_decide_eq_false_2 by assumption.
    rewrite IH by lia. lra.
Qed.

(** A loop that adds a term per iteration computes a sum. *)
Lemma for_loop_accumulate (n : nat) (f : nat -> R) (a : R) :
  for_loop n (fun i acc => acc + f i) a = a + sum_n n f.
Proof. induction n as [|n IH]; simpl; [lra|]. rewrite IH. lra. Qed.

Lemma for_loop_accumulate2 (m n : nat) (f : nat -> nat -> R) (a : R) :
  for_loop m (fun k acc => for_loop n (fun h acc => acc + f k h) acc) a
  = a + sum_n m (fun k => sum_n n (f k)).
Proof.
  induction m as [|m IH]; simpl; [lra|].
  rewrite IH, for_loop_accumulate. lra.
Qed.

(** A loop over a pair whose components evolve on their own. *)
Lemma for_loop_pair {A B : Type} (n : nat) (f : nat -> A -> A) (g : nat -> B -> B)
    (a : A) (b : B) :
  for_loop n (fun i '(x, y) => (f i x, g i y)) (a, b)
  = (for_loop n f a, for_loop n g b).
Proof. induction n as [|n IH]; simpl; [reflexivity|]. rewrite IH. reflexivity. Qed.

(** A loop whose iteration [i] writes, at most, entry [i] of an array. *)
Lemma for_loop_own_entry_length {A : Type} (n : nat) (val : nat -> option A)
    (a : list A) :
  length (for_loop n (fun i a => from_option (fun v => <[i := v]> a) a (val i)) a)
  = length a.
Proof.
  induction n as [|n IH]; simpl; [reflexivity|].
  destruct (val n); simpl; [rewrite length_insert|]; exact IH.
Qed.

Lemma for_loop_own_entry {A : Type} (n : nat) (val : nat -> option A)
    (a : list A) (i : nat) :
  for_loop n (fun i a => from_option (fun v => <[i := v]> a) a (val i)) a !! i
  = if bool_decide (i < n)%nat
    then match val i with Some v => (<[i := v]> a) !! i | None => a !! i end
    else a !! i.
Proof.
  induction n as [|n IH]; cbn [for_loop].
  - rewrite bool_decide_eq_false_2 by lia. reflexivity.
  - destruct (decide (i = n)) as [->|Hne].
    + rewrite bool_decide_eq_true_2 by lia.
      destruct (val n) as [v|]; cbn [from_option].
      * destruct (decide (n < length a)%nat).
        -- rewrite !list_lookup_insert_eq; try reflexivity; try assumption.
           rewrite for_loop_own_entry_length. assumption.
        -- rewrite !(proj2 (lookup_ge_None _ _)); try reflexivity;
             rewrite length_insert; try rewrite for_loop_own_entry_length; lia.
      * rewrite IH. rewrite bool_decide_eq_false_2 by lia. reflexivity.
    + assert (Hstep :
        from_option (fun v => <[n := v]>
          (for_loop n (fun i a => from_option (fun v => <[i := v]> a) a (val i)) a))
          (for_loop n (fun i a => from_option (fun v => <[i := v]> a) a (val i)) a)
          (val n) !! i
        = for_loop n (fun i a => from_option (fun v => <[i := v]> a) a (val i)) a !! i).
      { destruct (val n); simpl; [|reflexivity].
        rewrite list_lookup_insert_ne by congruence. reflexivity. }
      rewrite Hstep, IH.
      destruct (decide (i < n)%nat).
      * rewrite !bool_decide_eq_true_2 by lia. reflexivity.
      * rewrite !bool_decide_eq_false_2 by lia. reflexivity.
Qed.

(** ** Vectors *)

Lemma sum_n_shift (n : nat) (f : nat -> R) :
  sum_n (S n) f = f 0%nat + sum_n n (fun i => f (S i)).
Proof.
  induction n as [|n IH]; [simpl; lra|].
  change (sum_n (S (S n)) f) with (sum_n (S n) f + f (S n)).
  rewrite IH. simpl. lra.
Qed.

Lemma VecSum_sum_n (v : Vec) : VecSum v = sum_n (length v) (fun i => v !!! i).
Proof.
  induction v as [|x v IH]; [reflexivity|].
  cbn [length]. rewrite sum_n_shift. cbn [VecSum foldr]. fold (VecSum v).
  rewrite IH. reflexivity.
Qed.

Lemma VecSum_zero (v : Vec) : Forall (fun x => x = 0) v -> VecSum v = 0.
Proof.
  induction 1 as [|x v Hx _ IH]; [reflexivity|].
  cbn [VecSum foldr]. fold (VecSum v). rewrite IH, Hx. lra.
Qed.

(** The mask [1 - xPassive] the evaluator builds with [VecShift] and
    [VecScale]. *)
Lemma passive_mask_length (p : Vec) :
  length (VecScale (VecShift p (-1)) (-1)) = length p.
Proof. unfold VecScale, VecShift. rewrite !length_fmap. reflexivity. Qed.

Lemma passive_mask_entry (p : Vec) (i : nat) :
  (i < length p)%nat ->
  VecScale (VecShift p (-1)) (-1) !!! i = 1 - p !!! i.
Proof.
  intros Hi. unfold VecScale, VecShift.
  rewrite !(@list_lookup_total_fmap R R _ R_inhabited R_inhabited)
    by (rewrite ?length_fmap; assumption).
  lra.
Qed.

Lemma VecPointwiseMult_length (x y : Vec) :
  length y = length x -> length (VecPointwiseMult x y) = length x.
Proof. intros E. unfold VecPointwiseMult. rewrite length_zip_with, E. lia. Qed.

Lemma VecPointwiseMult_entry (x y : Vec) (i : nat) :
  (i < length x)%nat -> (i < length y)%nat ->
  VecPointwiseMult x y !!! i = x !!! i * y !!! i.
Proof. intros Hx Hy. unfold VecPointwiseMult. apply lookup_total_zip_with; assumption. Qed.

Lemma lookup_of_total (v : Vec) (i : nat) (x : R) :
  (i < length v)%nat -> v !!! i = x -> v !! i = Some x.
Proof. intros Hi <-. apply list_lookup_lookup_total_lt. assumption. Qed.

(** ** Loops that add into an array *)


Lemma adds_insert (idx : nat) (val : list R -> R) (v : R) :
  (forall a, val a = v) ->
  adds (fun a => <[idx := a !!! idx + val a]> a)
       (fun p => if bool_decide (idx = p) then v else 0).
Proof.
  intros Hval a. split; [apply length_insert|].
  intros p Hp. rewrite Hval. case_bool_decide as E.
  - subst p. rewrite list_lookup_total_insert_eq by assumption. reflexivity.
  - rewrite list_lookup_total_insert_ne by assumption. lra.
Qed.

Lemma adds_for_loop (n : nat) (body : nat -> list R -> list R)
    (d : nat -> nat -> R) :
  (forall j, (j < n)%nat -> adds (body j) (d j)) ->
  adds (for_loop n body) (fun p => sum_n n (fun j => d j p)).
Proof.
  induction n as [|n IH]; intros Hbody a.
  - cbn [for_loop sum_n]. split; [reflexivity|]. intros; lra.
  - cbn [for_loop sum_n].
    destruct (IH (fun j Hj => Hbody j (Nat.lt_lt_succ_r _ _ Hj)) a) as [Hlen Hval].
    destruct (Hbody n (Nat.lt_succ_diag_r n) (for_loop n body a)) as [Hlen' Hval'].
    split; [congruence|].
    intros p Hp. rewrite Hval' by congruence. rewrite Hval by assumption. lra.
Qed.

Lemma adds_ext (F G : list R -> list R) (d e : nat -> R) :
  (forall a, F a = G a) -> (forall p, d p = e p) -> adds G e -> adds F d.
Proof.
  intros HF Hd HG a. rewrite HF. destruct (HG a) as [Hlen Hval].
  split; [assumption|]. intros p Hp. rewrite Hd. apply Hval. assumption.
Qed.

Lemma VecSetValuesLocal_ADD_adds (n : nat) (ix : list nat) (y : list R) :
  adds (fun v => VecSetValuesLocal_ADD v n ix y)
       (fun p => sum_n n (fun j => if bool_decide (ix !!! j = p) then y !!! j else 0)).
Proof.
  unfold VecSetValuesLocal_ADD. apply adds_for_loop. intros j _.
  apply (adds_insert (ix !!! j) (fun _ => y !!! j)). reflexivity.
Qed.

(** Filling an array with one value. *)
Lemma fill_entry (n j : nat) (v : R) :
  (j < n)%nat ->
  for_loop n (fun k a => <[k := v]> a) (replicate n 0) !!! j = v.
Proof.
  intros Hj.
  rewrite (for_loop_ext n _
    (fun k a => from_option (fun w => <[k := w]> a) a (Some v))) by reflexivity.
  apply list_lookup_total_correct.
  rewrite (for_loop_own_entry n (fun _ => Some v)).
  rewrite bool_decide_eq_true_2 by assumption.
  apply list_lookup_insert_eq. rewrite length_replicate. assumption.
Qed.

(** A loop with stride [d] over interleaved data that writes [v] to entry
    [i / d] when iteration [i] starts a record and the record passes the
    test [c]. *)
Lemma for_loop_stride_write (d : nat) (c : nat -> bool) (v : R) (m : nat)
    (a : list R) (n : nat) :
  (0 < d)%nat ->
  for_loop m (fun i a =>
    if bool_decide ((i mod d)%nat = 0%nat) && c i then <[(i / d)%nat := v]> a
    else a) a !! n
  = if bool_decide (d * n < m)%nat && c (d * n)%nat then <[n := v]> a !! n
    else a !! n.
Proof.
  intros Hd. induction m as [|m IH]; cbn [for_loop].
  - rewrite bool_decide_eq_false_2 by lia. reflexivity.
  - set (prev := for_loop m _ a) in *.
    assert (Hlen : length prev = length a).
    { subst prev. clear IH. induction m as [|m IHm]; cbn [for_loop]; [reflexivity|].
      destruct (_ && _); [rewrite length_insert|]; exact IHm. }
    destruct (decide (m = d * n)%nat) as [->|Hne].
    + rewrite (bool_decide_eq_true_2 ((d * n) mod d = 0)%nat)
        by (rewrite Nat.mul_comm; apply Nat.Div0.mod_mul).
      rewrite (bool_decide_eq_true_2 (d * n < S (d * n))%nat) by lia.
      cbn [andb]. rewrite (Nat.mul_comm d n) at 2. rewrite Nat.div_mul by lia.
      destruct (c (d * n)%nat).
      * destruct (decide (n < length a)%nat).
        -- rewrite !list_lookup_insert_eq by congruence. reflexivity.
        -- rewrite !(proj2 (lookup_ge_None _ _)); try reflexivity;
             rewrite length_insert; lia.
      * rewrite IH. rewrite bool_decide_eq_false_2 by lia. reflexivity.
    + assert (Hsame :
        (if bool_decide ((m mod d)%nat = 0%nat) && c m
         then <[(m / d)%nat := v]> prev else prev) !! n = prev !! n).
      { destruct (bool_decide _ && c m) eqn:E; [|reflexivity].
        apply andb_prop in E as [E _]. apply bool_decide_eq_true_1 in E.
        apply list_lookup_insert_ne. intros <-.
        apply Hne. pose proof (Nat.div_mod_eq m d). lia. }
      rewrite Hsame, IH.
      destruct (decide (d * n < m)%nat).
      * rewrite !(bool_decide_eq_true_2 (d * n < _)%nat) by lia. reflexivity.
      * rewrite !(bool_decide_eq_false_2 (d * n < _)%nat) by lia. reflexivity.
Qed.

Lemma for_loop_stride_write_length (d : nat) (c : nat -> bool) (v : R) (m : nat)
    (a : list R) :
  length (for_loop m (fun i a =>
    if bool_decide ((i mod d)%nat = 0%nat) && c i then <[(i / d)%nat := v]> a
    else a) a) = length a.
Proof.
  induction m as [|m IHm]; cbn [for_loop]; [reflexivity|].
  destruct (_ && _); [rewrite length_insert|]; exact IHm.
Qed.

(** The gather of an element reads its nodes from the connectivity. *)
Lemma element_dofs_entry (len nen : nat) (necon : list nat) (i j : nat) :
  (j < nen)%nat -> (j < len)%nat ->
  element_dofs len nen necon i !!! j = necon !!! (i * nen + j)%nat.
Proof.
  intros Hj Hlen. unfold element_dofs.
  rewrite (for_loop_ext nen _
    (fun l a => from_option (fun w => <[l := w]> a) a
                  (Some (necon !!! (i * nen + l)%nat)))) by reflexivity.
  apply list_lookup_total_correct.
  rewrite (for_loop_own_entry nen (fun l => Some (necon !!! (i * nen + l)%nat))).
  rewrite bool_decide_eq_true_2 by assumption.
  apply list_lookup_insert_eq. rewrite length_replicate. assumption.
Qed.

(** ** Response and sensitivity evaluator *)

Section EvaluatorProperties.
Context `{BuildConfig} `{Petsc}.

Lemma sensitivity_loop_spec (s : LinearHeatConduction) (nel nen : nat)
      (necon : list nat) (up xp p0 p1 p2 : list PetscScalar)
      (Emin Emax penal fx0 : PetscScalar) (df0 : list PetscScalar) :
    sensitivity_loop s nel nen necon up xp p0 p1 p2 Emin Emax penal (fx0, df0)
    = (fx0 + sum_n nel (objective_term (KE s) up nen necon xp p0 p1 p2 Emin Emax penal),
       for_loop nel (fun i df =>
         from_option (fun v => <[i := v]> df) df
           (sensitivity_written (KE s) up nen necon xp p0 p1 p2 Emin Emax penal i)) df0).
Proof.
    unfold sensitivity_loop.
    rewrite <- for_loop_accumulate, <- for_loop_pair.
    apply for_loop_ext. intros i [fx df] _.
    unfold objective_term, sensitivity_written, designable.
    destruct (decide (p0 !!! i = 0)) as [Z0|Z0];
    destruct (decide (p1 !!! i = 0)) as [Z1|Z1];
    destruct (decide (p2 !!! i = 0)) as [Z2|Z2];
    repeat first
      [ rewrite (bool_decide_eq_true_2 (p0 !!! i = 0)) by assumption
      | rewrite (bool_decide_eq_true_2 (p1 !!! i = 0)) by assumption
      | rewrite (bool_decide_eq_true_2 (p2 !!! i = 0)) by assumption
      | rewrite (bool_decide_eq_false_2 (p0 !!! i = 0)) by assumption
      | rewrite (bool_decide_eq_false_2 (p1 !!! i = 0)) by assumption
      | rewrite (bool_decide_eq_false_2 (p2 !!! i = 0)) by assumption ];
    cbn [andb].
    1: { rewrite bool_decide_eq_true_2 by auto.
         rewrite for_loop_accumulate2, R_zero_literal. unfold quadratic_form.
         cbn [from_option]. rewrite Rplus_0_l.
         replace (-1.0) with (-1) by lra.
         apply (f_equal (fun v => (_, <[i := v]> df))). ring. }
    all: rewrite (bool_decide_eq_false_2 (_ /\ _ /\ _)) by tauto.
    all: destruct (decide (p0 !!! i = 1)) as [E0|E0];
      [ rewrite !(bool_decide_eq_true_2 (p0 !!! i = 1)) by assumption;
        cbn [from_option]; f_equal; lra
      | rewrite !(bool_decide_eq_false_2 (p0 !!! i = 1)) by assumption ].
    all: destruct (decide (p1 !!! i = 1)) as [E1|E1];
         destruct (decide (p2 !!! i = 1)) as [E2|E2];
      repeat first
        [ rewrite (bool_decide_eq_true_2 (p1 !!! i = 1)) by assumption
        | rewrite (bool_decide_eq_true_2 (p2 !!! i = 1)) by assumption
        | rewrite (bool_decide_eq_false_2 (p1 !!! i = 1)) by assumption
        | rewrite (bool_decide_eq_false_2 (p2 !!! i = 1)) by assumption
        | rewrite (bool_decide_eq_true_2 (_ \/ _)) by tauto
        | rewrite (bool_decide_eq_false_2 (_ \/ _)) by tauto ];
      cbn [orb from_option]; f_equal; lra.
Qed.

  (** The outputs of an evaluation are the results of its two parts, run on
      the state [SolveState] leaves. *)
Lemma ComputeObjectiveConstraintsSensitivities_parts
      (s : LinearHeatConduction) (opts : PetscOptions) (fs : FileSystem)
      (dfdx dgdx xPhys : Vec) (Emin Emax penal volfrac : PetscScalar)
      (xPassive0 xPassive1 xPassive2 : Vec) (nel nen : nat) (necon : list nat) :
    let r := ComputeObjectiveConstraintsSensitivities s opts fs dfdx dgdx xPhys
               Emin Emax penal volfrac xPassive0 xPassive1 xPassive2 in
    let s' := SolveState s opts fs xPhys Emin Emax penal in
    DMDAGetElements (da_nodal s') = (nel, nen, necon) ->
    r_state r = s'
    /\ (r_fx r, r_dfdx r)
       = sensitivity_loop s' nel nen necon (U s') xPhys
           xPassive0 xPassive1 xPassive2 Emin Emax penal (0.0, dfdx)
    /\ (r_gx r, r_dgdx r)
       = volume_constraint dgdx xPhys volfrac xPassive0 xPassive1 xPassive2.
Proof.
    intros r s' Hmesh. subst r. unfold ComputeObjectiveConstraintsSensitivities.
    fold s'. rewrite Hmesh.
    destruct (sensitivity_loop _ _ _ _ _ _ _ _ _ _ _ _ _) as [fx df].
    destruct (volume_constraint _ _ _ _ _ _) as [gx dg].
    cbn. auto.
Qed.

Lemma ComputeObjectiveConstraintsSensitivities_state
      (s : LinearHeatConduction) (opts : PetscOptions) (fs : FileSystem)
      (dfdx dgdx xPhys : Vec) (Emin Emax penal volfrac : PetscScalar)
      (xPassive0 xPassive1 xPassive2 : Vec) :
    r_state (ComputeObjectiveConstraintsSensitivities s opts fs dfdx dgdx xPhys
               Emin Emax penal volfrac xPassive0 xPassive1 xPassive2)
    = SolveState s opts fs xPhys Emin Emax penal.
Proof.
    destruct (DMDAGetElements (da_nodal (SolveState s opts fs xPhys Emin Emax penal)))
      as [[nel nen] necon] eqn:Hmesh.
    apply (ComputeObjectiveConstraintsSensitivities_parts _ _ _ dfdx dgdx _ _ _ _
             volfrac xPassive0 xPassive1 xPassive2 _ _ _ Hmesh).
Qed.

  (** The entry of [dfdx] of an element after an evaluation: the value its
      branch writes, or the entry the caller passed in. *)
Lemma dfdx_entry
      (s : LinearHeatConduction) (opts : PetscOptions) (fs : FileSystem)
      (dfdx dgdx xPhys : Vec) (Emin Emax penal volfrac : PetscScalar)
      (xPassive0 xPassive1 xPassive2 : Vec) (nel nen : nat) (necon : list nat)
      (i : nat) :
    let r := ComputeObjectiveConstraintsSensitivities s opts fs dfdx dgdx xPhys
               Emin Emax penal volfrac xPassive0 xPassive1 xPassive2 in
    DMDAGetElements (da_nodal (r_state r)) = (nel, nen, necon) ->
    (i < nel)%nat -> (i < length dfdx)%nat ->
    r_dfdx r !! i
    = match sensitivity_written (KE (r_state r)) (U (r_state r)) nen necon xPhys
              xPassive0 xPassive1 xPassive2 Emin Emax penal i with
      | Some v => Some v
      | None => dfdx !! i
      end.
Proof.
    intros r Hmesh Hi Hlen. subst r.
    rewrite ComputeObjectiveConstraintsSensitivities_state in *.
    destruct (ComputeObjectiveConstraintsSensitivities_parts s opts fs dfdx dgdx
                xPhys Emin Emax penal volfrac xPassive0 xPassive1 xPassive2
                nel nen necon Hmesh) as (_ & Hloop & _).
    rewrite sensitivity_loop_spec in Hloop.
    apply (f_equal snd) in Hloop. cbn [snd] in Hloop. rewrite Hloop.
    rewrite for_loop_own_entry, bool_decide_eq_true_2 by assumption.
    destruct (sensitivity_written _ _ _ _ _ _ _ _ _ _ _ _); [|reflexivity].
    apply list_lookup_insert_eq. assumption.
Qed.

  (** The quadratic form over the gathered temperatures is the one over the
      temperatures of the element's nodes. *)
Lemma quadratic_form_nodes (KE_ up : list PetscScalar) (nen : nat)
      (necon : list nat) (i : nat) :
    nedof = nen ->
    quadratic_form KE_ up (element_dofs nedof nen necon i)
    = sum_n nedof (fun k =>
        sum_n nedof (fun h =>
          up !!! (necon !!! (i * nen + k)%nat) * KE_ !!! (k * nedof + h)%nat
          * up !!! (necon !!! (i * nen + h)%nat))).
Proof.
    intros Hdof. unfold quadratic_form.
    apply sum_n_ext. intros k Hk. apply sum_n_ext. intros h Hh.
    rewrite !element_dofs_entry by lia. reflexivity.
Qed.

  (** C3. For an element [i] whose three passive flags are all 0, with [uKu]
      the quadratic form [u^T KE u] over the temperatures of its nodes,
      [u[k] = U[necon[i nen + k]]], the evaluation adds
      [(Emin + xPhys[i]^penal (Emax - Emin)) uKu] to the objective and sets
      [dfdx[i] = - penal xPhys[i]^(penal-1) (Emax - Emin) uKu]; an element
      with a passive flag that is not 0 adds nothing to the objective. The
      element has as many degrees of freedom as nodes ([nedof = nen]). *)
Theorem objective_and_sensitivity_of_free_elements
      (s : LinearHeatConduction) (opts : PetscOptions) (fs : FileSystem)
      (dfdx dgdx xPhys : Vec) (Emin Emax penal volfrac : PetscScalar)
      (xPassive0 xPassive1 xPassive2 : Vec) (nel nen : nat) (necon : list nat) :
    let r := ComputeObjectiveConstraintsSensitivities s opts fs dfdx dgdx xPhys
               Emin Emax penal volfrac xPassive0 xPassive1 xPassive2 in
    let u i k := U (r_state r) !!! (necon !!! (i * nen + k)%nat) in
    let uKu i :=
      sum_n nedof (fun k =>
        sum_n nedof (fun h =>
          u i k * KE (r_state r) !!! (k * nedof + h)%nat * u i h)) in
    DMDAGetElements (da_nodal (r_state r)) = (nel, nen, necon) ->
    nedof = nen ->
    r_fx r
    = sum_n nel (fun i =>
        if bool_decide (designable xPassive0 xPassive1 xPassive2 i)
        then (Emin + PetscPowScalar (xPhys !!! i) penal * (Emax - Emin)) * uKu i
        else 0)
    /\ (forall i, (i < nel)%nat -> (i < length dfdx)%nat ->
          designable xPassive0 xPassive1 xPassive2 i ->
          r_dfdx r !! i
          = Some (- penal * PetscPowScalar (xPhys !!! i) (penal - 1)
                  * (Emax - Emin) * uKu i)).
Proof.
    intros r u uKu Hmesh Hdof. subst r u uKu. cbv beta. split.
    - rewrite ComputeObjectiveConstraintsSensitivities_state in *.
      destruct (ComputeObjectiveConstraintsSensitivities_parts s opts fs dfdx dgdx
                  xPhys Emin Emax penal volfrac xPassive0 xPassive1 xPassive2
                  nel nen necon Hmesh) as (_ & Hloop & _).
      rewrite sensitivity_loop_spec in Hloop.
      apply (f_equal fst) in Hloop. cbn [fst] in Hloop. rewrite Hloop.
      rewrite R_zero_literal, Rplus_0_l.
      apply sum_n_ext. intros i _. unfold objective_term.
      rewrite quadratic_form_nodes by assumption. reflexivity.
    - intros i Hi Hlen Hfree.
      rewrite (dfdx_entry s opts fs dfdx dgdx xPhys Emin Emax penal volfrac
                 xPassive0 xPassive1 xPassive2 nel nen necon i Hmesh Hi Hlen).
      unfold sensitivity_written.
      rewrite bool_decide_eq_true_2 by assumption.
      rewrite quadratic_form_nodes by assumption. reflexivity.
Qed.

  (** C4. An element whose solid flag is 1 gets [dfdx = +1e9], and an
      element whose fixed or loaded flag is 1 gets [dfdx = -1e9], whatever
      the density and the temperature field are. The passive masks mark an
      element as solid or as fixed or loaded, not as both: the second part is
      for an element whose solid flag is not 1. *)
Theorem passive_sensitivity_sentinels
      (s : LinearHeatConduction) (opts : PetscOptions) (fs : FileSystem)
      (dfdx dgdx xPhys : Vec) (Emin Emax penal volfrac : PetscScalar)
      (xPassive0 xPassive1 xPassive2 : Vec) (nel nen : nat) (necon : list nat)
      (i : nat) :
    let r := ComputeObjectiveConstraintsSensitivities s opts fs dfdx dgdx xPhys
               Emin Emax penal volfrac xPassive0 xPassive1 xPassive2 in
    DMDAGetElements (da_nodal (r_state r)) = (nel, nen, necon) ->
    (i < nel)%nat -> (i < length dfdx)%nat ->
    (xPassive0 !!! i = 1 -> r_dfdx r !! i = Some 1.0E9)
    /\ (xPassive0 !!! i <> 1 -> xPassive1 !!! i = 1 \/ xPassive2 !!! i = 1 ->
        r_dfdx r !! i = Some (-1.0E9)).
Proof.
    intros r Hmesh Hi Hlen. subst r.
    rewrite (dfdx_entry s opts fs dfdx dgdx xPhys Emin Emax penal volfrac
               xPassive0 xPassive1 xPassive2 nel nen necon i Hmesh Hi Hlen).
    unfold sensitivity_written, designable. split.
    - intros Hsolid.
      rewrite bool_decide_eq_false_2 by (intros (E & _ & _); lra).
      rewrite bool_decide_eq_true_2 by assumption. reflexivity.
    - intros Hnot Hflag.
      rewrite bool_decide_eq_false_2 by (intros (_ & E1 & E2); destruct Hflag; lra).
      rewrite bool_decide_eq_false_2 by assumption.
      rewrite bool_decide_eq_true_2 by assumption. reflexivity.
Qed.

  (** C10. The passive branches exclude one another and "solid" comes first:
      an element whose solid flag is 1 gets [dfdx = +1e9] whatever its fixed
      and loaded flags are, also when one of them is 1; an element whose
      flags are not all 0 and none of whose flags is exactly 1 keeps the
      entry of [dfdx] it had before the loop. *)
Theorem passive_branches_exclusive
      (s : LinearHeatConduction) (opts : PetscOptions) (fs : FileSystem)
      (dfdx dgdx xPhys : Vec) (Emin Emax penal volfrac : PetscScalar)
      (xPassive0 xPassive1 xPassive2 : Vec) (nel nen : nat) (necon : list nat)
      (i : nat) :
    let r := ComputeObjectiveConstraintsSensitivities s opts fs dfdx dgdx xPhys
               Emin Emax penal volfrac xPassive0 xPassive1 xPassive2 in
    DMDAGetElements (da_nodal (r_state r)) = (nel, nen, necon) ->
    (i < nel)%nat -> (i < length dfdx)%nat ->
    (xPassive0 !!! i = 1 ->
       r_dfdx r !! i = Some 1.0E9
       /\ (xPassive1 !!! i = 1 \/ xPassive2 !!! i = 1 ->
           r_dfdx r !! i <> Some (-1.0E9)))
    /\ (~ designable xPassive0 xPassive1 xPassive2 i ->
        xPassive0 !!! i <> 1 -> xPassive1 !!! i <> 1 -> xPassive2 !!! i <> 1 ->
        r_dfdx r !! i = dfdx !! i).
Proof.
    intros r Hmesh Hi Hlen. subst r.
    rewrite (dfdx_entry s opts fs dfdx dgdx xPhys Emin Emax penal volfrac
               xPassive0 xPassive1 xPassive2 nel nen necon i Hmesh Hi Hlen).
    unfold sensitivity_written. split.
    - intros Hsolid.
      rewrite bool_decide_eq_false_2 by (intros (E & _ & _); lra).
      rewrite bool_decide_eq_true_2 by assumption.
      split; [reflexivity|]. intros _ E. injection E as E. lra.
    - intros Hnot H0' H1' H2'.
      rewrite bool_decide_eq_false_2 by assumption.
      rewrite bool_decide_eq_false_2 by assumption.
      rewrite bool_decide_eq_false_2 by tauto. reflexivity.
Qed.
End EvaluatorProperties.

(** *** The evaluator on the 3 x 3 grid *)

(** The connectivity of the 2 x 2 elements of the 3 x 3 grid. *)
Lemma heat_3x3_elements (xPhys : Vec) (Emin Emax penal : PetscScalar) :
  @DMDAGetElements Build2D
    (da_nodal (@SolveState Build2D SerialPetsc heat_3x3 no_options ∅
                 xPhys Emin Emax penal))
  = (4, 4, [0; 1; 4; 3; 1; 2; 5; 4; 3; 4; 7; 6; 4; 5; 8; 7])%nat.
Proof. reflexivity. Qed.

Lemma heat_3x3_state (dfdx dgdx xPhys : Vec) (Emin Emax penal volfrac : PetscScalar)
    (xPassive0 xPassive1 xPassive2 : Vec) :
  @DMDAGetElements Build2D
    (da_nodal (r_state (@ComputeObjectiveConstraintsSensitivities Build2D SerialPetsc
       heat_3x3 no_options ∅ dfdx dgdx xPhys Emin Emax penal volfrac
       xPassive0 xPassive1 xPassive2)))
  = (4, 4, [0; 1; 4; 3; 1; 2; 5; 4; 3; 4; 7; 6; 4; 5; 8; 7])%nat.
Proof.
  rewrite (@ComputeObjectiveConstraintsSensitivities_state Build2D SerialPetsc).
  apply heat_3x3_elements.
Qed.

Lemma objective_and_sensitivity_of_free_elements_witness :
  let necon := [0; 1; 4; 3; 1; 2; 5; 4; 3; 4; 7; 6; 4; 5; 8; 7]%nat in
  let r := @ComputeObjectiveConstraintsSensitivities Build2D SerialPetsc
             heat_3x3 no_options ∅ (replicate 4 0) (replicate 4 0)
             (replicate 4 0.5) 1.0e-9 1 3 0.5
             [0; 1; 0; 0] [0; 0; 0; 0] [0; 0; 0; 0] in
  let u k := U (r_state r) !!! (necon !!! (0 * 4 + k)%nat) in
  let uKu :=
    sum_n 4 (fun k =>
      sum_n 4 (fun h => u k * KE (r_state r) !!! (k * 4 + h)%nat * u h)) in
  (@nedof Build2D = 4%nat /\ (0 < 4)%nat
   /\ designable [0; 1; 0; 0] [0; 0; 0; 0] [0; 0; 0; 0] 0) /\
  r_dfdx r !! 0%nat
  = Some (- 3 * @PetscPowScalar SerialPetsc (replicate 4 0.5 !!! 0%nat) (3 - 1)
          * (1 - 1.0e-9) * uKu).
Proof.
  intros necon r u uKu.
  assert (Hfree : designable [0; 1; 0; 0] [0; 0; 0; 0] [0; 0; 0; 0] 0)
    by (repeat split; reflexivity).
  split; [split; [reflexivity|split; [lia|exact Hfree]]|].
  refine (proj2 (@objective_and_sensitivity_of_free_elements Build2D SerialPetsc
            heat_3x3 no_options ∅ (replicate 4 0) (replicate 4 0)
            (replicate 4 0.5) 1.0e-9 1 3 0.5
            [0; 1; 0; 0] [0; 0; 0; 0] [0; 0; 0; 0] 4%nat 4%nat necon
            (heat_3x3_state _ _ _ _ _ _ _ _ _ _) eq_refl) 0%nat _ _ Hfree).
  - lia.
  - cbn. lia.
Defined.

Lemma passive_sensitivity_sentinels_witness :
  let r := @ComputeObjectiveConstraintsSensitivities Build2D SerialPetsc
             heat_3x3 no_options ∅ (replicate 4 0) (replicate 4 0)
             (replicate 4 0.5) 1.0e-9 1 3 0.5
             [1; 0; 0; 0] [0; 1; 0; 0] [0; 0; 1; 0] in
  ((0 < 4)%nat /\ [1; 0; 0; 0] !!! 0%nat = 1
   /\ r_dfdx r !! 0%nat = Some 1.0E9)
  /\ ((1 < 4)%nat /\ [1; 0; 0; 0] !!! 1%nat <> 1
      /\ ([0; 1; 0; 0] !!! 1%nat = 1 \/ [0; 0; 1; 0] !!! 1%nat = 1)
      /\ r_dfdx r !! 1%nat = Some (-1.0E9))
  /\ ((2 < 4)%nat /\ [1; 0; 0; 0] !!! 2%nat <> 1
      /\ ([0; 1; 0; 0] !!! 2%nat = 1 \/ [0; 0; 1; 0] !!! 2%nat = 1)
      /\ r_dfdx r !! 2%nat = Some (-1.0E9)).
Proof.
  intros r.
  assert (Hlen : forall i, (i < 4)%nat -> (i < length (replicate 4 0))%nat)
    by (intros i Hi; rewrite length_replicate; exact Hi).
  assert (H0 : (0 < 4)%nat) by lia.
  assert (H1 : (1 < 4)%nat) by lia.
  assert (H2 : (2 < 4)%nat) by lia.
  assert (S0 : [1; 0; 0; 0] !!! 0%nat = 1) by reflexivity.
  assert (S1 : [1; 0; 0; 0] !!! 1%nat <> 1) by (cbn; lra).
  assert (S2 : [1; 0; 0; 0] !!! 2%nat <> 1) by (cbn; lra).
  assert (F1 : [0; 1; 0; 0] !!! 1%nat = 1 \/ [0; 0; 1; 0] !!! 1%nat = 1)
    by (left; reflexivity).
  assert (F2 : [0; 1; 0; 0] !!! 2%nat = 1 \/ [0; 0; 1; 0] !!! 2%nat = 1)
    by (right; reflexivity).
  split; [|split].
  - split; [exact H0|]. split; [exact S0|].
    exact (proj1 (@passive_sensitivity_sentinels Build2D SerialPetsc
             heat_3x3 no_options ∅ (replicate 4 0) (replicate 4 0)
             (replicate 4 0.5) 1.0e-9 1 3 0.5
             [1; 0; 0; 0] [0; 1; 0; 0] [0; 0; 1; 0] 4%nat 4%nat _ 0%nat
             (heat_3x3_state _ _ _ _ _ _ _ _ _ _) H0 (Hlen _ H0)) S0).
  - split; [exact H1|]. split; [exact S1|]. split; [exact F1|].
    exact (proj2 (@passive_sensitivity_sentinels Build2D SerialPetsc
             heat_3x3 no_options ∅ (replicate 4 0) (replicate 4 0)
             (replicate 4 0.5) 1.0e-9 1 3 0.5
             [1; 0; 0; 0] [0; 1; 0; 0] [0; 0; 1; 0] 4%nat 4%nat _ 1%nat
             (heat_3x3_state _ _ _ _ _ _ _ _ _ _) H1 (Hlen _ H1)) S1 F1).
  - split; [exact H2|]. split; [exact S2|]. split; [exact F2|].
    exact (proj2 (@passive_sensitivity_sentinels Build2D SerialPetsc
             heat_3x3 no_options ∅ (replicate 4 0) (replicate 4 0)
             (replicate 4 0.5) 1.0e-9 1 3 0.5
             [1; 0; 0; 0] [0; 1; 0; 0] [0; 0; 1; 0] 4%nat 4%nat _ 2%nat
             (heat_3x3_state _ _ _ _ _ _ _ _ _ _) H2 (Hlen _ H2)) S2 F2).
Defined.

Lemma passive_branches_exclusive_witness :
  let r := @ComputeObjectiveConstraintsSensitivities Build2D SerialPetsc
             heat_3x3 no_options ∅ [7; 7; 7; 7] (replicate 4 0)
             (replicate 4 0.5) 1.0e-9 1 3 0.5
             [1; 2; 0; 0] [1; 0; 0; 0] [0; 0; 0; 0] in
  ((0 < 4)%nat /\ [1; 2; 0; 0] !!! 0%nat = 1 /\ r_dfdx r !! 0%nat = Some 1.0E9)
  /\ ((1 < 4)%nat /\ ~ designable [1; 2; 0; 0] [1; 0; 0; 0] [0; 0; 0; 0] 1
      /\ r_dfdx r !! 1%nat = Some 7).
Proof.
  intros r. split.
  - split; [lia|]. split; [reflexivity|].
    refine (proj1 (proj1 (@passive_branches_exclusive Build2D SerialPetsc
             heat_3x3 no_options ∅ [7; 7; 7; 7] (replicate 4 0)
             (replicate 4 0.5) 1.0e-9 1 3 0.5
             [1; 2; 0; 0] [1; 0; 0; 0] [0; 0; 0; 0] 4%nat 4%nat _ 0%nat
             (heat_3x3_state _ _ _ _ _ _ _ _ _ _) _ _) _)).
    + lia.
    + cbn; lia.
    + reflexivity.
  - assert (Hnot : ~ designable [1; 2; 0; 0] [1; 0; 0; 0] [0; 0; 0; 0] 1)
      by (unfold designable; cbn; intros (E & _ & _); lra).
    split; [lia|]. split; [exact Hnot|].
    refine (proj2 (@passive_branches_exclusive Build2D SerialPetsc
             heat_3x3 no_options ∅ [7; 7; 7; 7] (replicate 4 0)
             (replicate 4 0.5) 1.0e-9 1 3 0.5
             [1; 2; 0; 0] [1; 0; 0; 0] [0; 0; 0; 0] 4%nat 4%nat _ 1%nat
             (heat_3x3_state _ _ _ _ _ _ _ _ _ _) _ _) Hnot _ _ _).
    + lia.
    + cbn; lia.
    + cbn; lra.
    + cbn; lra.
    + cbn; lra.
Defined.

(** *** The volume constraint *)

Section VolumeProperties.
Context `{BuildConfig} `{Petsc}.

Lemma ComputeObjectiveConstraintsSensitivities_volume
      (s : LinearHeatConduction) (opts : PetscOptions) (fs : FileSystem)
      (dfdx dgdx xPhys : Vec) (Emin Emax penal volfrac : PetscScalar)
      (xPassive0 xPassive1 xPassive2 : Vec) :
    let r := ComputeObjectiveConstraintsSensitivities s opts fs dfdx dgdx xPhys
               Emin Emax penal volfrac xPassive0 xPassive1 xPassive2 in
    (r_gx r, r_dgdx r)
    = volume_constraint dgdx xPhys volfrac xPassive0 xPassive1 xPassive2.
Proof.
    intros r. subst r.
    destruct (DMDAGetElements (da_nodal (SolveState s opts fs xPhys Emin Emax penal)))
      as [[nel nen] necon] eqn:Hmesh.
    apply (ComputeObjectiveConstraintsSensitivities_parts _ _ _ dfdx dgdx _ _ _ _
             volfrac xPassive0 xPassive1 xPassive2 _ _ _ Hmesh).
Qed.

  (** What the mask arithmetic computes, whatever the flags hold. *)
Lemma volume_constraint_masks (dgdx xPhys : Vec) (volfrac : PetscScalar)
      (p0 p1 p2 : Vec) :
    length p0 = length xPhys -> length p1 = length xPhys ->
    length p2 = length xPhys -> length dgdx = length xPhys ->
    let mask i := (1 - p0 !!! i) * (1 - p1 !!! i) * (1 - p2 !!! i) in
    let count := INR (length xPhys) - VecSum p0 - VecSum p1 - VecSum p2 in
    let '(gx, dg) := volume_constraint dgdx xPhys volfrac p0 p1 p2 in
    gx = sum_n (length xPhys) (fun i => xPhys !!! i * mask i) / count - volfrac
    /\ length dg = length xPhys
    /\ forall i, (i < length xPhys)%nat -> dg !!! i = 1 / count * mask i.
Proof.
    intros L0 L1 L2 Lg mask count.
    unfold volume_constraint, VecCopy, VecGetSize.
    set (m0 := VecScale (VecShift p0 (-1)) (-1)).
    set (m1 := VecScale (VecShift p1 (-1)) (-1)).
    set (m2 := VecScale (VecShift p2 (-1)) (-1)).
    assert (Lm0 : length m0 = length xPhys)
      by (subst m0; rewrite passive_mask_length; assumption).
    assert (Lm1 : length m1 = length xPhys)
      by (subst m1; rewrite passive_mask_length; assumption).
    assert (Lm2 : length m2 = length xPhys)
      by (subst m2; rewrite passive_mask_length; assumption).
    set (t0 := VecPointwiseMult xPhys m0).
    set (t1 := VecPointwiseMult t0 m1).
    set (t2 := VecPointwiseMult t1 m2).
    assert (Lt0 : length t0 = length xPhys)
      by (subst t0; apply VecPointwiseMult_length; assumption).
    assert (Lt1 : length t1 = length xPhys)
      by (subst t1; rewrite VecPointwiseMult_length; congruence).
    assert (Lt2 : length t2 = length xPhys)
      by (subst t2; rewrite VecPointwiseMult_length; congruence).
    rewrite Lt2. fold count.
    set (g0 := VecSet dgdx (1.0 / count)).
    assert (Lg0 : length g0 = length xPhys)
      by (subst g0; unfold VecSet; rewrite length_replicate; assumption).
    set (g1 := VecPointwiseMult g0 m0).
    set (g2 := VecPointwiseMult g1 m1).
    assert (Lg1 : length g1 = length xPhys)
      by (subst g1; rewrite VecPointwiseMult_length; congruence).
    assert (Lg2 : length g2 = length xPhys)
      by (subst g2; rewrite VecPointwiseMult_length; congruence).
    split; [|split].
    - rewrite VecSum_sum_n, Lt2. f_equal. f_equal.
      apply sum_n_ext. intros i Hi. subst t2 t1 t0 m0 m1 m2 mask. cbv beta.
      rewrite !VecPointwiseMult_entry by congruence.
      rewrite !passive_mask_entry by congruence. ring.
    - rewrite VecPointwiseMult_length; congruence.
    - intros i Hi. subst g2 g1 g0 m0 m1 m2 mask. cbv beta.
      rewrite !VecPointwiseMult_entry by congruence.
      rewrite !passive_mask_entry by congruence.
      unfold VecSet. rewrite lookup_total_replicate_2 by congruence.
      replace 1.0 with 1 by lra. ring.
Qed.

  (** With flags that are 0 or 1 the product of the three masks is the
      indicator of the free design domain. *)
Lemma boolean_mask (p0 p1 p2 : Vec) (i : nat) :
    boolean_flags p0 -> boolean_flags p1 -> boolean_flags p2 ->
    (i < length p0)%nat -> (i < length p1)%nat -> (i < length p2)%nat ->
    (1 - p0 !!! i) * (1 - p1 !!! i) * (1 - p2 !!! i)
    = if bool_decide (designable p0 p1 p2 i) then 1 else 0.
Proof.
    unfold boolean_flags. rewrite !Forall_lookup_total.
    intros B0 B1 B2 L0 L1 L2.
    specialize (B0 i L0). specialize (B1 i L1). specialize (B2 i L2).
    cbv beta in B0, B1, B2. unfold designable.
    destruct B0 as [E0|E0], B1 as [E1|E1], B2 as [E2|E2];
      case_bool_decide as Hd; rewrite E0, E1, E2; try ring;
      exfalso; first [ apply Hd; auto | destruct Hd as (? & ? & ?); lra ].
Qed.

  (** C5, as the code has it. When every passive flag is 0 or 1 and the
      divisor, the element count minus the sums of the three flag vectors, is
      not 0 (the code divides by it without a test), [gx] is the sum of the
      densities of the elements whose three flags are 0, divided by that
      count, minus [volfrac]; [dgdx] is 1 over that count at those elements
      and 0 at the others; and a density equal to [volfrac] everywhere on a
      domain without passive elements gives [gx = 0]. *)
Theorem volume_constraint_and_sensitivity
      (s : LinearHeatConduction) (opts : PetscOptions) (fs : FileSystem)
      (dfdx dgdx xPhys : Vec) (Emin Emax penal volfrac : PetscScalar)
      (xPassive0 xPassive1 xPassive2 : Vec) :
    let r := ComputeObjectiveConstraintsSensitivities s opts fs dfdx dgdx xPhys
               Emin Emax penal volfrac xPassive0 xPassive1 xPassive2 in
    let count := INR (length xPhys)
                 - VecSum xPassive0 - VecSum xPassive1 - VecSum xPassive2 in
    length xPassive0 = length xPhys -> length xPassive1 = length xPhys ->
    length xPassive2 = length xPhys -> length dgdx = length xPhys ->
    boolean_flags xPassive0 -> boolean_flags xPassive1 ->
    boolean_flags xPassive2 ->
    count <> 0 ->
    r_gx r
    = sum_n (length xPhys) (fun i =>
        if bool_decide (designable xPassive0 xPassive1 xPassive2 i)
        then xPhys !!! i else 0) / count - volfrac
    /\ (forall i, (i < length xPhys)%nat ->
          r_dgdx r !! i
          = Some (if bool_decide (designable xPassive0 xPassive1 xPassive2 i)
                  then 1 / count else 0))
    /\ (xPhys <> [] ->
        (forall i, (i < length xPhys)%nat ->
           designable xPassive0 xPassive1 xPassive2 i /\ xPhys !!! i = volfrac) ->
        r_gx r = 0).
Proof.
    intros r count L0 L1 L2 Lg B0 B1 B2 Hcount.
    pose proof (ComputeObjectiveConstraintsSensitivities_volume s opts fs dfdx
                  dgdx xPhys Emin Emax penal volfrac
                  xPassive0 xPassive1 xPassive2) as Hvol.
    cbv zeta in Hvol. fold r in Hvol.
    pose proof (volume_constraint_masks dgdx xPhys volfrac
                  xPassive0 xPassive1 xPassive2 L0 L1 L2 Lg) as Hmask.
    cbv zeta in Hmask. rewrite <- Hvol in Hmask. fold count in Hmask.
    destruct Hmask as (Hgx & Hlen & Hdg).
    assert (Hgx' : r_gx r
      = sum_n (length xPhys) (fun i =>
          if bool_decide (designable xPassive0 xPassive1 xPassive2 i)
          then xPhys !!! i else 0) / count - volfrac).
    { rewrite Hgx. f_equal. f_equal. apply sum_n_ext. intros i Hi.
      rewrite !Rmult_assoc, <- (Rmult_assoc (1 - _)).
      rewrite boolean_mask by (assumption || congruence).
      destruct (bool_decide _); ring. }
    split; [exact Hgx'|]. split.
    - intros i Hi. apply lookup_of_total; [congruence|].
      rewrite (Hdg i Hi).
      rewrite !Rmult_assoc, <- (Rmult_assoc (1 - _)).
      rewrite boolean_mask by (assumption || congruence).
      destruct (bool_decide _); lra.
    - intros Hne Hall. rewrite Hgx'.
      assert (Z0 : VecSum xPassive0 = 0).
      { apply VecSum_zero. rewrite Forall_lookup_total. intros i Hi.
        apply (Hall i). congruence. }
      assert (Z1 : VecSum xPassive1 = 0).
      { apply VecSum_zero. rewrite Forall_lookup_total. intros i Hi.
        apply (Hall i). congruence. }
      assert (Z2 : VecSum xPassive2 = 0).
      { apply VecSum_zero. rewrite Forall_lookup_total. intros i Hi.
        apply (Hall i). congruence. }
      rewrite (sum_n_ext _ _ (fun _ => volfrac)).
      2: { intros i Hi. destruct (Hall i Hi) as [Hd Hx].
           rewrite bool_decide_eq_true_2 by assumption. exact Hx. }
      rewrite sum_n_const. subst count. rewrite Z0, Z1, Z2.
      assert (Hpos : INR (length xPhys) <> 0).
      { apply not_0_INR. destruct xPhys; [congruence|discriminate]. }
      field. lra.
Qed.
End VolumeProperties.

Lemma volume_constraint_and_sensitivity_witness :
  let r := @ComputeObjectiveConstraintsSensitivities Build2D SerialPetsc
             heat_3x3 no_options ∅ (replicate 4 0) (replicate 4 0)
             [0.5; 0.5; 0.5; 0.5] 1.0e-9 1 3 0.5
             [0; 1; 0; 0] [0; 0; 0; 0] [0; 0; 0; 0] in
  let count := INR 4 - VecSum [0; 1; 0; 0] - VecSum [0; 0; 0; 0]
               - VecSum [0; 0; 0; 0] in
  (boolean_flags [0; 1; 0; 0] /\ boolean_flags [0; 0; 0; 0] /\ count <> 0)
  /\ r_gx r
     = sum_n 4 (fun i =>
         if bool_decide (designable [0; 1; 0; 0] [0; 0; 0; 0] [0; 0; 0; 0] i)
         then [0.5; 0.5; 0.5; 0.5] !!! i else 0) / count - 0.5
  /\ r_dgdx r !! 0%nat
     = Some (if bool_decide (designable [0; 1; 0; 0] [0; 0; 0; 0] [0; 0; 0; 0] 0)
             then 1 / count else 0)
  /\ r_dgdx r !! 1%nat
     = Some (if bool_decide (designable [0; 1; 0; 0] [0; 0; 0; 0] [0; 0; 0; 0] 1)
             then 1 / count else 0).
Proof.
  intros r count.
  assert (B1 : boolean_flags [0; 1; 0; 0])
    by (repeat constructor; lra).
  assert (B0 : boolean_flags [0; 0; 0; 0])
    by (repeat constructor; lra).
  assert (Hcount : count <> 0)
    by (subst count; unfold VecSum; cbn [foldr INR]; lra).
  split; [auto|].
  destruct (@volume_constraint_and_sensitivity Build2D SerialPetsc
              heat_3x3 no_options ∅ (replicate 4 0) (replicate 4 0)
              [0.5; 0.5; 0.5; 0.5] 1.0e-9 1 3 0.5
              [0; 1; 0; 0] [0; 0; 0; 0] [0; 0; 0; 0]
              eq_refl eq_refl eq_refl eq_refl B1 B0 B0 Hcount)
    as (Hgx & Hdg & _).
  split; [exact Hgx|].
  split; apply Hdg; cbn; lia.
Defined.

(** C5 as stated fails for a flag that is neither 0 nor 1: with
    [xPassive0[0] = 2] the entry [dgdx[0]] is [-1/2], not 0. *)
Lemma volume_constraint_and_sensitivity_counterexample :
  let r := @ComputeObjectiveConstraintsSensitivities Build2D SerialPetsc
             heat_3x3 no_options ∅ (replicate 4 0) (replicate 4 0)
             [0.5; 0.5; 0.5; 0.5] 1.0e-9 1 3 0.5
             [2; 0; 0; 0] [0; 0; 0; 0] [0; 0; 0; 0] in
  [2; 0; 0; 0] !!! 0%nat <> 0 /\
  r_dgdx r !! 0%nat = Some (- (1 / 2)) /\
  r_dgdx r !! 0%nat <> Some 0.
Proof.
  intros r.
  assert (Hcode : r_dgdx r !! 0%nat = Some (- (1 / 2))).
  { pose proof (@ComputeObjectiveConstraintsSensitivities_volume Build2D SerialPetsc
                  heat_3x3 no_options ∅ (replicate 4 0) (replicate 4 0)
                  [0.5; 0.5; 0.5; 0.5] 1.0e-9 1 3 0.5
                  [2; 0; 0; 0] [0; 0; 0; 0] [0; 0; 0; 0]) as Hvol.
    cbv zeta in Hvol. fold r in Hvol.
    pose proof (volume_constraint_masks (replicate 4 0) [0.5; 0.5; 0.5; 0.5] 0.5
                  [2; 0; 0; 0] [0; 0; 0; 0] [0; 0; 0; 0]
                  eq_refl eq_refl eq_refl eq_refl) as Hmask.
    cbv zeta in Hmask. rewrite <- Hvol in Hmask.
    destruct Hmask as (_ & Hlen & Hdg).
    apply lookup_of_total; [rewrite Hlen; cbn; lia|].
    rewrite (Hdg 0%nat) by (cbn; lia).
    cbn. field. }
  split; [cbn; lra|]. split; [exact Hcode|].
  rewrite Hcode. intros E. injection E as E. lra.
Qed.

(** ** Matrix assembler *)

Lemma MatSetValuesLocal_ADD_entry (A : Mat) (m : nat) (idxm : list nat)
    (n : nat) (idxn : list nat) (v : list R) (r c : nat) :
  MatSetValuesLocal_ADD A m idxm n idxn v r c
  = A r c
    + sum_n m (fun k => sum_n n (fun h =>
        if bool_decide (idxm !!! k = r /\ idxn !!! h = c)
        then v !!! (k * n + h)%nat else 0)).
Proof.
  unfold MatSetValuesLocal_ADD.
  assert (Hrow : forall k B j,
    for_loop j (fun h B =>
      MatAddEntry B (idxm !!! k) (idxn !!! h) (v !!! (k * n + h)%nat)) B r c
    = B r c
      + sum_n j (fun h =>
          if bool_decide (idxm !!! k = r /\ idxn !!! h = c)
          then v !!! (k * n + h)%nat else 0)).
  { intros k B j. induction j as [|j IH]; cbn [for_loop sum_n]; [lra|].
    unfold MatAddEntry at 1. rewrite IH.
    destruct (decide (r = idxm !!! k /\ c = idxn !!! j)) as [[-> ->]|Hne].
    - rewrite !bool_decide_eq_true_2 by auto. lra.
    - rewrite !bool_decide_eq_false_2 by (intros [? ?]; apply Hne; auto). lra. }
  induction m as [|m IH]; cbn [for_loop sum_n]; [lra|].
  rewrite Hrow, IH. lra.
Qed.

(** The scaled copy [ke] of the element matrix. *)
Lemma scaled_element_matrix_entry (KE_ : list R) (dens : R) (n j : nat) :
  (j < n)%nat ->
  for_loop n (fun k ke => <[k := KE_ !!! k * dens]> ke) (replicate n 0) !!! j
  = KE_ !!! j * dens.
Proof.
  intros Hj.
  rewrite (for_loop_ext n _
    (fun k ke => from_option (fun v => <[k := v]> ke) ke (Some (KE_ !!! k * dens))))
    by reflexivity.
  apply list_lookup_total_correct.
  rewrite (for_loop_own_entry n (fun k => Some (KE_ !!! k * dens))).
  rewrite bool_decide_eq_true_2 by assumption.
  apply list_lookup_insert_eq. rewrite length_replicate. assumption.
Qed.

Section AssemblerProperties.
Context `{BuildConfig} `{Petsc}.

Lemma AssembleElements_gathered
      (s : LinearHeatConduction) (xPhys : Vec) (Emin Emax penal : PetscScalar)
      (nel nen : nat) (necon : list nat) (r c : nat) :
    DMDAGetElements (da_nodal s) = (nel, nen, necon) ->
    AssembleElements s xPhys Emin Emax penal r c
    = sum_n nel (fun i =>
        sum_n nedof (fun k =>
          sum_n nedof (fun h =>
            if bool_decide (element_dofs nedof nen necon i !!! k = r
                            /\ element_dofs nedof nen necon i !!! h = c)
            then KE s !!! (k * nedof + h)%nat
                 * (Emin + PetscPowScalar (xPhys !!! i) penal * (Emax - Emin))
            else 0))).
Proof.
    intros Hmesh.
    unfold AssembleElements. rewrite Hmesh. clear Hmesh.
    generalize (K s). intros K0. unfold MatZeroEntries.
    induction nel as [|n IH]; cbn [for_loop sum_n]; [reflexivity|].
    rewrite MatSetValuesLocal_ADD_entry, IH. apply Rplus_eq_compat_l.
    apply sum_n_ext. intros k Hk. apply sum_n_ext. intros h Hh.
    case_bool_decide; [|reflexivity].
    apply scaled_element_matrix_entry. nia.
Qed.

  (** C1. Whatever the matrix held before, after the element loop of
      [AssembleConductivityMatrix] (before the Dirichlet step) the entry of
      [K] at row [r] and column [c] is the sum, over the elements [i] and the
      pairs [(k, h)] of local nodes of [i] that the connectivity maps to
      [(r, c)], that is [necon[i nen + k] = r] and [necon[i nen + h] = c], of
      the entry [KE[k nedof + h]] of the element matrix scaled by
      [Emin + xPhys[i]^penal (Emax - Emin)]. The element has as many degrees
      of freedom as nodes ([nedof = nen]): the array [edof] of the code has
      [nedof] entries and the loop that fills it writes [nen]. *)
Theorem assembled_matrix_is_sum_of_element_contributions
      (s : LinearHeatConduction) (xPhys : Vec) (Emin Emax penal : PetscScalar)
      (nel nen : nat) (necon : list nat) (r c : nat) :
    DMDAGetElements (da_nodal s) = (nel, nen, necon) ->
    nedof = nen ->
    AssembleElements s xPhys Emin Emax penal r c
    = sum_n nel (fun i =>
        sum_n nedof (fun k =>
          sum_n nedof (fun h =>
            if bool_decide (necon !!! (i * nen + k)%nat = r
                            /\ necon !!! (i * nen + h)%nat = c)
            then KE s !!! (k * nedof + h)%nat
                 * (Emin + PetscPowScalar (xPhys !!! i) penal * (Emax - Emin))
            else 0)))
    /\ K (AssembleConductivityMatrix s xPhys Emin Emax penal)
       = K (ImposeDirichlet (AssembleElements s xPhys Emin Emax penal) s).
Proof.
    intros Hmesh Hdof. split; [|reflexivity].
    rewrite (AssembleElements_gathered s xPhys Emin Emax penal nel nen necon r c Hmesh).
    apply sum_n_ext. intros i _. apply sum_n_ext. intros k Hk.
    apply sum_n_ext. intros h Hh.
    rewrite !element_dofs_entry by lia. reflexivity.
Qed.

  (** C2. After [AssembleConductivityMatrix], [K] is
      [diag(N) K diag(N) + diag(1 - N)] of the assembled matrix and [RHS] is
      [RHS .* N]; so at a node whose mask entry is 0 the row and the column of
      [K] are those of the identity and the load is 0, and an entry that
      couples two nodes whose mask entries are 1, or the load of such a node,
      is left as it was. *)
Theorem dirichlet_rows_are_identity
      (s : LinearHeatConduction) (xPhys : Vec) (Emin Emax penal : PetscScalar)
      (r : nat) :
    let Ka := AssembleElements s xPhys Emin Emax penal in
    let s' := AssembleConductivityMatrix s xPhys Emin Emax penal in
    (r < length (N s))%nat -> length (RHS s) = length (N s) ->
    (forall c,
       K s' r c = N s !!! r * Ka r c * N s !!! c
                  + (if bool_decide (r = c) then 1 - N s !!! r else 0))
    /\ RHS s' !! r = Some (RHS s !!! r * N s !!! r)
    /\ (N s !!! r = 0 ->
        (forall c, K s' r c = if bool_decide (r = c) then 1 else 0)
        /\ (forall c, (c < length (N s))%nat ->
              K s' c r = if bool_decide (c = r) then 1 else 0)
        /\ RHS s' !! r = Some 0)
    /\ (N s !!! r = 1 ->
        (forall c, N s !!! c = 1 -> K s' r c = Ka r c)
        /\ RHS s' !! r = RHS s !! r).
Proof.
    intros Ka s' Hr Hlen.
    assert (HNI : forall j, (j < length (N s))%nat ->
      VecAXPY (VecSet (VecDuplicate (N s)) 1.0) (-1.0) (N s) !!! j
      = 1 - N s !!! j).
    { intros j Hj. unfold VecAXPY, VecSet, VecDuplicate.
      rewrite (@lookup_total_zip_with R R R _ R_inhabited R_inhabited R_inhabited)
        by (rewrite ?length_replicate; assumption).
      rewrite lookup_total_replicate_2 by (rewrite length_replicate; assumption).
      lra. }
    assert (HK : forall a b, (a < length (N s))%nat ->
      K s' a b = N s !!! a * Ka a b * N s !!! b
                 + (if bool_decide (a = b) then 1 - N s !!! a else 0)).
    { intros a b Ha. subst s'.
      unfold AssembleConductivityMatrix, ImposeDirichlet. fold Ka.
      cbn [K set_K set_RHS]. unfold MatDiagonalSet_ADD, MatDiagonalScale.
      case_bool_decide; [rewrite HNI by assumption; reflexivity|lra]. }
    assert (HR : RHS s' !! r = Some (RHS s !!! r * N s !!! r)).
    { subst s'. unfold AssembleConductivityMatrix, ImposeDirichlet.
      cbn [RHS set_K set_RHS N].
      apply lookup_of_total.
      - rewrite VecPointwiseMult_length; congruence.
      - apply VecPointwiseMult_entry; congruence. }
    split; [intros c; apply HK; assumption|]. split; [exact HR|]. split.
    - intros Hfix. split; [|split].
      + intros c. rewrite HK by assumption. rewrite Hfix.
        case_bool_decide; lra.
      + intros c Hc. rewrite HK by assumption. rewrite Hfix.
        case_bool_decide as E; [subst c; rewrite Hfix|]; lra.
      + rewrite HR, Hfix. f_equal. lra.
    - intros Hfree. split.
      + intros c Hc. rewrite HK by assumption. rewrite Hfree, Hc.
        case_bool_decide; lra.
      + rewrite HR, Hfree, Rmult_1_r. symmetry.
        apply list_lookup_lookup_total_lt. congruence.
Qed.
End AssemblerProperties.

(** ** Problem setup *)

Lemma PetscMin_Rmin (a b : R) : PetscMin a b = Rmin a b.
Proof.
  unfold PetscMin, Rmin. case_bool_decide; destruct (Rle_dec a b); lra.
Qed.

Lemma Rmin_scale (a b : R) : Rmin (a * 0.05) (b * 0.05) = 0.05 * Rmin a b.
Proof. unfold Rmin. destruct (Rle_dec a b), (Rle_dec (a * 0.05) (b * 0.05)); lra. Qed.

Lemma Rmin_scale3 (a b c : R) :
  Rmin (a * 0.05) (Rmin (b * 0.05) (c * 0.05)) = 0.05 * Rmin a (Rmin b c).
Proof.
  rewrite (Rmin_scale b c), (Rmult_comm 0.05 (Rmin b c)). apply Rmin_scale.
Qed.

Lemma clamp_nodes_2D_length lcoorp nn xc epsi (N0 : Vec) :
  length (clamp_nodes_2D lcoorp nn xc epsi N0) = length N0.
Proof.
  unfold clamp_nodes_2D, VecSetValueLocal_INSERT.
  induction nn as [|m IHm]; cbn [for_loop]; [reflexivity|].
  destruct (_ && _); [rewrite length_insert|]; exact IHm.
Qed.

Lemma clamp_nodes_2D_entry lcoorp nn xc epsi (N0 : Vec) (n : nat) :
  (2 * n + 1 < nn)%nat -> (n < length N0)%nat ->
  clamp_nodes_2D lcoorp nn xc epsi N0 !! n
  = if bool_decide (clamped_2D lcoorp (xc !!! 2%nat) (xc !!! 1%nat) epsi n)
    then Some 0 else N0 !! n.
Proof.
  intros Hn Hlen. unfold clamp_nodes_2D, VecSetValueLocal_INSERT.
  rewrite (for_loop_ext nn _ (fun i a =>
    if bool_decide ((i mod 2)%nat = 0%nat)
       && (bool_decide (PetscAbsScalar (lcoorp !!! (i + 1)%nat - xc !!! 2%nat) < epsi)
           && (bool_decide (lcoorp !!! i >= xc !!! 1%nat / 8.0 * 3)
               && bool_decide (lcoorp !!! i <= xc !!! 1%nat / 8.0 * 5)))
    then <[(i / 2)%nat := 0.0]> a else a))
    by (intros; rewrite <- !andb_assoc; reflexivity).
  pose proof (for_loop_stride_write 2
    (fun i => bool_decide (PetscAbsScalar (lcoorp !!! (i + 1)%nat - xc !!! 2%nat) < epsi)
              && (bool_decide (lcoorp !!! i >= xc !!! 1%nat / 8.0 * 3)
                  && bool_decide (lcoorp !!! i <= xc !!! 1%nat / 8.0 * 5)))
    0.0 nn N0 n ltac:(lia)) as Hs.
  cbv beta in Hs. rewrite Hs. clear Hs.
  rewrite (bool_decide_eq_true_2 (2 * n < nn)%nat) by lia. cbn [andb].
  unfold clamped_2D, PetscAbsScalar.
  rewrite list_lookup_insert_eq by assumption.
  repeat case_bool_decide; cbn [andb]; try reflexivity; try (f_equal; lra);
    exfalso; lra.
Qed.

Lemma clamp_nodes_3D_length lcoorp nn xc epsi (N0 : Vec) :
  length (clamp_nodes_3D lcoorp nn xc epsi N0) = length N0.
Proof.
  unfold clamp_nodes_3D, VecSetValueLocal_INSERT.
  induction nn as [|m IHm]; cbn [for_loop]; [reflexivity|].
  destruct (_ && _); [rewrite length_insert|]; exact IHm.
Qed.

Lemma clamp_nodes_3D_entry lcoorp nn xc epsi (N0 : Vec) (n : nat) :
  (3 * n + 2 < nn)%nat -> (n < length N0)%nat ->
  clamp_nodes_3D lcoorp nn xc epsi N0 !! n
  = if bool_decide (clamped_3D lcoorp (xc !!! 2%nat) (xc !!! 1%nat)
                      (xc !!! 5%nat) epsi n)
    then Some 0 else N0 !! n.
Proof.
  intros Hn Hlen. unfold clamp_nodes_3D, VecSetValueLocal_INSERT.
  rewrite (for_loop_ext nn _ (fun i a =>
    if bool_decide ((i mod 3)%nat = 0%nat)
       && (bool_decide (PetscAbsScalar (lcoorp !!! (i + 1)%nat - xc !!! 2%nat) < epsi)
           && (bool_decide (lcoorp !!! i >= xc !!! 1%nat / 8.0 * 3)
               && (bool_decide (lcoorp !!! i <= xc !!! 1%nat / 8.0 * 5)
                   && (bool_decide (lcoorp !!! (i + 2)%nat >= xc !!! 5%nat / 8.0 * 3)
                       && bool_decide (lcoorp !!! (i + 2)%nat <= xc !!! 5%nat / 8.0 * 5)))))
    then <[(i / 3)%nat := 0.0]> a else a))
    by (intros; rewrite <- !andb_assoc; reflexivity).
  pose proof (for_loop_stride_write 3
    (fun i => bool_decide (PetscAbsScalar (lcoorp !!! (i + 1)%nat - xc !!! 2%nat) < epsi)
           && (bool_decide (lcoorp !!! i >= xc !!! 1%nat / 8.0 * 3)
               && (bool_decide (lcoorp !!! i <= xc !!! 1%nat / 8.0 * 5)
                   && (bool_decide (lcoorp !!! (i + 2)%nat >= xc !!! 5%nat / 8.0 * 3)
                       && bool_decide (lcoorp !!! (i + 2)%nat <= xc !!! 5%nat / 8.0 * 5)))))
    0.0 nn N0 n ltac:(lia)) as Hs.
  cbv beta in Hs. rewrite Hs. clear Hs.
  rewrite (bool_decide_eq_true_2 (3 * n < nn)%nat) by lia. cbn [andb].
  unfold clamped_3D, PetscAbsScalar.
  rewrite list_lookup_insert_eq by assumption.
  repeat case_bool_decide; cbn [andb]; try reflexivity; try (f_equal; lra);
    exfalso; lra.
Qed.

(** The body load: every node receives one share per adjacent element. *)
Lemma body_load_adds (nnode nel : nat) (necon : list nat) (LoadIntensity : R) :
  (0 < nnode)%nat ->
  adds (body_load nnode nel nnode necon LoadIntensity)
       (node_load nnode nel necon (LoadIntensity / INR nnode)).
Proof.
  intros Hpos. unfold body_load, node_load.
  apply adds_for_loop. intros i _.
  eapply adds_ext; [reflexivity| |apply VecSetValuesLocal_ADD_adds].
  intros p. cbv beta. apply sum_n_ext. intros j Hj.
  rewrite element_dofs_entry by assumption.
  rewrite fill_entry by assumption.
  case_bool_decide; [|reflexivity].
  assert (INR nnode <> 0) by (apply not_0_INR; lia).
  replace 1.0 with 1 by lra. field. assumption.
Qed.

Section SetupProperties.
Context `{BuildConfig} `{Petsc}.

Lemma SetUpLoadAndBC_2D_default (s : LinearHeatConduction) (da_nodes da_elem : DM)
      (xPassive0 xPassive1 xPassive2 : Vec) (nel nen : nat) (necon : list nat) :
    IMPORT_GEO = 0%nat ->
    DMDAGetElements_2D da_nodes = (nel, nen, necon) ->
    let s' := SetUpLoadAndBC_2D s da_nodes da_elem xPassive0 xPassive1 xPassive2 in
    let c := dm_coor da_nodes in
    let dx := c !!! (DIM * necon !!! 1 + 0)%nat - c !!! (DIM * necon !!! 0 + 0)%nat in
    let dy := c !!! (DIM * necon !!! 2 + 1)%nat - c !!! (DIM * necon !!! 1 + 1)%nat in
    let da := nodal_grid_2D da_nodes necon in
    let n0 := (dm_xm da * dm_ym da * dm_zm da)%nat in
    nen = 4%nat
    /\ da_nodal s' = da
    /\ xc s' = [0.0; INR (dm_M da_nodes - 1) * dx; 0.0; INR (dm_N da_nodes - 1) * dy]
    /\ N s' = clamp_nodes_2D (dm_coor da) (length (dm_coor da)) (xc s')
                (PetscMin (dx * 0.05) (dy * 0.05)) (replicate n0 1.0)
    /\ RHS s' = body_load 4 nel nen necon 0.001 (replicate n0 0.0).
Proof.
    intros Hgeo Hmesh s' c dx dy da n0.
    assert (Hnen : nen = 4%nat).
    { unfold DMDAGetElements_2D in Hmesh. cbv zeta in Hmesh.
      injection Hmesh as _ Hn _. congruence. }
    subst s'. unfold SetUpLoadAndBC_2D. rewrite Hmesh.
    rewrite (bool_decide_eq_true_2 _ Hgeo).
    subst nen. subst da dx dy c. unfold nodal_grid_2D.
    cbn [N RHS xc da_nodal lookup_total list_lookup_total].
    unfold VecGetSize, VecSet, VecDuplicate, DMCreateGlobalVector.
    rewrite !length_replicate.
    repeat split; reflexivity.
Qed.

Lemma SetUpLoadAndBC_3D_default (s : LinearHeatConduction) (da_nodes da_elem : DM)
      (xPassive0 xPassive1 xPassive2 : Vec) (nel nen : nat) (necon : list nat) :
    IMPORT_GEO = 0%nat ->
    DMDAGetElements_3D da_nodes = (nel, nen, necon) ->
    let s' := SetUpLoadAndBC_3D s da_nodes da_elem xPassive0 xPassive1 xPassive2 in
    let c := dm_coor da_nodes in
    let dx := c !!! (3 * necon !!! 1 + 0)%nat - c !!! (3 * necon !!! 0 + 0)%nat in
    let dy := c !!! (3 * necon !!! 2 + 1)%nat - c !!! (3 * necon !!! 1 + 1)%nat in
    let dz := c !!! (3 * necon !!! 4 + 2)%nat - c !!! (3 * necon !!! 0 + 2)%nat in
    let da := nodal_grid_3D da_nodes necon in
    let n0 := (dm_xm da * dm_ym da * dm_zm da)%nat in
    nen = 8%nat
    /\ da_nodal s' = da
    /\ xc s' = [0.0; INR (dm_M da_nodes - 1) * dx; 0.0; INR (dm_N da_nodes - 1) * dy;
                0.0; INR (dm_P da_nodes - 1) * dz]
    /\ N s' = clamp_nodes_3D (dm_coor da) (length (dm_coor da)) (xc s')
                (PetscMin (dx * 0.05) (PetscMin (dy * 0.05) (dz * 0.05)))
                (replicate n0 1.0)
    /\ RHS s' = body_load 8 nel nen necon 0.001 (replicate n0 0.0).
Proof.
    intros Hgeo Hmesh s' c dx dy dz da n0.
    assert (Hnen : nen = 8%nat).
    { unfold DMDAGetElements_3D in Hmesh. cbv zeta in Hmesh.
      injection Hmesh as _ Hn _. congruence. }
    subst s'. unfold SetUpLoadAndBC_3D. rewrite Hmesh.
    rewrite (bool_decide_eq_true_2 _ Hgeo).
    subst nen. subst da dx dy dz c. unfold nodal_grid_3D.
    cbn [N RHS xc da_nodal lookup_total list_lookup_total].
    unfold VecGetSize, VecSet, VecDuplicate, DMCreateGlobalVector.
    rewrite !length_replicate.
    repeat split; reflexivity.
Qed.

Lemma default_scenario_2D
      (s : LinearHeatConduction) (da_nodes da_elem : DM)
      (xPassive0 xPassive1 xPassive2 : Vec) (nel nen : nat) (necon : list nat) :
    IMPORT_GEO = 0%nat ->
    let c := dm_coor da_nodes in
    DMDAGetElements_2D da_nodes = (nel, nen, necon) ->
    let s' := SetUpLoadAndBC_2D s da_nodes da_elem xPassive0 xPassive1 xPassive2 in
    let lcoorp := dm_coor (da_nodal s') in
    let dx := c !!! (DIM * necon !!! 1 + 0)%nat - c !!! (DIM * necon !!! 0 + 0)%nat in
    let dy := c !!! (DIM * necon !!! 2 + 1)%nat - c !!! (DIM * necon !!! 1 + 1)%nat in
    let epsi := 0.05 * Rmin dx dy in
    let xmax := INR (dm_M da_nodes - 1) * dx in
    let nodes := (dm_xm (da_nodal s') * dm_ym (da_nodal s')
                  * dm_zm (da_nodal s'))%nat in
    length lcoorp = (2 * nodes)%nat ->
    da_nodal s' = nodal_grid_2D da_nodes necon
    /\ length (N s') = nodes /\ length (RHS s') = nodes
    /\ (forall n, (n < nodes)%nat ->
          N s' !! n
          = Some (if bool_decide (clamped_2D lcoorp 0 xmax epsi n) then 0 else 1))
    /\ (forall n, (n < nodes)%nat ->
          RHS s' !! n = Some (node_load 4 nel necon (0.001 / 4) n)).
Proof.
    intros Hgeo c.
    intros Hmesh s' lcoorp dx dy epsi xmax nodes Hcoor.
    destruct (SetUpLoadAndBC_2D_default s da_nodes da_elem
                xPassive0 xPassive1 xPassive2 nel nen necon Hgeo Hmesh)
      as (Hnen & Hda & Hxc & HN & HRHS).
    fold s' c dx dy in Hda, Hxc, HN, HRHS. subst nen.
    set (da := nodal_grid_2D da_nodes necon) in *.
    set (n0 := (dm_xm da * dm_ym da * dm_zm da)%nat) in *.
    assert (HlenN : length (N s') = n0)
      by (rewrite HN, clamp_nodes_2D_length, length_replicate; reflexivity).
    assert (HlenR : length (RHS s') = n0).
    { rewrite HRHS.
      rewrite (proj1 (body_load_adds 4 nel necon 0.001 ltac:(lia) _)).
      apply length_replicate. }
    assert (Hnodes : nodes = n0) by (subst nodes n0; rewrite Hda; reflexivity).
    rewrite Hnodes in *. clear Hnodes.
    split; [exact Hda|]. split; [exact HlenN|]. split; [exact HlenR|].
    split.
    + intros n Hn. rewrite HN.
      rewrite clamp_nodes_2D_entry
        by (rewrite ?length_replicate; subst lcoorp; rewrite <- ?Hda; lia).
      rewrite Hxc. cbn [lookup_total list_lookup_total].
      replace (PetscMin (dx * 0.05) (dy * 0.05)) with epsi
        by (subst epsi; rewrite PetscMin_Rmin, Rmin_scale; reflexivity).
      fold xmax. replace 0.0 with 0 by lra.
      subst lcoorp. rewrite Hda.
      case_bool_decide; [reflexivity|].
      rewrite lookup_replicate_2 by lia. f_equal. lra.
    + intros n Hn.
      destruct (body_load_adds 4 nel necon 0.001 ltac:(lia) (replicate n0 0.0))
        as [Hlen Hval].
      rewrite HRHS.
      apply lookup_of_total; [rewrite Hlen, length_replicate; assumption|].
      rewrite Hval by (rewrite length_replicate; assumption).
      rewrite lookup_total_replicate_2 by assumption.
      replace (INR 4) with 4 by (cbn; lra). lra.
Qed.

Lemma default_scenario_3D
      (s : LinearHeatConduction) (da_nodes da_elem : DM)
      (xPassive0 xPassive1 xPassive2 : Vec) (nel nen : nat) (necon : list nat) :
    IMPORT_GEO = 0%nat ->
    let c := dm_coor da_nodes in
    DMDAGetElements_3D da_nodes = (nel, nen, necon) ->
    let s' := SetUpLoadAndBC_3D s da_nodes da_elem xPassive0 xPassive1 xPassive2 in
    let lcoorp := dm_coor (da_nodal s') in
    let dx := c !!! (3 * necon !!! 1 + 0)%nat - c !!! (3 * necon !!! 0 + 0)%nat in
    let dy := c !!! (3 * necon !!! 2 + 1)%nat - c !!! (3 * necon !!! 1 + 1)%nat in
    let dz := c !!! (3 * necon !!! 4 + 2)%nat - c !!! (3 * necon !!! 0 + 2)%nat in
    let epsi := 0.05 * Rmin dx (Rmin dy dz) in
    let xmax := INR (dm_M da_nodes - 1) * dx in
    let zmax := INR (dm_P da_nodes - 1) * dz in
    let nodes := (dm_xm (da_nodal s') * dm_ym (da_nodal s')
                  * dm_zm (da_nodal s'))%nat in
    length lcoorp = (3 * nodes)%nat ->
    da_nodal s' = nodal_grid_3D da_nodes necon
    /\ length (N s') = nodes /\ length (RHS s') = nodes
    /\ (forall n, (n < nodes)%nat ->
          N s' !! n
          = Some (if bool_decide (clamped_3D lcoorp 0 xmax zmax epsi n) then 0 else 1))
    /\ (forall n, (n < nodes)%nat ->
          RHS s' !! n = Some (node_load 8 nel necon (0.001 / 8) n)).
Proof.
    intros Hgeo c.
    intros Hmesh s' lcoorp dx dy dz epsi xmax zmax nodes Hcoor.
    destruct (SetUpLoadAndBC_3D_default s da_nodes da_elem
                xPassive0 xPassive1 xPassive2 nel nen necon Hgeo Hmesh)
      as (Hnen & Hda & Hxc & HN & HRHS).
    fold s' c dx dy dz in Hda, Hxc, HN, HRHS. subst nen.
    set (da := nodal_grid_3D da_nodes necon) in *.
    set (n0 := (dm_xm da * dm_ym da * dm_zm da)%nat) in *.
    assert (HlenN : length (N s') = n0)
      by (rewrite HN, clamp_nodes_3D_length, length_replicate; reflexivity).
    assert (HlenR : length (RHS s') = n0).
    { rewrite HRHS.
      rewrite (proj1 (body_load_adds 8 nel necon 0.001 ltac:(lia) _)).
      apply length_replicate. }
    assert (Hnodes : nodes = n0) by (subst nodes n0; rewrite Hda; reflexivity).
    rewrite Hnodes in *. clear Hnodes.
    split; [exact Hda|]. split; [exact HlenN|]. split; [exact HlenR|].
    split.
    + intros n Hn. rewrite HN.
      rewrite clamp_nodes_3D_entry
        by (rewrite ?length_replicate; subst lcoorp; rewrite <- ?Hda; lia).
      rewrite Hxc. cbn [lookup_total list_lookup_total].
      replace (PetscMin (dx * 0.05) (PetscMin (dy * 0.05) (dz * 0.05))) with epsi
        by (subst epsi; rewrite !PetscMin_Rmin, Rmin_scale3; reflexivity).
      fold xmax zmax. replace 0.0 with 0 by lra.
      subst lcoorp. rewrite Hda.
      case_bool_decide; [reflexivity|].
      rewrite lookup_replicate_2 by lia. f_equal. lra.
    + intros n Hn.
      destruct (body_load_adds 8 nel necon 0.001 ltac:(lia) (replicate n0 0.0))
        as [Hlen Hval].
      rewrite HRHS.
      apply lookup_of_total; [rewrite Hlen, length_replicate; assumption|].
      rewrite Hval by (rewrite length_replicate; assumption).
      rewrite lookup_total_replicate_2 by assumption.
      replace (INR 8) with 8 by (cbn; lra). lra.
Qed.

  (** C7. In the default scenario [SetUpLoadAndBC] creates the nodal grid
      and a mask [N] and a load [RHS] with one entry per node of it; it sets
      [N] to 0 exactly at the nodes of the bottom face (second coordinate
      within [epsi] of the lower extent, [epsi] being 5% of the smallest
      element edge) whose in-face coordinates lie between 3/8 and 5/8 of the
      domain extent, and to 1 at every other node; and [RHS] holds, at each
      node, one share [LoadIntensity / 4] (2-D) or [LoadIntensity / 8] (3-D)
      per adjacent element node, with [LoadIntensity = 0.001]. The
      coordinate array of the grid holds 2 (3) entries per node. *)
Theorem default_scenario_mask_and_load
      (s : LinearHeatConduction) (da_nodes da_elem : DM)
      (xPassive0 xPassive1 xPassive2 : Vec) (nel nen : nat) (necon : list nat) :
    IMPORT_GEO = 0%nat ->
    let c := dm_coor da_nodes in
    (DMDAGetElements_2D da_nodes = (nel, nen, necon) ->
     let s' := SetUpLoadAndBC_2D s da_nodes da_elem xPassive0 xPassive1 xPassive2 in
     let lcoorp := dm_coor (da_nodal s') in
     let dx := c !!! (DIM * necon !!! 1 + 0)%nat - c !!! (DIM * necon !!! 0 + 0)%nat in
     let dy := c !!! (DIM * necon !!! 2 + 1)%nat - c !!! (DIM * necon !!! 1 + 1)%nat in
     let epsi := 0.05 * Rmin dx dy in
     let xmax := INR (dm_M da_nodes - 1) * dx in
     let nodes := (dm_xm (da_nodal s') * dm_ym (da_nodal s')
                   * dm_zm (da_nodal s'))%nat in
     length lcoorp = (2 * nodes)%nat ->
     da_nodal s' = nodal_grid_2D da_nodes necon
     /\ length (N s') = nodes /\ length (RHS s') = nodes
     /\ (forall n, (n < nodes)%nat ->
           N s' !! n
           = Some (if bool_decide (clamped_2D lcoorp 0 xmax epsi n) then 0 else 1))
     /\ (forall n, (n < nodes)%nat ->
           RHS s' !! n = Some (node_load 4 nel necon (0.001 / 4) n)))
    /\
    (DMDAGetElements_3D da_nodes = (nel, nen, necon) ->
     let s' := SetUpLoadAndBC_3D s da_nodes da_elem xPassive0 xPassive1 xPassive2 in
     let lcoorp := dm_coor (da_nodal s') in
     let dx := c !!! (3 * necon !!! 1 + 0)%nat - c !!! (3 * necon !!! 0 + 0)%nat in
     let dy := c !!! (3 * necon !!! 2 + 1)%nat - c !!! (3 * necon !!! 1 + 1)%nat in
     let dz := c !!! (3 * necon !!! 4 + 2)%nat - c !!! (3 * necon !!! 0 + 2)%nat in
     let epsi := 0.05 * Rmin dx (Rmin dy dz) in
     let xmax := INR (dm_M da_nodes - 1) * dx in
     let zmax := INR (dm_P da_nodes - 1) * dz in
     let nodes := (dm_xm (da_nodal s') * dm_ym (da_nodal s')
                   * dm_zm (da_nodal s'))%nat in
     length lcoorp = (3 * nodes)%nat ->
     da_nodal s' = nodal_grid_3D da_nodes necon
     /\ length (N s') = nodes /\ length (RHS s') = nodes
     /\ (forall n, (n < nodes)%nat ->
           N s' !! n
           = Some (if bool_decide (clamped_3D lcoorp 0 xmax zmax epsi n) then 0 else 1))
     /\ (forall n, (n < nodes)%nat ->
           RHS s' !! n = Some (node_load 8 nel necon (0.001 / 8) n))).
Proof.
    intros Hgeo c. split.
    - apply default_scenario_2D. assumption.
    - apply default_scenario_3D. assumption.
Qed.
End SetupProperties.

(** *** The setup of the 3 x 3 grid *)

(** Goals over literals that involve [Rabs] and [Rmin]. *)
Ltac real_cases :=
  unfold Rabs, Rmin;
  repeat match goal with
         | |- context [Rcase_abs ?x] => destruct (Rcase_abs x)
         | |- context [Rle_dec ?x ?y] => destruct (Rle_dec x y)
         end;
  lra.

(** Decisions of equalities between numerals. *)
Ltac nat_decide :=
  repeat match goal with
         | |- context [bool_decide (?a = ?b)] =>
             first [ rewrite (bool_decide_eq_true_2 (a = b)) by lia
                   | rewrite (bool_decide_eq_false_2 (a = b)) by lia ]
         end.

Lemma grid_3x3_elements :
  DMDAGetElements_2D grid_3x3
  = (4, 4, [0; 1; 4; 3; 1; 2; 5; 4; 3; 4; 7; 6; 4; 5; 8; 7])%nat.
Proof. reflexivity. Qed.

Lemma heat_3x3_unfold :
  heat_3x3
  = @SetUpLoadAndBC_2D Build2D SerialPetsc unset_members grid_3x3 grid_3x3
      (replicate 4 0) (replicate 4 0) (replicate 4 0).
Proof. reflexivity. Qed.

Lemma uniform_coordinates_3x3 (xmax ymax : R) :
  xmax = 2 -> ymax = 2 ->
  uniform_coordinates 3 3 1 0.0 xmax 0.0 ymax 0.0 0.0
  = [0; 0; 1; 0; 2; 0; 0; 1; 1; 1; 2; 1; 0; 2; 1; 2; 2; 2].
Proof.
  intros -> ->. cbn. repeat (f_equal; try lra).
Qed.

Lemma grid_3x3_coordinates :
  dm_coor grid_3x3 = [0; 0; 1; 0; 2; 0; 0; 1; 1; 1; 2; 1; 0; 2; 1; 2; 2; 2].
Proof.
  change (dm_coor grid_3x3) with (uniform_coordinates 3 3 1 0 2 0 2 0 0).
  cbn. repeat (f_equal; try lra).
Qed.

Lemma heat_3x3_setup :
  da_nodal heat_3x3 = @nodal_grid_2D Build2D SerialPetsc grid_3x3
                        [0; 1; 4; 3; 1; 2; 5; 4; 3; 4; 7; 6; 4; 5; 8; 7]%nat
  /\ dm_coor (da_nodal heat_3x3)
     = [0; 0; 1; 0; 2; 0; 0; 1; 1; 1; 2; 1; 0; 2; 1; 2; 2; 2]
  /\ length (N heat_3x3) = 9%nat
  /\ length (RHS heat_3x3) = 9%nat.
Proof.
  rewrite heat_3x3_unfold.
  destruct (@SetUpLoadAndBC_2D_default Build2D SerialPetsc unset_members
              grid_3x3 grid_3x3 (replicate 4 0) (replicate 4 0) (replicate 4 0)
              _ _ _ eq_refl grid_3x3_elements) as (_ & Hda & _ & HN & HR).
  split; [exact Hda|]. split; [|split].
  - rewrite Hda. unfold nodal_grid_2D.
    change (dm_coor (@DMDASetElementType SerialPetsc ?d ?t)) with (dm_coor d).
    rewrite grid_3x3_coordinates.
    cbn -[uniform_coordinates INR].
    apply uniform_coordinates_3x3; cbn; lra.
  - rewrite HN, clamp_nodes_2D_length, length_replicate. reflexivity.
  - rewrite HR.
    rewrite (proj1 (body_load_adds 4 4 _ 0.001 ltac:(lia) _)).
    rewrite length_replicate. reflexivity.
Qed.

Lemma heat_3x3_mask_and_load :
  N heat_3x3 !! 1%nat = Some 0 /\ N heat_3x3 !! 0%nat = Some 1
  /\ N heat_3x3 !! 4%nat = Some 1 /\ RHS heat_3x3 !! 4%nat = Some 0.001.
Proof.
  destruct heat_3x3_setup as (Hgrid & Hcoor & _).
  pose proof (@default_scenario_2D Build2D SerialPetsc
    unset_members grid_3x3 grid_3x3 (replicate 4 0) (replicate 4 0)
    (replicate 4 0) _ _ _ eq_refl grid_3x3_elements) as Hth.
  cbv zeta in Hth. rewrite <- heat_3x3_unfold in Hth.
  rewrite Hcoor, grid_3x3_coordinates in Hth.
  change (dm_xm (da_nodal heat_3x3) * dm_ym (da_nodal heat_3x3)
          * dm_zm (da_nodal heat_3x3))%nat with 9%nat in Hth.
  destruct (Hth eq_refl) as (_ & _ & _ & HN & HR). clear Hth.
  cbn [lookup_total list_lookup_total Build2D DIM Nat.mul Nat.add grid_3x3
       dm_M DMDASetElementType DMDASetUniformCoordinates DMDACreate SerialPetsc
       Nat.sub INR] in HN.
  repeat split.
  - rewrite HN by lia. rewrite bool_decide_eq_true_2; [reflexivity|].
    unfold clamped_2D. cbn [lookup_total list_lookup_total Nat.mul Nat.add].
    split; [|split]; real_cases.
  - rewrite HN by lia. rewrite bool_decide_eq_false_2; [reflexivity|].
    unfold clamped_2D. cbn [lookup_total list_lookup_total Nat.mul Nat.add].
    intros (_ & Hx & _). lra.
  - rewrite HN by lia. rewrite bool_decide_eq_false_2; [reflexivity|].
    unfold clamped_2D. cbn [lookup_total list_lookup_total Nat.mul Nat.add].
    intros (Hy & _). revert Hy. real_cases.
  - rewrite HR by lia. f_equal. unfold node_load. cbn. nat_decide. lra.
Qed.

(** *** The setup of the 2 x 2 x 2 grid *)

Lemma grid_2x2x2_elements :
  DMDAGetElements_3D grid_2x2x2 = (1, 8, [0; 1; 3; 2; 4; 5; 7; 6])%nat.
Proof. reflexivity. Qed.

Lemma heat_2x2x2_unfold :
  heat_2x2x2
  = @SetUpLoadAndBC_3D Build3D SerialPetsc unset_members_3D grid_2x2x2 grid_2x2x2
      [0] [0] [0].
Proof. reflexivity. Qed.

Lemma heat_2x2x2_coordinates :
  length (dm_coor (da_nodal heat_2x2x2)) = 24%nat.
Proof. reflexivity. Qed.

Lemma default_scenario_mask_and_load_witness :
  let c := dm_coor grid_3x3 in
  let c3 := dm_coor grid_2x2x2 in
  let dx3 := c3 !!! 3%nat - c3 !!! 0%nat in
  let dy3 := c3 !!! 10%nat - c3 !!! 4%nat in
  let dz3 := c3 !!! 14%nat - c3 !!! 2%nat in
  ((@IMPORT_GEO Build2D = 0%nat
    /\ DMDAGetElements_2D grid_3x3
       = (4, 4, [0; 1; 4; 3; 1; 2; 5; 4; 3; 4; 7; 6; 4; 5; 8; 7])%nat
    /\ length (dm_coor (da_nodal heat_3x3)) = (2 * 9)%nat)
   /\ length (N heat_3x3) = 9%nat /\ length (RHS heat_3x3) = 9%nat
   /\ N heat_3x3 !! 1%nat
      = Some (if bool_decide
                   (clamped_2D (dm_coor (da_nodal heat_3x3)) 0
                      (INR (3 - 1) * (c !!! 2%nat - c !!! 0%nat))
                      (0.05 * Rmin (c !!! 2%nat - c !!! 0%nat)
                                   (c !!! 9%nat - c !!! 3%nat))
                      1)
              then 0 else 1))
  /\
  ((@IMPORT_GEO Build3D = 0%nat
    /\ DMDAGetElements_3D grid_2x2x2 = (1, 8, [0; 1; 3; 2; 4; 5; 7; 6])%nat
    /\ length (dm_coor (da_nodal heat_2x2x2)) = (3 * 8)%nat)
   /\ length (N heat_2x2x2) = 8%nat /\ length (RHS heat_2x2x2) = 8%nat
   /\ N heat_2x2x2 !! 5%nat
      = Some (if bool_decide
                   (clamped_3D (dm_coor (da_nodal heat_2x2x2)) 0
                      (INR (2 - 1) * dx3) (INR (2 - 1) * dz3)
                      (0.05 * Rmin dx3 (Rmin dy3 dz3)) 5)
              then 0 else 1)
   /\ RHS heat_2x2x2 !! 5%nat
      = Some (node_load 8 1 [0; 1; 3; 2; 4; 5; 7; 6]%nat (0.001 / 8) 5)).
Proof.
  intros c c3 dx3 dy3 dz3.
  assert (Hcoor : length (dm_coor (da_nodal heat_3x3)) = (2 * 9)%nat).
  { destruct heat_3x3_setup as (_ & -> & _). reflexivity. }
  assert (Hcoor3 : length (dm_coor (da_nodal heat_2x2x2)) = (3 * 8)%nat)
    by exact heat_2x2x2_coordinates.
  split.
  - split; [split; [reflexivity|split; [exact grid_3x3_elements|exact Hcoor]]|].
    destruct (proj1 (@default_scenario_mask_and_load Build2D SerialPetsc
                unset_members grid_3x3 grid_3x3 (replicate 4 0) (replicate 4 0)
                (replicate 4 0) _ _ _ eq_refl) grid_3x3_elements Hcoor)
      as (_ & HlenN & HlenR & HN & _).
    split; [exact HlenN|]. split; [exact HlenR|].
    apply (HN 1%nat). change (1 < 9)%nat. lia.
  - split; [split; [reflexivity|split; [exact grid_2x2x2_elements|exact Hcoor3]]|].
    destruct (proj2 (@default_scenario_mask_and_load Build3D SerialPetsc
                unset_members_3D grid_2x2x2 grid_2x2x2 [0] [0] [0]
                _ _ _ eq_refl) grid_2x2x2_elements Hcoor3)
      as (_ & HlenN & HlenR & HN & HR).
    split; [exact HlenN|]. split; [exact HlenR|].
    split; [apply (HN 5%nat)|apply (HR 5%nat)]; change (5 < 8)%nat; lia.
Defined.

(** *** The assembler on the 3 x 3 grid *)

Lemma heat_3x3_mesh :
  @DMDAGetElements Build2D (da_nodal heat_3x3)
  = (4, 4, [0; 1; 4; 3; 1; 2; 5; 4; 3; 4; 7; 6; 4; 5; 8; 7])%nat.
Proof. reflexivity. Qed.

Lemma assembled_matrix_is_sum_of_element_contributions_witness :
  let necon := [0; 1; 4; 3; 1; 2; 5; 4; 3; 4; 7; 6; 4; 5; 8; 7]%nat in
  (@DMDAGetElements Build2D (da_nodal heat_3x3) = (4, 4, necon)%nat
   /\ @nedof Build2D = 4%nat)
  /\ @AssembleElements Build2D SerialPetsc heat_3x3 (replicate 4 0.5) 1.0e-9 1 3
       4%nat 4%nat
     = sum_n 4 (fun i =>
         sum_n 4 (fun k =>
           sum_n 4 (fun h =>
             if bool_decide (necon !!! (i * 4 + k)%nat = 4%nat
                             /\ necon !!! (i * 4 + h)%nat = 4%nat)
             then KE heat_3x3 !!! (k * 4 + h)%nat
                  * (1.0e-9 + @PetscPowScalar SerialPetsc (replicate 4 0.5 !!! i) 3
                              * (1 - 1.0e-9))
             else 0))).
Proof.
  intros necon.
  split; [split; [exact heat_3x3_mesh|reflexivity]|].
  exact (proj1 (@assembled_matrix_is_sum_of_element_contributions Build2D SerialPetsc
           heat_3x3 (replicate 4 0.5) 1.0e-9 1 3 4%nat 4%nat _ 4%nat 4%nat
           heat_3x3_mesh eq_refl)).
Defined.

Lemma dirichlet_rows_are_identity_witness :
  let s' := @AssembleConductivityMatrix Build2D SerialPetsc heat_3x3
              (replicate 4 0.5) 1.0e-9 1 3 in
  (1 < length (N heat_3x3))%nat /\ length (RHS heat_3x3) = length (N heat_3x3)
  /\ N heat_3x3 !!! 1%nat = 0
  /\ (forall c, K s' 1%nat c = if bool_decide (1%nat = c) then 1 else 0)
  /\ RHS s' !! 1%nat = Some 0.
Proof.
  intros s'.
  assert (H1 : (1 < length (N heat_3x3))%nat).
  { destruct heat_3x3_setup as (_ & _ & -> & _). lia. }
  assert (H2 : length (RHS heat_3x3) = length (N heat_3x3)).
  { destruct heat_3x3_setup as (_ & _ & -> & ->). reflexivity. }
  assert (H3 : N heat_3x3 !!! 1%nat = 0).
  { apply list_lookup_total_correct. apply heat_3x3_mask_and_load. }
  split; [exact H1|]. split; [exact H2|]. split; [exact H3|].
  destruct (@dirichlet_rows_are_identity Build2D SerialPetsc heat_3x3
              (replicate 4 0.5) 1.0e-9 1 3 1%nat H1 H2)
    as (_ & _ & Hfix & _).
  destruct (Hfix H3) as (Hrow & _ & Hload).
  split; [exact Hrow|exact Hload].
Defined.

(** ** Element kernel *)

Lemma Dot_dot_n (v1 v2 : list R) (l : nat) : Dot v1 v2 l = dot_n l v1 v2.
Proof.
  unfold Dot, dot_n. rewrite for_loop_accumulate, R_zero_literal. lra.
Qed.

Lemma sum_n_if (n : nat) (c : bool) (f : nat -> R) :
  sum_n n (fun i => if c then f i else 0) = if c then sum_n n f else 0.
Proof. destruct c; [reflexivity|apply sum_n_zero]. Qed.

Lemma sum_n_index2 (n : nat) (f : nat -> nat -> R) (i0 j0 : nat) :
  (i0 < n)%nat -> (j0 < n)%nat ->
  sum_n n (fun i => sum_n n (fun j =>
    if bool_decide ((j + n * i)%nat = (j0 + n * i0)%nat) then f i j else 0))
  = f i0 j0.
Proof.
  intros Hi Hj.
  rewrite (sum_n_ext n _ (fun i => if bool_decide (i = i0) then f i j0 else 0)).
  - apply (sum_n_single n i0 (fun i => f i j0)). assumption.
  - intros i Hi'. case_bool_decide as E.
    + subst i.
      rewrite (sum_n_ext n _ (fun j => if bool_decide (j = j0) then f i0 j else 0)).
      * apply (sum_n_single n j0 (f i0)). assumption.
      * intros j Hj'. destruct (decide (j = j0)) as [->|Hne].
        -- rewrite !bool_decide_eq_true_2 by reflexivity. reflexivity.
        -- rewrite !bool_decide_eq_false_2 by lia. reflexivity.
    + rewrite (sum_n_ext n _ (fun _ => 0)); [apply sum_n_zero|].
      intros j Hj'. rewrite bool_decide_eq_false_2; [reflexivity|]. nia.
Qed.

(** The four nested loops that add [w * T i j k l] to [ke[j + n i]]. *)
Lemma element_loops_adds (n m : nat) (w : R) (T : nat -> nat -> nat -> nat -> R) :
  adds (fun ke =>
          for_loop n (fun i ke =>
            for_loop n (fun j ke =>
              for_loop m (fun k ke =>
                for_loop m (fun l ke =>
                  <[(j + n * i)%nat := ke !!! (j + n * i)%nat + w * T i j k l]> ke)
                ke) ke) ke) ke)
       (fun p => sum_n n (fun i => sum_n n (fun j =>
          if bool_decide ((j + n * i)%nat = p)
          then w * sum_n m (fun k => sum_n m (fun l => T i j k l)) else 0))).
Proof.
  eapply adds_ext; [reflexivity| |].
  2: { apply (adds_for_loop n _ (fun i p => sum_n n (fun j => sum_n m (fun k => sum_n m (fun l =>
         if bool_decide ((j + n * i)%nat = p) then w * T i j k l else 0))))).
       intros i _.
       apply (adds_for_loop n _ (fun j p => sum_n m (fun k => sum_n m (fun l =>
         if bool_decide ((j + n * i)%nat = p) then w * T i j k l else 0)))).
       intros j _.
       apply (adds_for_loop m _ (fun k p => sum_n m (fun l =>
         if bool_decide ((j + n * i)%nat = p) then w * T i j k l else 0))).
       intros k _.
       apply (adds_for_loop m _ (fun l p =>
         if bool_decide ((j + n * i)%nat = p) then w * T i j k l else 0)).
       intros l _.
       apply (adds_insert (j + n * i) (fun _ => w * T i j k l)). reflexivity. }
  intros p. cbv beta. apply sum_n_ext. intros i _. apply sum_n_ext. intros j _.
  destruct (bool_decide _).
  - rewrite <- sum_n_scale. apply sum_n_ext. intros k _.
    rewrite <- sum_n_scale. reflexivity.
  - symmetry. rewrite (sum_n_ext m _ (fun _ => 0)); [apply sum_n_zero|].
    intros k _. apply sum_n_zero.
Qed.


Lemma shape_replicate (r c : nat) : shape r c (replicate r (replicate c 0)).
Proof.
  split; [apply length_replicate|].
  intros k Hk. rewrite lookup_total_replicate_2 by assumption.
  apply length_replicate.
Qed.

Lemma get2_replicate (r c k a : nat) :
  (k < r)%nat -> (a < c)%nat -> get2 (replicate r (replicate c 0)) k a = 0.
Proof.
  intros Hk Ha. unfold get2.
  rewrite !lookup_total_replicate_2 by assumption. reflexivity.
Qed.

Lemma adds2_set2 (r c i j : nat) (v : R) :
  (i < r)%nat -> (j < c)%nat ->
  adds2 r c (fun B => set2 B i j (get2 B i j + v))
        (fun k a => if bool_decide (k = i /\ a = j) then v else 0).
Proof.
  intros Hi Hj B [HlenB Hrows]. unfold set2, get2. split.
  - split; [rewrite length_insert; assumption|].
    intros k Hk. destruct (decide (k = i)) as [->|Hne].
    + rewrite list_lookup_total_insert_eq by lia.
      rewrite length_insert. apply Hrows. assumption.
    + rewrite list_lookup_total_insert_ne by congruence. apply Hrows. assumption.
  - intros k a Hk Ha. destruct (decide (k = i)) as [->|Hne].
    + rewrite list_lookup_total_insert_eq by lia.
      destruct (decide (a = j)) as [->|Hne'].
      * rewrite list_lookup_total_insert_eq by (rewrite Hrows; assumption).
        rewrite bool_decide_eq_true_2 by auto. reflexivity.
      * rewrite list_lookup_total_insert_ne by congruence.
        rewrite bool_decide_eq_false_2 by (intros [_ ?]; congruence). lra.
    + rewrite list_lookup_total_insert_ne by congruence.
      rewrite bool_decide_eq_false_2 by (intros [? _]; congruence). lra.
Qed.

Lemma adds2_for_loop (r c n : nat) (body : nat -> list (list R) -> list (list R))
    (d : nat -> nat -> nat -> R) :
  (forall x, (x < n)%nat -> adds2 r c (body x) (d x)) ->
  adds2 r c (for_loop n body) (fun k a => sum_n n (fun x => d x k a)).
Proof.
  induction n as [|n IH]; intros Hbody B HB.
  - cbn [for_loop sum_n]. split; [assumption|]. intros; lra.
  - cbn [for_loop sum_n].
    destruct (IH (fun x Hx => Hbody x (Nat.lt_lt_succ_r _ _ Hx)) B HB) as [Hs Hv].
    destruct (Hbody n (Nat.lt_succ_diag_r n) (for_loop n body B) Hs) as [Hs' Hv'].
    split; [assumption|].
    intros k a Hk Ha. rewrite Hv', Hv by assumption. lra.
Qed.

Lemma sum_n_pair_single (r c k a : nat) (f : nat -> nat -> R) :
  (k < r)%nat -> (a < c)%nat ->
  sum_n r (fun i => sum_n c (fun j =>
    if bool_decide (k = i /\ a = j) then f i j else 0)) = f k a.
Proof.
  intros Hk Ha.
  rewrite (sum_n_ext r _ (fun i => if bool_decide (i = k) then f i a else 0)).
  - apply (sum_n_single r k (fun i => f i a)). assumption.
  - intros i Hi. destruct (decide (i = k)) as [->|Hne].
    + rewrite bool_decide_eq_true_2 by reflexivity.
      rewrite (sum_n_ext c _ (fun j => if bool_decide (j = a) then f k j else 0)).
      * apply (sum_n_single c a (f k)). assumption.
      * intros j Hj. destruct (decide (j = a)) as [->|Hne].
        -- rewrite !bool_decide_eq_true_2 by auto. reflexivity.
        -- rewrite !bool_decide_eq_false_2 by (try intros [_ ?]; congruence).
           reflexivity.
    + rewrite bool_decide_eq_false_2 by assumption.
      rewrite (sum_n_ext c _ (fun _ => 0)); [apply sum_n_zero|].
      intros j Hj. rewrite bool_decide_eq_false_2; [reflexivity|].
      intros [? _]; congruence.
Qed.

(** The loops that build the strain-displacement matrix [B], for [m]
    derivative arrays [dN ll] and the columns [beta ll] of the inverse
    Jacobian. *)
Lemma B_loops (m r c : nat) (beta : nat -> list R) (dN : nat -> list R) (k a : nat) :
  (k < r)%nat -> (a < c)%nat ->
  get2 (for_loop m (fun ll B =>
          for_loop r (fun i B =>
            for_loop c (fun j B =>
              set2 B i j (get2 B i j + beta ll !!! i * dN ll !!! j)) B) B)
          (replicate r (replicate c 0))) k a
  = sum_n m (fun ll => beta ll !!! k * dN ll !!! a).
Proof.
  intros Hk Ha.
  assert (Hadds : adds2 r c
    (for_loop m (fun ll B =>
       for_loop r (fun i B =>
         for_loop c (fun j B =>
           set2 B i j (get2 B i j + beta ll !!! i * dN ll !!! j)) B) B))
    (fun k a => sum_n m (fun ll => sum_n r (fun i => sum_n c (fun j =>
       if bool_decide (k = i /\ a = j) then beta ll !!! i * dN ll !!! j else 0))))).
  { apply (adds2_for_loop r c m _ (fun ll k a => sum_n r (fun i => sum_n c (fun j =>
       if bool_decide (k = i /\ a = j) then beta ll !!! i * dN ll !!! j else 0)))).
    intros ll _.
    apply (adds2_for_loop r c r _ (fun i k a => sum_n c (fun j =>
       if bool_decide (k = i /\ a = j) then beta ll !!! i * dN ll !!! j else 0))).
    intros i Hi.
    apply (adds2_for_loop r c c _ (fun j k a =>
       if bool_decide (k = i /\ a = j) then beta ll !!! i * dN ll !!! j else 0)).
    intros j Hj. apply adds2_set2; assumption. }
  destruct (Hadds _ (shape_replicate r c)) as [_ Hv].
  rewrite Hv by assumption. rewrite get2_replicate by assumption.
  rewrite Rplus_0_l. apply sum_n_ext. intros ll _.
  apply (sum_n_pair_single r c k a (fun i j => beta ll !!! i * dN ll !!! j));
    assumption.
Qed.

Lemma memset_zero_length (a : list R) (n : nat) :
  length (memset_zero a n) = length a.
Proof.
  unfold memset_zero. rewrite length_app, length_replicate, length_drop. lia.
Qed.

Lemma memset_zero_entry (a : list R) (n p : nat) :
  (p < n)%nat -> (p < length a)%nat -> memset_zero a n !!! p = 0.
Proof.
  intros Hn Ha. unfold memset_zero.
  rewrite lookup_total_app_l by (rewrite length_replicate; lia).
  apply lookup_total_replicate_2. lia.
Qed.

Lemma kcond_2D_entry (k l : nat) :
  (k < 2)%nat -> (l < 2)%nat ->
  get2 [ [1.0; 0.0]; [0.0; 1.0] ] k l = unit_conductivity k l.
Proof.
  intros Hk Hl. unfold unit_conductivity, get2.
  destruct k as [|[|k]]; [| |lia]; (destruct l as [|[|l]]; [| |lia]);
    cbn [lookup_total list_lookup_total];
    (rewrite bool_decide_eq_true_2 by lia) || (rewrite bool_decide_eq_false_2 by lia);
    lra.
Qed.

Lemma Quad4_point_adds (X Y : list R) (xi eta wi wj : R) :
  adds (fun ke =>
      let '(dNdxi, dNdeta) := DifferentiatedShapeFunctions_2D xi eta in
      let J := [ [ Dot dNdxi X 4; Dot dNdxi Y 4 ];
                 [ Dot dNdeta X 4; Dot dNdeta Y 4 ] ] in
      let '(detJ, invJ) := Inverse2M J in
      let weight := wi * wj * detJ in
      let B := replicate 2 (replicate 4 0) in
      let B :=
        for_loop 2 (fun ll B =>
          let dN := if bool_decide (ll = 0%nat) then dNdxi else dNdeta in
          let beta := [ get2 invJ 0 ll; get2 invJ 1 ll ] in
          for_loop 2 (fun i B =>
            for_loop 4 (fun j B =>
              set2 B i j (get2 B i j + beta !!! i * dN !!! j)) B) B) B in
      for_loop 4 (fun i ke =>
        for_loop 4 (fun j ke =>
          for_loop 2 (fun k ke =>
            for_loop 2 (fun l ke =>
              <[(j + 4 * i)%nat :=
                  ke !!! (j + 4 * i)%nat
                  + weight * (get2 B k i * get2 [ [1.0; 0.0]; [0.0; 1.0] ] k l
                              * get2 B l j)]> ke)
            ke) ke) ke) ke)
    (fun p => sum_n 4 (fun i => sum_n 4 (fun j =>
       if bool_decide ((j + 4 * i)%nat = p)
       then gauss_term_2D X Y xi eta wi wj i j else 0))).
Proof.
  unfold gauss_term_2D.
  destruct (DifferentiatedShapeFunctions_2D xi eta) as [dNdxi dNdeta].
  rewrite !Dot_dot_n. cbv zeta.
  destruct (Inverse2M _) as [detJ invJ].
  set (Bc := for_loop 2 _ (replicate 2 (replicate 4 0))).
  eapply adds_ext; [reflexivity| |
    apply (element_loops_adds 4 2 (wi * wj * detJ)
             (fun i j k l => get2 Bc k i * get2 [ [1.0; 0.0]; [0.0; 1.0] ] k l
                             * get2 Bc l j))].
  intros p. cbv beta. apply sum_n_ext. intros i Hi. apply sum_n_ext. intros j Hj.
  destruct (bool_decide _); [|reflexivity].
  f_equal. apply sum_n_ext. intros k Hk. apply sum_n_ext. intros l Hl.
  subst Bc.
  rewrite !(B_loops 2 2 4 (fun ll => [get2 invJ 0 ll; get2 invJ 1 ll])
             (fun ll => if bool_decide (ll = 0%nat) then dNdxi else dNdeta))
    by assumption.
  rewrite kcond_2D_entry by assumption.
  cbn [sum_n].
  rewrite (bool_decide_eq_true_2 (0%nat = 0%nat)) by reflexivity.
  rewrite (bool_decide_eq_false_2 (1%nat = 0%nat)) by lia.
  destruct k as [|[|k]]; [| |lia]; (destruct l as [|[|l]]; [| |lia]);
    cbn [lookup_total list_lookup_total]; ring.
Qed.

Lemma Quad4Isoparametric_refines (X Y : list R) (reduced : bool) (ke : list R)
    (i0 j0 : nat) :
  length ke = 16%nat -> (i0 < 4)%nat -> (j0 < 4)%nat ->
  Quad4Isoparametric X Y (redInt_of reduced) ke !!! (j0 + 4 * i0)%nat
  = Quad4_quadrature gauss_point_code reduced X Y i0 j0.
Proof.
  intros Hlen Hi Hj. unfold Quad4Isoparametric.
  set (n := (2 - redInt_of reduced)%nat).
  set (GP := if bool_decide (redInt_of reduced <> 0%nat) then _ else _).
  set (W := if bool_decide (redInt_of reduced <> 0%nat) then _ else _).
  cbv zeta.
  assert (Hadds : adds
    (for_loop n (fun ii ke => for_loop n (fun jj ke =>
       (let '(dNdxi, dNdeta) := DifferentiatedShapeFunctions_2D (GP !!! ii) (GP !!! jj) in
        let J := [ [ Dot dNdxi X 4; Dot dNdxi Y 4 ];
                   [ Dot dNdeta X 4; Dot dNdeta Y 4 ] ] in
        let '(detJ, invJ) := Inverse2M J in
        let weight := W !!! ii * W !!! jj * detJ in
        let B := replicate 2 (replicate 4 0) in
        let B :=
          for_loop 2 (fun ll B =>
            let dN := if bool_decide (ll = 0%nat) then dNdxi else dNdeta in
            let beta := [ get2 invJ 0 ll; get2 invJ 1 ll ] in
            for_loop 2 (fun i B =>
              for_loop 4 (fun j B =>
                set2 B i j (get2 B i j + beta !!! i * dN !!! j)) B) B) B in
        for_loop 4 (fun i ke =>
          for_loop 4 (fun j ke =>
            for_loop 2 (fun k ke =>
              for_loop 2 (fun l ke =>
                <[(j + 4 * i)%nat :=
                    ke !!! (j + 4 * i)%nat
                    + weight * (get2 B k i * get2 [ [1.0; 0.0]; [0.0; 1.0] ] k l
                                * get2 B l j)]> ke)
              ke) ke) ke) ke)) ke))
    (fun p => sum_n n (fun ii => sum_n n (fun jj =>
       sum_n 4 (fun i => sum_n 4 (fun j =>
         if bool_decide ((j + 4 * i)%nat = p)
         then gauss_term_2D X Y (GP !!! ii) (GP !!! jj) (W !!! ii) (W !!! jj) i j
         else 0)))))).
  { apply (adds_for_loop n _ (fun ii p => sum_n n (fun jj =>
       sum_n 4 (fun i => sum_n 4 (fun j =>
         if bool_decide ((j + 4 * i)%nat = p)
         then gauss_term_2D X Y (GP !!! ii) (GP !!! jj) (W !!! ii) (W !!! jj) i j
         else 0))))).
    intros ii _.
    apply (adds_for_loop n _ (fun jj p =>
       sum_n 4 (fun i => sum_n 4 (fun j =>
         if bool_decide ((j + 4 * i)%nat = p)
         then gauss_term_2D X Y (GP !!! ii) (GP !!! jj) (W !!! ii) (W !!! jj) i j
         else 0)))).
    intros jj _. apply Quad4_point_adds. }
  destruct (Hadds (memset_zero ke (4 * 4))) as [_ Hval].
  cbv zeta in Hval.
  etransitivity; [apply Hval; rewrite memset_zero_length; lia|].
  rewrite memset_zero_entry by lia. rewrite Rplus_0_l.
  rewrite (sum_n_ext n _ (fun ii => sum_n n (fun jj =>
     gauss_term_2D X Y (GP !!! ii) (GP !!! jj) (W !!! ii) (W !!! jj) i0 j0))).
  2: { intros ii _. apply sum_n_ext. intros jj _.
       apply (sum_n_index2 4 (fun i j =>
         gauss_term_2D X Y (GP !!! ii) (GP !!! jj) (W !!! ii) (W !!! jj) i j));
         assumption. }
  subst n GP W. unfold Quad4_quadrature, gauss_rule, gauss_point_code.
  destruct reduced; cbn [redInt_of].
  - rewrite (bool_decide_eq_true_2 (1%nat <> 0%nat)) by lia.
    cbn [Nat.sub sum_n sum_list foldr fst snd insert list_insert lookup_total
         list_lookup_total].
    replace 0.0 with 0 by lra. replace 2.0 with 2 by lra. ring.
  - rewrite (bool_decide_eq_false_2 (0%nat <> 0%nat)) by lia.
    cbn [Nat.sub sum_n sum_list foldr fst snd lookup_total list_lookup_total].
    replace 1.0 with 1 by lra.
    replace (-0.577350269189626) with (Ropp 0.577350269189626) by lra. ring.
Qed.

Lemma kcond_3D_entry (k l : nat) :
  (k < 3)%nat -> (l < 3)%nat ->
  get2 [ [1.0; 0.0; 0.0]; [0.0; 1.0; 0.0]; [0.0; 0.0; 1.0] ] k l
  = unit_conductivity k l.
Proof.
  intros Hk Hl. unfold unit_conductivity, get2.
  destruct k as [|[|[|k]]]; [| | |lia]; (destruct l as [|[|[|l]]]; [| | |lia]);
    cbn [lookup_total list_lookup_total];
    (rewrite bool_decide_eq_true_2 by lia) || (rewrite bool_decide_eq_false_2 by lia);
    lra.
Qed.

Lemma Hex8_point_adds (X Y Z : list R) (xi eta zeta wi wj wk : R) :
  adds (fun ke =>
      let '(dNdxi, dNdeta, dNdzeta) := DifferentiatedShapeFunctions xi eta zeta in
      let J := [ [ Dot dNdxi X 8; Dot dNdxi Y 8; Dot dNdxi Z 8 ];
                 [ Dot dNdeta X 8; Dot dNdeta Y 8; Dot dNdeta Z 8 ];
                 [ Dot dNdzeta X 8; Dot dNdzeta Y 8; Dot dNdzeta Z 8 ] ] in
      let '(detJ, invJ) := Inverse3M J in
      let weight := wi * wj * wk * detJ in
      let B := replicate 3 (replicate 8 0) in
      let B :=
        for_loop 3 (fun ll B =>
          let dN := if bool_decide (ll = 0%nat) then dNdxi
                    else if bool_decide (ll = 1%nat) then dNdeta
                    else dNdzeta in
          let beta := [ get2 invJ 0 ll; get2 invJ 1 ll; get2 invJ 2 ll ] in
          for_loop 3 (fun i B =>
            for_loop 8 (fun j B =>
              set2 B i j (get2 B i j + beta !!! i * dN !!! j)) B) B) B in
      for_loop 8 (fun i ke =>
        for_loop 8 (fun j ke =>
          for_loop 3 (fun k ke =>
            for_loop 3 (fun l ke =>
              <[(j + 8 * i)%nat :=
                  ke !!! (j + 8 * i)%nat
                  + weight * (get2 B k i
                              * get2 [ [1.0; 0.0; 0.0]; [0.0; 1.0; 0.0]; [0.0; 0.0; 1.0] ] k l
                              * get2 B l j)]> ke)
            ke) ke) ke) ke)
    (fun p => sum_n 8 (fun i => sum_n 8 (fun j =>
       if bool_decide ((j + 8 * i)%nat = p)
       then gauss_term_3D X Y Z xi eta zeta wi wj wk i j else 0))).
Proof.
  unfold gauss_term_3D.
  destruct (DifferentiatedShapeFunctions xi eta zeta) as [[dNdxi dNdeta] dNdzeta].
  rewrite !Dot_dot_n. cbv zeta.
  destruct (Inverse3M _) as [detJ invJ].
  set (Bc := for_loop 3 _ (replicate 3 (replicate 8 0))).
  eapply adds_ext; [reflexivity| |
    apply (element_loops_adds 8 3 (wi * wj * wk * detJ)
             (fun i j k l =>
                get2 Bc k i
                * get2 [ [1.0; 0.0; 0.0]; [0.0; 1.0; 0.0]; [0.0; 0.0; 1.0] ] k l
                * get2 Bc l j))].
  intros p. cbv beta. apply sum_n_ext. intros i Hi. apply sum_n_ext. intros j Hj.
  destruct (bool_decide _); [|reflexivity].
  f_equal. apply sum_n_ext. intros k Hk. apply sum_n_ext. intros l Hl.
  subst Bc.
  rewrite !(B_loops 3 3 8
             (fun ll => [get2 invJ 0 ll; get2 invJ 1 ll; get2 invJ 2 ll])
             (fun ll => if bool_decide (ll = 0%nat) then dNdxi
                        else if bool_decide (ll = 1%nat) then dNdeta
                        else dNdzeta))
    by assumption.
  rewrite kcond_3D_entry by assumption.
  cbn [sum_n].
  rewrite (bool_decide_eq_true_2 (0%nat = 0%nat)) by reflexivity.
  rewrite (bool_decide_eq_false_2 (1%nat = 0%nat)) by lia.
  rewrite (bool_decide_eq_true_2 (1%nat = 1%nat)) by reflexivity.
  rewrite (bool_decide_eq_false_2 (2%nat = 0%nat)) by lia.
  rewrite (bool_decide_eq_false_2 (2%nat = 1%nat)) by lia.
  destruct k as [|[|[|k]]]; [| | |lia]; (destruct l as [|[|[|l]]]; [| | |lia]);
    cbn [lookup_total list_lookup_total]; ring.
Qed.

Lemma Hex8Isoparametric_refines (X Y Z : list R) (reduced : bool) (ke : list R)
    (i0 j0 : nat) :
  length ke = 64%nat -> (i0 < 8)%nat -> (j0 < 8)%nat ->
  Hex8Isoparametric X Y Z (redInt_of reduced) ke !!! (j0 + 8 * i0)%nat
  = Hex8_quadrature gauss_point_code reduced X Y Z i0 j0.
Proof.
  intros Hlen Hi Hj. unfold Hex8Isoparametric.
  set (n := (2 - redInt_of reduced)%nat).
  set (GP := if bool_decide (redInt_of reduced <> 0%nat) then _ else _).
  set (W := if bool_decide (redInt_of reduced <> 0%nat) then _ else _).
  cbv zeta.
  assert (Hadds : adds
    (for_loop n (fun ii ke => for_loop n (fun jj ke => for_loop n (fun kk ke =>
       (let '(dNdxi, dNdeta, dNdzeta) :=
          DifferentiatedShapeFunctions (GP !!! ii) (GP !!! jj) (GP !!! kk) in
        let J := [ [ Dot dNdxi X 8; Dot dNdxi Y 8; Dot dNdxi Z 8 ];
                   [ Dot dNdeta X 8; Dot dNdeta Y 8; Dot dNdeta Z 8 ];
                   [ Dot dNdzeta X 8; Dot dNdzeta Y 8; Dot dNdzeta Z 8 ] ] in
        let '(detJ, invJ) := Inverse3M J in
        let weight := W !!! ii * W !!! jj * W !!! kk * detJ in
        let B := replicate 3 (replicate 8 0) in
        let B :=
          for_loop 3 (fun ll B =>
            let dN := if bool_decide (ll = 0%nat) then dNdxi
                      else if bool_decide (ll = 1%nat) then dNdeta
                      else dNdzeta in
            let beta := [ get2 invJ 0 ll; get2 invJ 1 ll; get2 invJ 2 ll ] in
            for_loop 3 (fun i B =>
              for_loop 8 (fun j B =>
                set2 B i j (get2 B i j + beta !!! i * dN !!! j)) B) B) B in
        for_loop 8 (fun i ke =>
          for_loop 8 (fun j ke =>
            for_loop 3 (fun k ke =>
              for_loop 3 (fun l ke =>
                <[(j + 8 * i)%nat :=
                    ke !!! (j + 8 * i)%nat
                    + weight * (get2 B k i
                                * get2 [ [1.0; 0.0; 0.0]; [0.0; 1.0; 0.0]; [0.0; 0.0; 1.0] ] k l
                                * get2 B l j)]> ke)
              ke) ke) ke) ke)) ke) ke))
    (fun p => sum_n n (fun ii => sum_n n (fun jj => sum_n n (fun kk =>
       sum_n 8 (fun i => sum_n 8 (fun j =>
         if bool_decide ((j + 8 * i)%nat = p)
         then gauss_term_3D X Y Z (GP !!! ii) (GP !!! jj) (GP !!! kk)
                (W !!! ii) (W !!! jj) (W !!! kk) i j
         else 0))))))).
  { apply (adds_for_loop n _ (fun ii p => sum_n n (fun jj => sum_n n (fun kk =>
       sum_n 8 (fun i => sum_n 8 (fun j =>
         if bool_decide ((j + 8 * i)%nat = p)
         then gauss_term_3D X Y Z (GP !!! ii) (GP !!! jj) (GP !!! kk)
                (W !!! ii) (W !!! jj) (W !!! kk) i j
         else 0)))))).
    intros ii _.
    apply (adds_for_loop n _ (fun jj p => sum_n n (fun kk =>
       sum_n 8 (fun i => sum_n 8 (fun j =>
         if bool_decide ((j + 8 * i)%nat = p)
         then gauss_term_3D X Y Z (GP !!! ii) (GP !!! jj) (GP !!! kk)
                (W !!! ii) (W !!! jj) (W !!! kk) i j
         else 0))))).
    intros jj _.
    apply (adds_for_loop n _ (fun kk p =>
       sum_n 8 (fun i => sum_n 8 (fun j =>
         if bool_decide ((j + 8 * i)%nat = p)
         then gauss_term_3D X Y Z (GP !!! ii) (GP !!! jj) (GP !!! kk)
                (W !!! ii) (W !!! jj) (W !!! kk) i j
         else 0)))).
    intros kk _. apply Hex8_point_adds. }
  destruct (Hadds (memset_zero ke (8 * 8))) as [_ Hval].
  cbv zeta in Hval.
  etransitivity; [apply Hval; rewrite memset_zero_length; lia|].
  rewrite memset_zero_entry by lia. rewrite Rplus_0_l.
  rewrite (sum_n_ext n _ (fun ii => sum_n n (fun jj => sum_n n (fun kk =>
     gauss_term_3D X Y Z (GP !!! ii) (GP !!! jj) (GP !!! kk)
       (W !!! ii) (W !!! jj) (W !!! kk) i0 j0)))).
  2: { intros ii _. apply sum_n_ext. intros jj _. apply sum_n_ext. intros kk _.
       apply (sum_n_index2 8 (fun i j =>
         gauss_term_3D X Y Z (GP !!! ii) (GP !!! jj) (GP !!! kk)
           (W !!! ii) (W !!! jj) (W !!! kk) i j));
         assumption. }
  subst n GP W. unfold Hex8_quadrature, gauss_rule, gauss_point_code.
  destruct reduced; cbn [redInt_of].
  - rewrite (bool_decide_eq_true_2 (1%nat <> 0%nat)) by lia.
    cbn [Nat.sub sum_n sum_list foldr fst snd insert list_insert lookup_total
         list_lookup_total].
    replace 0.0 with 0 by lra. replace 2.0 with 2 by lra. ring.
  - rewrite (bool_decide_eq_false_2 (0%nat <> 0%nat)) by lia.
    cbn [Nat.sub sum_n sum_list foldr fst snd lookup_total list_lookup_total].
    replace 1.0 with 1 by lra.
    replace (-0.577350269189626) with (Ropp 0.577350269189626) by lra. ring.
Qed.



(** ** Linear solver configurator *)

Lemma smoother_loop_levels (n : nat) (f : LevelKSP -> LevelKSP) (pc : PC) (l : nat) :
  pc_mg_levels (for_loop n (fun k' pc => PCMGUpdateLevel pc (S k') f) pc) !! l
  = if bool_decide (1 <= l <= n)%nat then f <$> pc_mg_levels pc !! l
    else pc_mg_levels pc !! l.
Proof.
  induction n as [|n IH]; cbn [for_loop].
  - rewrite bool_decide_eq_false_2 by lia. reflexivity.
  - unfold PCMGUpdateLevel at 1. cbn [pc_mg_levels PCMGSetLevelKSPs].
    destruct (decide (l = S n)) as [->|Hne].
    + rewrite list_lookup_alter_eq, IH.
      rewrite bool_decide_eq_false_2 by lia.
      rewrite bool_decide_eq_true_2 by lia. reflexivity.
    + rewrite list_lookup_alter_ne by congruence. rewrite IH.
      destruct (decide (1 <= l <= n)%nat).
      * rewrite !bool_decide_eq_true_2 by lia. reflexivity.
      * rewrite !bool_decide_eq_false_2 by lia. reflexivity.
Qed.

Lemma interpolation_loop_levels (n : nat) (R : nat -> Mat) (pc : PC) :
  pc_mg_levels (for_loop n (fun k' pc => PCMGSetInterpolation pc (S k') (R k')) pc)
  = pc_mg_levels pc.
Proof. induction n as [|n IH]; cbn [for_loop]; [reflexivity|exact IH]. Qed.

Lemma restart_names_differ (wd : string) :
  String.append wd "/RestartSol00.dat" <> String.append wd "/RestartSol01.dat".
Proof.
  induction wd as [|c wd IH]; cbn [String.append].
  - discriminate.
  - intros E. injection E as E. exact (IH E).
Qed.

Section SolverProperties.
Context `{BuildConfig} `{Petsc}.

Lemma SetUpRestart_other_members (s : LinearHeatConduction)
      (opts : PetscOptions) (fs : FileSystem) :
    let s' := SetUpRestart s opts fs in
    nlvls s' = nlvls s /\ K s' = K s /\ da_nodal s' = da_nodal s
    /\ xc s' = xc s /\ RHS s' = RHS s /\ N s' = N s /\ KE s' = KE s.
Proof.
    unfold SetUpRestart.
    destruct (opt_restart opts) as [[|]|], (opt_onlyLoadDesign opts) as [[|]|];
      cbn; repeat split;
      destruct (fexists fs _); reflexivity.
Qed.

  (** C8. Without solver options on the command line, the main Krylov
      solver [SetUpSolver] creates has restart length 100, relative, absolute
      and divergence tolerances 1e-5, 1e-50 and 1e5, at most 200 iterations
      and a nonzero initial guess; the coarse-grid solver (level 0) has
      relative tolerance 1e-8 and at most 30 iterations; the smoother of
      every level above it is limited to 4 iterations (and restart length
      4), the code passes its three tolerances as [PETSC_DEFAULT], so that
      they stay what the library made them, and it installs no convergence
      test: the smoother keeps [KSPConvergedSkip], with which the library
      creates it, and only the iteration count ends its sweeps. *)
Theorem solver_default_configuration
      (s : LinearHeatConduction) (opts : PetscOptions) (fs : FileSystem) :
    no_solver_overrides opts ->
    smoothers_created_without_test ->
    exists k,
      ksp (SetUpSolver s opts fs) = Some k
      /\ ksp_gmres_restart k = 100%nat /\ ksp_rtol k = 1.0e-5
      /\ ksp_atol k = 1.0e-50 /\ ksp_dtol k = 1.0e5
      /\ ksp_maxits k = 200%nat /\ ksp_guess_nonzero k = true
      /\ ((0 < nlvls s)%nat ->
          exists c, pc_mg_levels (ksp_pc k) !! 0%nat = Some c
                    /\ lksp_rtol c = 1.0e-8 /\ lksp_maxits c = 30%nat)
      /\ (forall l, (1 <= l < nlvls s)%nat ->
          exists d, pc_mg_levels (ksp_pc k) !! l = Some d
                    /\ lksp_maxits d = 4%nat /\ lksp_gmres_restart d = 4%nat
                    /\ lksp_rtol d = lksp_rtol (PCMGCreateLevel l)
                    /\ lksp_atol d = lksp_atol (PCMGCreateLevel l)
                    /\ lksp_dtol d = lksp_dtol (PCMGCreateLevel l)
                    /\ lksp_converged d = KSPConvergedSkip).
Proof.
    intros (E1 & E2 & E3 & E4 & E5 & E6 & E7 & E8) Hskip.
    destruct opts as [o1 o2 o3 o4 o5 o6 o7 o8 o9 o10 o11 o12 o13].
    cbn in E1, E2, E3, E4, E5, E6, E7, E8. subst.
    pose proof (SetUpRestart_other_members s
      (mkOptions o1 o2 o3 o4 o5 None None None None None None None None) fs) as Hm.
    cbv zeta in Hm. destruct Hm as (Hnl & _).
    unfold SetUpSolver.
    set (s1 := SetUpRestart s _ fs) in *.
    cbn [KSPSetFromOptions opt_ksp_type opt_ksp_gmres_restart opt_ksp_rtol
         opt_ksp_atol opt_ksp_divtol opt_ksp_max_it opt_pc_type
         opt_ksp_initial_guess_nonzero default
         from_option id ksp_pc KSPSetPC PCSetType pc_type
         KSPSetOperators KSPSetInitialGuessNonzero KSPSetTolerances
         KSPGMRESSetRestart KSPSetType ksp_type ksp_gmres_restart ksp_rtol
         ksp_atol ksp_dtol ksp_maxits ksp_guess_nonzero ksp_Amat ksp_Pmat].
    rewrite (bool_decide_eq_true_2 (PCMG = PCMG)) by reflexivity.
    cbv zeta.
    eexists. split; [reflexivity|].
    repeat (split; [reflexivity|]).
    cbn [ksp_pc KSPSetPC]. rewrite Hnl.
    split.
    - intros Hpos. rewrite smoother_loop_levels.
      rewrite bool_decide_eq_false_2 by lia.
      unfold PCMGUpdateLevel. cbn [pc_mg_levels PCMGSetLevelKSPs].
      rewrite list_lookup_alter_eq.
      rewrite interpolation_loop_levels.
      cbn [pc_mg_levels PCMGSetGalerkin PCMGSetCycleType PCMGSetType PCMGSetLevels PCMGSetLevelKSPs].
      rewrite list_lookup_fmap, lookup_seq_lt by lia.
      cbn. eexists. split; [reflexivity|]. split; reflexivity.
    - intros l Hl. rewrite smoother_loop_levels.
      rewrite bool_decide_eq_true_2 by lia.
      unfold PCMGUpdateLevel. cbn [pc_mg_levels PCMGSetLevelKSPs].
      rewrite list_lookup_alter_ne by lia.
      rewrite interpolation_loop_levels.
      cbn [pc_mg_levels PCMGSetGalerkin PCMGSetCycleType PCMGSetType PCMGSetLevels PCMGSetLevelKSPs].
      rewrite list_lookup_fmap, lookup_seq_lt by lia.
      cbn. eexists. split; [reflexivity|].
      repeat (split; [reflexivity|]). apply Hskip. lia.
Qed.

Lemma SetUpSolver_restart_members (s : LinearHeatConduction)
      (opts : PetscOptions) (fs : FileSystem) :
    same_restart_members (SetUpSolver s opts fs) (SetUpRestart s opts fs).
Proof.
    unfold SetUpSolver, same_restart_members.
    set (s1 := SetUpRestart s opts fs). cbv zeta.
    destruct (bool_decide (pc_type _ = PCMG)); [|cbn; auto].
    destruct (bool_decide (nlvls s1 = 0%nat)); cbn; auto.
Qed.

  (** Unless the option [-restart] switches it off, [SetUpSolver] enables
      restart, sets the flip flag and names the two checkpoint files in the
      working directory. *)
Lemma SetUpSolver_restart_ready (s : LinearHeatConduction)
      (opts : PetscOptions) (fs : FileSystem) :
    opt_restart opts <> Some false ->
    restart_ready (default "./"%string (opt_workdir opts)) (SetUpSolver s opts fs)
    /\ flip (SetUpSolver s opts fs) = true.
Proof.
    intros Hopt. unfold restart_ready.
    destruct (SetUpSolver_restart_members s opts fs) as (-> & -> & -> & ->).
    unfold SetUpRestart.
    destruct (opt_restart opts) as [[|]|]; [|congruence|];
      destruct (opt_onlyLoadDesign opts) as [[|]|], (opt_workdir opts);
      cbn; try destruct (fexists fs _); cbn; auto.
Qed.

  (** C9. Two consecutive successful calls of [WriteRestartFiles] (restart
      enabled, file names as [SetUpSolver] sets them) write the temperature
      field to different files: each call toggles the flip flag first and
      writes to the file the new value selects, [RestartSol00.dat] when it is
      false and [RestartSol01.dat] when it is true. Between the calls the
      temperature field and the files may have changed. *)
Theorem restart_files_alternate
      (wd : string) (s t s1 s2 : LinearHeatConduction)
      (fs fs' fs1 fs2 : FileSystem) (e1 e2 : PetscErrorCode) :
    restart_ready wd s ->
    WriteRestartFiles s fs = (e1, s1, fs1) ->
    same_restart_members t s1 ->
    WriteRestartFiles t fs' = (e2, s2, fs2) ->
    e1 = 0%Z /\ e2 = 0%Z
    /\ flip s1 = negb (flip s) /\ flip s2 = negb (flip s1)
    /\ fs1 = VecView (U s) (restart_target s1) fs
    /\ fs2 = VecView (U t) (restart_target s2) fs'
    /\ restart_target s1
       = String.append wd (if flip s1 then "/RestartSol01.dat" else "/RestartSol00.dat")
    /\ restart_target s2
       = String.append wd (if flip s2 then "/RestartSol01.dat" else "/RestartSol00.dat")
    /\ restart_target s1 <> restart_target s2.
Proof.
    intros (Hr & H00 & H01) W1 (Hr' & Hf' & H00' & H01') W2.
    unfold WriteRestartFiles in W1. rewrite Hr in W1. cbn [negb] in W1.
    destruct s as [sK sU sR sN sk sd sKE snl snn sne sxc sre sfl sf0 sf1].
    cbn in Hr, H00, H01. subst sre sf0 sf1.
    unfold WriteRestartFiles in W2. rewrite Hr' in W2.
    destruct t as [tK tU tR tN tk td tKE tnl tnn tne txc tre tfl tf0 tf1].
    cbn in Hr', Hf', H00', H01'.
    destruct sfl; cbn in W1; injection W1 as <- <- <-;
      cbn in Hr', Hf', H00', H01'; subst tre tfl tf0 tf1;
      cbn in W2; injection W2 as <- <- <-;
      unfold restart_target; cbn; repeat split; try reflexivity.
    - apply restart_names_differ.
    - intros E. symmetry in E. exact (restart_names_differ wd E).
Qed.
End SolverProperties.

(** *** The solver of the 3 x 3 problem *)

Lemma serial_smoothers_created_without_test :
  @smoothers_created_without_test SerialPetsc.
Proof.
  intros l Hl. cbn. rewrite bool_decide_eq_false_2 by lia. reflexivity.
Qed.

Lemma heat_3x3_nlvls : nlvls heat_3x3 = 4%nat.
Proof. reflexivity. Qed.

Lemma solver_default_configuration_witness :
  (no_solver_overrides no_options /\ @smoothers_created_without_test SerialPetsc)
  /\ exists k,
       ksp (@SetUpSolver Build2D SerialPetsc heat_3x3 no_options ∅) = Some k
       /\ ksp_gmres_restart k = 100%nat /\ ksp_rtol k = 1.0e-5
       /\ ksp_maxits k = 200%nat /\ ksp_guess_nonzero k = true
       /\ (exists c, pc_mg_levels (ksp_pc k) !! 0%nat = Some c
                     /\ lksp_rtol c = 1.0e-8 /\ lksp_maxits c = 30%nat)
       /\ (exists d, pc_mg_levels (ksp_pc k) !! 3%nat = Some d
                     /\ lksp_maxits d = 4%nat
                     /\ lksp_converged d = KSPConvergedSkip).
Proof.
  assert (Hno : no_solver_overrides no_options) by (repeat split; reflexivity).
  split; [split; [exact Hno|exact serial_smoothers_created_without_test]|].
  destruct (@solver_default_configuration Build2D SerialPetsc heat_3x3
              no_options ∅ Hno serial_smoothers_created_without_test)
    as (k & Hk & Hres & Hrtol & _ & _ & Hmax & Hguess & Hcoarse & Hsmooth).
  exists k. repeat (split; [assumption|]). split.
  - apply Hcoarse. rewrite heat_3x3_nlvls. lia.
  - destruct (Hsmooth 3%nat) as (d & Hd & Hits & _ & _ & _ & _ & Hconv);
      [rewrite heat_3x3_nlvls; lia|].
    exists d. auto.
Defined.

Lemma restart_files_alternate_witness :
  let s := @SetUpSolver Build2D SerialPetsc heat_3x3 no_options ∅ in
  let w1 := WriteRestartFiles s ∅ in
  let w2 := WriteRestartFiles w1.1.2 w1.2 in
  restart_ready "./" s
  /\ same_restart_members w1.1.2 w1.1.2
  /\ restart_target w1.1.2 <> restart_target w2.1.2.
Proof.
  intros s w1 w2.
  assert (Hready : restart_ready "./" s).
  { apply (@SetUpSolver_restart_ready Build2D SerialPetsc heat_3x3 no_options ∅).
    discriminate. }
  assert (Hsame : same_restart_members w1.1.2 w1.1.2) by (repeat split).
  split; [exact Hready|]. split; [exact Hsame|].
  assert (W1 : WriteRestartFiles s ∅ = (w1.1.1, w1.1.2, w1.2))
    by (subst w1; destruct (WriteRestartFiles s ∅) as [[? ?] ?]; reflexivity).
  assert (W2 : WriteRestartFiles w1.1.2 w1.2 = (w2.1.1, w2.1.2, w2.2))
    by (subst w2; destruct (WriteRestartFiles w1.1.2 w1.2) as [[? ?] ?]; reflexivity).
  exact (proj2 (proj2 (proj2 (proj2 (proj2 (proj2 (proj2 (proj2
           (@restart_files_alternate "./" s w1.1.2 w1.1.2 w2.1.2
              ∅ w1.2 w1.2 w2.2 w1.1.1 w2.1.1 Hready W1 Hsame W2))))))))).
Defined.

(** * Further properties of the code *)

(** ** Sums *)

Lemma sum_list_ext {A : Type} (l : list A) (f g : A -> R) :
  (forall a, f a = g a) -> sum_list l f = sum_list l g.
Proof.
  intros Hfg. unfold sum_list. induction l as [|a l IH]; cbn [foldr]; [reflexivity|].
  rewrite Hfg, IH. reflexivity.
Qed.

Lemma sum_list_zero {A : Type} (l : list A) : sum_list l (fun _ => 0) = 0.
Proof.
  unfold sum_list. induction l as [|a l IH]; cbn [foldr]; [reflexivity|].
  rewrite IH. lra.
Qed.

Lemma sum_list_nonneg {A : Type} (l : list A) (f : A -> R) :
  (forall a, a ∈ l -> 0 <= f a) -> 0 <= sum_list l f.
Proof.
  unfold sum_list. induction l as [|a l IH]; intros Hf; cbn [foldr]; [lra|].
  assert (0 <= f a) by (apply Hf; left).
  assert (0 <= foldr (fun a acc => f a + acc) 0 l)
    by (apply IH; intros; apply Hf; right; assumption).
  lra.
Qed.

Lemma sum_n_sum_list {A : Type} (n : nat) (l : list A) (f : nat -> A -> R) :
  sum_n n (fun i => sum_list l (f i)) = sum_list l (fun a => sum_n n (fun i => f i a)).
Proof.
  unfold sum_list. induction l as [|a l IH]; cbn [foldr].
  - apply sum_n_zero.
  - rewrite sum_n_plus, IH. reflexivity.
Qed.

Lemma sum_list_scale {A : Type} (l : list A) (c d : R) (f : A -> R) :
  c * sum_list l f * d = sum_list l (fun a => c * f a * d).
Proof.
  unfold sum_list. induction l as [|a l IH]; cbn [foldr]; [ring|].
  rewrite <- IH. ring.
Qed.

Lemma sum_n_swap (n m : nat) (f : nat -> nat -> R) :
  sum_n n (fun i => sum_n m (fun j => f i j))
  = sum_n m (fun j => sum_n n (fun i => f i j)).
Proof.
  induction n as [|n IH]; cbn [sum_n].
  - symmetry. apply sum_n_zero.
  - rewrite IH, <- sum_n_plus. reflexivity.
Qed.

Lemma sum_n_nonneg (n : nat) (f : nat -> R) :
  (forall i, (i < n)%nat -> 0 <= f i) -> 0 <= sum_n n f.
Proof.
  induction n as [|n IH]; intros Hf; cbn [sum_n]; [lra|].
  assert (0 <= sum_n n f) by (apply IH; intros; apply Hf; lia).
  assert (0 <= f n) by (apply Hf; lia). lra.
Qed.

Lemma sum_n_le (n : nat) (f g : nat -> R) :
  (forall i, (i < n)%nat -> f i <= g i) -> sum_n n f <= sum_n n g.
Proof.
  induction n as [|n IH]; intros Hfg; cbn [sum_n]; [lra|].
  assert (sum_n n f <= sum_n n g) by (apply IH; intros; apply Hfg; lia).
  assert (f n <= g n) by (apply Hfg; lia). lra.
Qed.

Lemma sum_n_minus (n : nat) (f g : nat -> R) :
  sum_n n (fun i => f i - g i) = sum_n n f - sum_n n g.
Proof. induction n as [|n IH]; cbn [sum_n]; [lra|]. rewrite IH. lra. Qed.

Lemma sum_n_mul (n m : nat) (f g : nat -> R) :
  sum_n n f * sum_n m g = sum_n n (fun i => sum_n m (fun j => f i * g j)).
Proof.
  induction n as [|n IH]; cbn [sum_n]; [ring|].
  rewrite <- IH, sum_n_scale. ring.
Qed.

(** A Gram matrix gives a sum of squares. *)
Lemma gram_quadratic_form (n m : nat) (w : R) (B : nat -> nat -> R) (u : nat -> R) :
  sum_n n (fun i => sum_n n (fun j =>
    u i * (w * sum_n m (fun k => B k i * B k j)) * u j))
  = w * sum_n m (fun k => sum_n n (fun i => u i * B k i) * sum_n n (fun i => u i * B k i)).
Proof.
  transitivity (sum_n n (fun i => sum_n n (fun j => sum_n m (fun k =>
                  w * (u i * B k i * (u j * B k j)))))).
  - apply sum_n_ext. intros i _. apply sum_n_ext. intros j _.
    replace (u i * (w * sum_n m (fun k => B k i * B k j)) * u j)
      with ((u i * w * u j) * sum_n m (fun k => B k i * B k j)) by ring.
    rewrite <- sum_n_scale. apply sum_n_ext. intros k _. ring.
  - rewrite <- sum_n_scale.
    rewrite (sum_n_ext m _ (fun k => sum_n n (fun i => sum_n n (fun j =>
               w * (u i * B k i * (u j * B k j)))))).
    2: { intros k _. rewrite sum_n_mul, <- sum_n_scale. apply sum_n_ext. intros i _.
         rewrite <- sum_n_scale. reflexivity. }
    rewrite (sum_n_swap m n). apply sum_n_ext. intros i _.
    rewrite (sum_n_swap m n). reflexivity.
Qed.

(** ** Lists built by loops *)

Lemma for_loop_app {A : Type} (n : nat) (f : nat -> list A) (e0 : list A) :
  for_loop n (fun i e => e ++ f i) e0 = e0 ++ flat_map f (seq 0 n).
Proof.
  induction n as [|n IH]; cbn [for_loop].
  - cbn. rewrite app_nil_r. reflexivity.
  - rewrite IH, seq_S, flat_map_app. cbn [flat_map Nat.add].
    rewrite app_nil_r, app_assoc. reflexivity.
Qed.

Lemma for_loop_snoc {A : Type} (n : nat) (f : nat -> A) :
  for_loop n (fun k l => l ++ [f k]) [] = f <$> seq 0 n.
Proof.
  induction n as [|n IH]; cbn [for_loop]; [reflexivity|].
  rewrite IH, seq_S, fmap_app. reflexivity.
Qed.

Lemma flat_map_seq_length {A : Type} (c n : nat) (f : nat -> list A) :
  (forall i, (i < n)%nat -> length (f i) = c) ->
  length (flat_map f (seq 0 n)) = (c * n)%nat.
Proof.
  intros Hc. induction n as [|n IH].
  - cbn. lia.
  - rewrite seq_S, flat_map_app, length_app, IH by (intros; apply Hc; lia).
    cbn [flat_map Nat.add]. rewrite app_nil_r, Hc by lia. lia.
Qed.

Lemma flat_map_seq_lookup {A : Type} (c n : nat) (f : nat -> list A) (i j : nat) :
  (forall i, (i < n)%nat -> length (f i) = c) ->
  (i < n)%nat -> (j < c)%nat ->
  flat_map f (seq 0 n) !! (c * i + j)%nat = f i !! j.
Proof.
  intros Hc. induction n as [|n IH]; intros Hi Hj; [lia|].
  rewrite seq_S, flat_map_app. cbn [flat_map Nat.add]. rewrite app_nil_r.
  assert (Hlen : length (flat_map f (seq 0 n)) = (c * n)%nat)
    by (apply flat_map_seq_length; intros; apply Hc; lia).
  destruct (decide (i = n)) as [->|Hne].
  - rewrite lookup_app_r by lia. rewrite Hlen. f_equal. lia.
  - rewrite lookup_app_l by (rewrite Hlen; nia).
    apply IH; [intros; apply Hc; lia|lia|lia].
Qed.

Lemma flat_map_seq_Forall {A : Type} (P : A -> Prop) (n : nat) (f : nat -> list A) :
  (forall i, (i < n)%nat -> Forall P (f i)) -> Forall P (flat_map f (seq 0 n)).
Proof.
  intros Hf. induction n as [|n IH].
  - constructor.
  - rewrite seq_S, flat_map_app. apply Forall_app. split.
    + apply IH. intros; apply Hf; lia.
    + cbn [flat_map Nat.add]. rewrite app_nil_r. apply Hf. lia.
Qed.

Lemma bounded_exists_dec (n : nat) (P : nat -> Prop) :
  (forall j, Decision (P j)) ->
  {exists j, (j < n)%nat /\ P j} + {forall j, (j < n)%nat -> ~ P j}.
Proof.
  intros Hdec. induction n as [|n [IH|IH]].
  - right. intros j Hj. lia.
  - left. destruct IH as (j & Hj & HP). exists j. split; [lia|assumption].
  - destruct (Hdec n) as [HP|HP].
    + left. exists n. split; [lia|assumption].
    + right. intros j Hj. destruct (decide (j = n)) as [->|]; [assumption|].
      apply IH. lia.
Qed.

(** ** Element connectivity *)

Lemma DMDAGetElements_2D_cells (dm : DM) :
  dm_elementtype dm = DMDA_ELEMENT_Q1 ->
  let fx := first_cell (dm_xs dm) (dm_Xs dm) in
  let fy := first_cell (dm_ys dm) (dm_Ys dm) in
  let nx := cells_along (dm_xs dm) (dm_xm dm) (dm_Xs dm) in
  let ny := cells_along (dm_ys dm) (dm_ym dm) (dm_Ys dm) in
  DMDAGetElements_2D dm
  = ((nx * ny)%nat, 4%nat,
     flat_map (fun dj =>
       flat_map (fun di =>
         Q1_cell (dm_Xm dm) (fx + di - dm_Xs dm) (fy + dj - dm_Ys dm))
       (seq 0 nx)) (seq 0 ny)).
Proof.
  intros HQ fx fy nx ny. unfold DMDAGetElements_2D. cbv zeta.
  fold (first_cell (dm_xs dm) (dm_Xs dm)). fold (first_cell (dm_ys dm) (dm_Ys dm)).
  fold fx fy.
  assert (Hnx : (dm_xm dm + dm_xs dm - 1 - fx = nx)%nat)
    by (subst nx fx; unfold cells_along; lia).
  assert (Hny : (dm_ym dm + dm_ys dm - 1 - fy = ny)%nat)
    by (subst ny fy; unfold cells_along; lia).
  rewrite Hnx, Hny.
  replace (dm_xm dm + dm_xs dm - fx - 1)%nat with nx by lia.
  replace (dm_ym dm + dm_ys dm - fy - 1)%nat with ny by lia.
  rewrite Nat.mul_1_l.
  f_equal.
  rewrite <- (app_nil_l (flat_map _ (seq 0 ny))).
  rewrite <- for_loop_app. apply for_loop_ext. intros dj e _.
  rewrite <- for_loop_app. apply for_loop_ext. intros di e' _.
  rewrite (bool_decide_eq_true_2 _ HQ). f_equal. unfold Q1_cell.
  replace (dm_Xm dm + dm_Xs dm - dm_Xs dm)%nat with (dm_Xm dm) by lia.
  reflexivity.
Qed.

Lemma DMDAGetElements_3D_cells (dm : DM) :
  dm_elementtype dm = DMDA_ELEMENT_Q1 ->
  let fx := first_cell (dm_xs dm) (dm_Xs dm) in
  let fy := first_cell (dm_ys dm) (dm_Ys dm) in
  let fz := first_cell (dm_zs dm) (dm_Zs dm) in
  let nx := cells_along (dm_xs dm) (dm_xm dm) (dm_Xs dm) in
  let ny := cells_along (dm_ys dm) (dm_ym dm) (dm_Ys dm) in
  let nz := cells_along (dm_zs dm) (dm_zm dm) (dm_Zs dm) in
  DMDAGetElements_3D dm
  = ((nx * ny * nz)%nat, 8%nat,
     flat_map (fun dk =>
       flat_map (fun dj =>
         flat_map (fun di =>
           Q1_cell_3D (dm_Xm dm) (dm_Ym dm) (fx + di - dm_Xs dm)
             (fy + dj - dm_Ys dm) (fz + dk - dm_Zs dm))
         (seq 0 nx)) (seq 0 ny)) (seq 0 nz)).
Proof.
  intros HQ fx fy fz nx ny nz. unfold DMDAGetElements_3D. cbv zeta.
  fold (first_cell (dm_xs dm) (dm_Xs dm)). fold (first_cell (dm_ys dm) (dm_Ys dm)).
  fold (first_cell (dm_zs dm) (dm_Zs dm)).
  fold fx fy fz.
  assert (Hnx : (dm_xm dm + dm_xs dm - 1 - fx = nx)%nat)
    by (subst nx fx; unfold cells_along; lia).
  assert (Hny : (dm_ym dm + dm_ys dm - 1 - fy = ny)%nat)
    by (subst ny fy; unfold cells_along; lia).
  assert (Hnz : (dm_zm dm + dm_zs dm - 1 - fz = nz)%nat)
    by (subst nz fz; unfold cells_along; lia).
  rewrite Hnx, Hny, Hnz.
  replace (dm_xm dm + dm_xs dm - fx - 1)%nat with nx by lia.
  replace (dm_ym dm + dm_ys dm - fy - 1)%nat with ny by lia.
  replace (dm_zm dm + dm_zs dm - fz - 1)%nat with nz by lia.
  rewrite Nat.mul_1_l.
  f_equal.
  rewrite <- (app_nil_l (flat_map _ (seq 0 nz))).
  rewrite <- for_loop_app. apply for_loop_ext. intros dk e _.
  rewrite <- for_loop_app. apply for_loop_ext. intros dj e' _.
  rewrite <- for_loop_app. apply for_loop_ext. intros di e'' _.
  rewrite (bool_decide_eq_true_2 _ HQ). f_equal. unfold Q1_cell_3D.
  replace (dm_Xm dm + dm_Xs dm - dm_Xs dm)%nat with (dm_Xm dm) by lia.
  replace (dm_Ym dm + dm_Ys dm - dm_Ys dm)%nat with (dm_Ym dm) by lia.
  reflexivity.
Qed.

Lemma cell_in_axis (s m S M d : nat) :
  patch_axis s m S M -> (d < cells_along s m S)%nat ->
  (first_cell s S + d - S + 1 < M)%nat.
Proof.
  unfold patch_axis, cells_along, first_cell. intros (H1 & H2 & H3).
  destruct (decide (s <> S)) as [Hne|Heq].
  - rewrite !(bool_decide_eq_true_2 _ Hne). lia.
  - rewrite !(bool_decide_eq_false_2 _ Heq). lia.
Qed.

(** X1. For a Q1 grid whose owned patch is not empty and lies within the ghosted
    patch, [DMDAGetElements_2D] counts the cells of the patch, four nodes
    each, and lists the cells row by row, every cell counter-clockwise from
    its node with the lowest indices: node [c] of the cell in column [di]
    and row [dj] is at position [4 (di + dj nx) + c]. *)
Theorem DMDAGetElements_2D_layout (dm : DM) (di dj c : nat) :
  dm_elementtype dm = DMDA_ELEMENT_Q1 ->
  patch_axis (dm_xs dm) (dm_xm dm) (dm_Xs dm) (dm_Xm dm) ->
  patch_axis (dm_ys dm) (dm_ym dm) (dm_Ys dm) (dm_Ym dm) ->
  let fx := first_cell (dm_xs dm) (dm_Xs dm) in
  let fy := first_cell (dm_ys dm) (dm_Ys dm) in
  let nx := cells_along (dm_xs dm) (dm_xm dm) (dm_Xs dm) in
  let ny := cells_along (dm_ys dm) (dm_ym dm) (dm_Ys dm) in
  let r := DMDAGetElements_2D dm in
  r.1.1 = (nx * ny)%nat /\ r.1.2 = 4%nat /\ length r.2 = (4 * (nx * ny))%nat
  /\ ((di < nx)%nat -> (dj < ny)%nat -> (c < 4)%nat ->
      r.2 !! (4 * (di + dj * nx) + c)%nat
      = Q1_cell (dm_Xm dm) (fx + di - dm_Xs dm) (fy + dj - dm_Ys dm) !! c).
Proof.
  intros HQ _ _ fx fy nx ny r. subst r.
  rewrite (DMDAGetElements_2D_cells dm HQ). fold fx fy nx ny. cbn [fst snd].
  split; [reflexivity|]. split; [reflexivity|]. split.
  - rewrite (flat_map_seq_length (4 * nx)); [lia|].
    intros j _. apply flat_map_seq_length. intros; reflexivity.
  - intros Hi Hj Hc.
    replace (4 * (di + dj * nx) + c)%nat with (4 * nx * dj + (4 * di + c))%nat by lia.
    rewrite (flat_map_seq_lookup (4 * nx)); [| |assumption|lia].
    + apply (flat_map_seq_lookup 4 nx (fun di =>
        Q1_cell (dm_Xm dm) (fx + di - dm_Xs dm) (fy + dj - dm_Ys dm)));
        [intros; reflexivity|assumption|assumption].
    + intros j _. apply flat_map_seq_length. intros; reflexivity.
Qed.

(** X2. Every node index [DMDAGetElements_2D] returns for a Q1 grid whose
    owned patch is not empty and lies within the ghosted patch is a local
    index of the ghosted patch. *)
Theorem DMDAGetElements_2D_in_patch (dm : DM) :
  dm_elementtype dm = DMDA_ELEMENT_Q1 ->
  patch_axis (dm_xs dm) (dm_xm dm) (dm_Xs dm) (dm_Xm dm) ->
  patch_axis (dm_ys dm) (dm_ym dm) (dm_Ys dm) (dm_Ym dm) ->
  Forall (fun n => (n < dm_Xm dm * dm_Ym dm)%nat) (DMDAGetElements_2D dm).2.
Proof.
  intros HQ Hx Hy.
  rewrite (DMDAGetElements_2D_cells dm HQ). cbn [snd].
  apply flat_map_seq_Forall. intros dj Hdj.
  apply flat_map_seq_Forall. intros di Hdi.
  pose proof (cell_in_axis _ _ _ _ di Hx Hdi) as Hi.
  pose proof (cell_in_axis _ _ _ _ dj Hy Hdj) as Hj.
  revert Hi Hj.
  generalize (first_cell (dm_xs dm) (dm_Xs dm) + di - dm_Xs dm)%nat as i.
  generalize (first_cell (dm_ys dm) (dm_Ys dm) + dj - dm_Ys dm)%nat as j.
  intros j i Hi Hj.
  assert (B1 : (j * dm_Xm dm + 2 * dm_Xm dm <= dm_Xm dm * dm_Ym dm)%nat) by nia.
  unfold Q1_cell. repeat constructor; lia.
Qed.

(** X3. For a Q1 grid whose owned patch is not empty and lies within the ghosted
    patch, [DMDAGetElements_3D] counts the cells of the patch, eight nodes
    each, and lists them layer by layer and row by row: the lower face of a
    cell counter-clockwise from its node with the lowest indices, then its
    upper face; node [c] of the cell [(di, dj, dk)] is at position
    [8 (di + dj nx + dk nx ny) + c]. *)
Theorem DMDAGetElements_3D_layout (dm : DM) (di dj dk c : nat) :
  dm_elementtype dm = DMDA_ELEMENT_Q1 ->
  patch_axis (dm_xs dm) (dm_xm dm) (dm_Xs dm) (dm_Xm dm) ->
  patch_axis (dm_ys dm) (dm_ym dm) (dm_Ys dm) (dm_Ym dm) ->
  patch_axis (dm_zs dm) (dm_zm dm) (dm_Zs dm) (dm_Zm dm) ->
  let fx := first_cell (dm_xs dm) (dm_Xs dm) in
  let fy := first_cell (dm_ys dm) (dm_Ys dm) in
  let fz := first_cell (dm_zs dm) (dm_Zs dm) in
  let nx := cells_along (dm_xs dm) (dm_xm dm) (dm_Xs dm) in
  let ny := cells_along (dm_ys dm) (dm_ym dm) (dm_Ys dm) in
  let nz := cells_along (dm_zs dm) (dm_zm dm) (dm_Zs dm) in
  let r := DMDAGetElements_3D dm in
  r.1.1 = (nx * ny * nz)%nat /\ r.1.2 = 8%nat
  /\ length r.2 = (8 * (nx * ny * nz))%nat
  /\ ((di < nx)%nat -> (dj < ny)%nat -> (dk < nz)%nat -> (c < 8)%nat ->
      r.2 !! (8 * (di + dj * nx + dk * nx * ny) + c)%nat
      = Q1_cell_3D (dm_Xm dm) (dm_Ym dm) (fx + di - dm_Xs dm)
          (fy + dj - dm_Ys dm) (fz + dk - dm_Zs dm) !! c).
Proof.
  intros HQ _ _ _ fx fy fz nx ny nz r. subst r.
  rewrite (DMDAGetElements_3D_cells dm HQ). fold fx fy fz nx ny nz. cbn [fst snd].
  assert (Hrow : forall dk dj, length (flat_map (fun di =>
            Q1_cell_3D (dm_Xm dm) (dm_Ym dm) (fx + di - dm_Xs dm)
              (fy + dj - dm_Ys dm) (fz + dk - dm_Zs dm)) (seq 0 nx))
          = (8 * nx)%nat)
    by (intros; apply flat_map_seq_length; intros; reflexivity).
  assert (Hlayer : forall dk, length (flat_map (fun dj => flat_map (fun di =>
            Q1_cell_3D (dm_Xm dm) (dm_Ym dm) (fx + di - dm_Xs dm)
              (fy + dj - dm_Ys dm) (fz + dk - dm_Zs dm)) (seq 0 nx)) (seq 0 ny))
          = (8 * nx * ny)%nat)
    by (intros; apply flat_map_seq_length; intros; apply Hrow).
  split; [reflexivity|]. split; [reflexivity|]. split.
  - rewrite (flat_map_seq_length (8 * nx * ny)); [lia|]. intros; apply Hlayer.
  - intros Hi Hj Hk Hc.
    replace (8 * (di + dj * nx + dk * nx * ny) + c)%nat
      with (8 * nx * ny * dk + (8 * nx * dj + (8 * di + c)))%nat by lia.
    rewrite (flat_map_seq_lookup (8 * nx * ny));
      [|intros; apply Hlayer|assumption|nia].
    rewrite (flat_map_seq_lookup (8 * nx));
      [|intros; apply Hrow|assumption|lia].
    apply (flat_map_seq_lookup 8 nx (fun di =>
      Q1_cell_3D (dm_Xm dm) (dm_Ym dm) (fx + di - dm_Xs dm)
        (fy + dj - dm_Ys dm) (fz + dk - dm_Zs dm)));
      [intros; reflexivity|assumption|assumption].
Qed.

(** X4. Every node index [DMDAGetElements_3D] returns for a Q1 grid whose
    owned patch is not empty and lies within the ghosted patch is a local
    index of the ghosted patch. *)
Theorem DMDAGetElements_3D_in_patch (dm : DM) :
  dm_elementtype dm = DMDA_ELEMENT_Q1 ->
  patch_axis (dm_xs dm) (dm_xm dm) (dm_Xs dm) (dm_Xm dm) ->
  patch_axis (dm_ys dm) (dm_ym dm) (dm_Ys dm) (dm_Ym dm) ->
  patch_axis (dm_zs dm) (dm_zm dm) (dm_Zs dm) (dm_Zm dm) ->
  Forall (fun n => (n < dm_Xm dm * dm_Ym dm * dm_Zm dm)%nat)
    (DMDAGetElements_3D dm).2.
Proof.
  intros HQ Hx Hy Hz.
  rewrite (DMDAGetElements_3D_cells dm HQ). cbn [snd].
  apply flat_map_seq_Forall. intros dk Hdk.
  apply flat_map_seq_Forall. intros dj Hdj.
  apply flat_map_seq_Forall. intros di Hdi.
  pose proof (cell_in_axis _ _ _ _ di Hx Hdi) as Hi.
  pose proof (cell_in_axis _ _ _ _ dj Hy Hdj) as Hj.
  pose proof (cell_in_axis _ _ _ _ dk Hz Hdk) as Hk.
  revert Hi Hj Hk.
  generalize (first_cell (dm_xs dm) (dm_Xs dm) + di - dm_Xs dm)%nat as i.
  generalize (first_cell (dm_ys dm) (dm_Ys dm) + dj - dm_Ys dm)%nat as j.
  generalize (first_cell (dm_zs dm) (dm_Zs dm) + dk - dm_Zs dm)%nat as k.
  generalize (dm_Xm dm) as W. generalize (dm_Ym dm) as Hh. generalize (dm_Zm dm) as D.
  intros D Hh W k j i Hi Hj Hk.
  assert (B1 : (j * W + 2 * W <= W * Hh)%nat) by nia.
  assert (B2 : (k * W * Hh + 2 * (W * Hh) <= W * Hh * D)%nat) by nia.
  unfold Q1_cell_3D. repeat constructor; lia.
Qed.

(** *** The 3 x 3 grid and the 2 x 2 x 2 grid *)

Lemma grid_3x3_patch :
  dm_elementtype grid_3x3 = DMDA_ELEMENT_Q1
  /\ patch_axis (dm_xs grid_3x3) (dm_xm grid_3x3) (dm_Xs grid_3x3) (dm_Xm grid_3x3)
  /\ patch_axis (dm_ys grid_3x3) (dm_ym grid_3x3) (dm_Ys grid_3x3) (dm_Ym grid_3x3).
Proof. unfold patch_axis. cbn. repeat split; lia. Defined.

Lemma grid_2x2x2_patch :
  dm_elementtype grid_2x2x2 = DMDA_ELEMENT_Q1
  /\ patch_axis (dm_xs grid_2x2x2) (dm_xm grid_2x2x2) (dm_Xs grid_2x2x2) (dm_Xm grid_2x2x2)
  /\ patch_axis (dm_ys grid_2x2x2) (dm_ym grid_2x2x2) (dm_Ys grid_2x2x2) (dm_Ym grid_2x2x2)
  /\ patch_axis (dm_zs grid_2x2x2) (dm_zm grid_2x2x2) (dm_Zs grid_2x2x2) (dm_Zm grid_2x2x2).
Proof. unfold patch_axis. cbn. repeat split; lia. Defined.

Lemma DMDAGetElements_2D_layout_witness :
  (dm_elementtype grid_3x3 = DMDA_ELEMENT_Q1
   /\ patch_axis (dm_xs grid_3x3) (dm_xm grid_3x3) (dm_Xs grid_3x3) (dm_Xm grid_3x3)
   /\ patch_axis (dm_ys grid_3x3) (dm_ym grid_3x3) (dm_Ys grid_3x3) (dm_Ym grid_3x3))
  /\ (DMDAGetElements_2D grid_3x3).2 !! 14%nat = Some 8%nat.
Proof.
  split; [exact grid_3x3_patch|].
  destruct grid_3x3_patch as (HQ & Hx & Hy).
  exact (proj2 (proj2 (proj2 (DMDAGetElements_2D_layout grid_3x3 1 1 2 HQ Hx Hy)))
           ltac:(vm_compute; lia) ltac:(vm_compute; lia) ltac:(lia)).
Defined.

Lemma DMDAGetElements_2D_in_patch_witness :
  (dm_elementtype grid_3x3 = DMDA_ELEMENT_Q1
   /\ patch_axis (dm_xs grid_3x3) (dm_xm grid_3x3) (dm_Xs grid_3x3) (dm_Xm grid_3x3)
   /\ patch_axis (dm_ys grid_3x3) (dm_ym grid_3x3) (dm_Ys grid_3x3) (dm_Ym grid_3x3))
  /\ Forall (fun n => (n < 3 * 3)%nat) (DMDAGetElements_2D grid_3x3).2.
Proof.
  split; [exact grid_3x3_patch|].
  destruct grid_3x3_patch as (HQ & Hx & Hy).
  exact (DMDAGetElements_2D_in_patch grid_3x3 HQ Hx Hy).
Defined.

Lemma DMDAGetElements_3D_layout_witness :
  (dm_elementtype grid_2x2x2 = DMDA_ELEMENT_Q1
   /\ patch_axis (dm_xs grid_2x2x2) (dm_xm grid_2x2x2) (dm_Xs grid_2x2x2) (dm_Xm grid_2x2x2)
   /\ patch_axis (dm_ys grid_2x2x2) (dm_ym grid_2x2x2) (dm_Ys grid_2x2x2) (dm_Ym grid_2x2x2)
   /\ patch_axis (dm_zs grid_2x2x2) (dm_zm grid_2x2x2) (dm_Zs grid_2x2x2) (dm_Zm grid_2x2x2))
  /\ (DMDAGetElements_3D grid_2x2x2).2 !! 6%nat = Some 7%nat.
Proof.
  split; [exact grid_2x2x2_patch|].
  destruct grid_2x2x2_patch as (HQ & Hx & Hy & Hz).
  exact (proj2 (proj2 (proj2 (DMDAGetElements_3D_layout grid_2x2x2 0 0 0 6 HQ Hx Hy Hz)))
           ltac:(vm_compute; lia) ltac:(vm_compute; lia) ltac:(vm_compute; lia) ltac:(lia)).
Defined.

Lemma DMDAGetElements_3D_in_patch_witness :
  (dm_elementtype grid_2x2x2 = DMDA_ELEMENT_Q1
   /\ patch_axis (dm_xs grid_2x2x2) (dm_xm grid_2x2x2) (dm_Xs grid_2x2x2) (dm_Xm grid_2x2x2)
   /\ patch_axis (dm_ys grid_2x2x2) (dm_ym grid_2x2x2) (dm_Ys grid_2x2x2) (dm_Ym grid_2x2x2)
   /\ patch_axis (dm_zs grid_2x2x2) (dm_zm grid_2x2x2) (dm_Zs grid_2x2x2) (dm_Zm grid_2x2x2))
  /\ Forall (fun n => (n < 2 * 2 * 2)%nat) (DMDAGetElements_3D grid_2x2x2).2.
Proof.
  split; [exact grid_2x2x2_patch|].
  destruct grid_2x2x2_patch as (HQ & Hx & Hy & Hz).
  exact (DMDAGetElements_3D_in_patch grid_2x2x2 HQ Hx Hy Hz).
Defined.

(** ** Element kernel *)

(** X5. When the determinant it returns is not zero, the matrix [Inverse2M]
    writes is the inverse of its argument, on both sides. *)
Theorem Inverse2M_inverts (J : list (list R)) (i j : nat) :
  (Inverse2M J).1 <> 0 -> (i < 2)%nat -> (j < 2)%nat ->
  mat_mul 2 J (Inverse2M J).2 i j = (if bool_decide (i = j) then 1 else 0)
  /\ mat_mul 2 (Inverse2M J).2 J i j = (if bool_decide (i = j) then 1 else 0).
Proof.
  unfold Inverse2M, mat_mul, get2.
  cbn [fst snd sum_n]. intros Hdet Hi Hj.
  destruct i as [|[|i]]; [| |lia]; destruct j as [|[|j]]; try lia;
    cbn [lookup_total list_lookup_total];
    (case_bool_decide; [|try congruence]; try lia);
    split; field; exact Hdet.
Qed.

Lemma Inverse2M_inverts_witness :
  (Inverse2M [[2; 1]; [1; 1]]).1 <> 0
  /\ mat_mul 2 [[2; 1]; [1; 1]] (Inverse2M [[2; 1]; [1; 1]]).2 0 1
     = (if bool_decide (0 = 1)%nat then 1 else 0).
Proof.
  assert (Hd : (Inverse2M [[2; 1]; [1; 1]]).1 <> 0)
    by (unfold Inverse2M, get2; cbn [fst lookup_total list_lookup_total]; lra).
  split; [exact Hd|].
  exact (proj1 (Inverse2M_inverts [[2; 1]; [1; 1]] 0 1 Hd ltac:(lia) ltac:(lia))).
Defined.

(** X6. When the determinant it returns is not zero, the matrix [Inverse3M]
    writes is the inverse of its argument, on both sides. *)
Theorem Inverse3M_inverts (J : list (list R)) (i j : nat) :
  (Inverse3M J).1 <> 0 -> (i < 3)%nat -> (j < 3)%nat ->
  mat_mul 3 J (Inverse3M J).2 i j = (if bool_decide (i = j) then 1 else 0)
  /\ mat_mul 3 (Inverse3M J).2 J i j = (if bool_decide (i = j) then 1 else 0).
Proof.
  unfold Inverse3M, mat_mul, get2.
  cbn [fst snd sum_n]. intros Hdet Hi Hj.
  destruct i as [|[|[|i]]]; [| | |lia]; destruct j as [|[|[|j]]]; try lia;
    cbn [lookup_total list_lookup_total];
    (case_bool_decide; [|try congruence]; try lia);
    split; field; exact Hdet.
Qed.

Lemma Inverse3M_inverts_witness :
  (Inverse3M [[2; 0; 0]; [0; 1; 1]; [0; 0; 1]]).1 <> 0
  /\ mat_mul 3 [[2; 0; 0]; [0; 1; 1]; [0; 0; 1]]
       (Inverse3M [[2; 0; 0]; [0; 1; 1]; [0; 0; 1]]).2 1 2
     = (if bool_decide (1 = 2)%nat then 1 else 0).
Proof.
  assert (Hd : (Inverse3M [[2; 0; 0]; [0; 1; 1]; [0; 0; 1]]).1 <> 0)
    by (unfold Inverse3M, get2; cbn [fst lookup_total list_lookup_total]; lra).
  split; [exact Hd|].
  exact (proj1 (Inverse3M_inverts [[2; 0; 0]; [0; 1; 1]; [0; 0; 1]] 1 2 Hd
                  ltac:(lia) ltac:(lia))).
Defined.

(** *** The quadrature as a sum of Gram matrices *)

Lemma gauss_term_2D_gram (X Y : list R) (xi eta wi wj : R) (i j : nat) :
  gauss_term_2D X Y xi eta wi wj i j
  = wi * wj * (Inverse2M (Jacobian_2D X Y xi eta)).1
    * sum_n 2 (fun k => gradient_2D X Y xi eta k i * gradient_2D X Y xi eta k j).
Proof.
  unfold gauss_term_2D, gradient_2D, Jacobian_2D.
  destruct (DifferentiatedShapeFunctions_2D xi eta) as [dNdxi dNdeta].
  cbv beta iota zeta.
  generalize (Inverse2M
    [[dot_n 4 dNdxi X; dot_n 4 dNdxi Y]; [dot_n 4 dNdeta X; dot_n 4 dNdeta Y]]) as r.
  intros [detJ invJ]. cbn [fst snd sum_n]. unfold unit_conductivity.
  rewrite !(bool_decide_eq_true_2 (0%nat = 0%nat)) by reflexivity.
  rewrite !(bool_decide_eq_true_2 (1%nat = 1%nat)) by reflexivity.
  rewrite !(bool_decide_eq_false_2 (0%nat = 1%nat)) by lia.
  rewrite !(bool_decide_eq_false_2 (1%nat = 0%nat)) by lia.
  ring.
Qed.

Lemma gradient_2D_sum (X Y : list R) (xi eta : R) (k : nat) :
  sum_n 4 (fun a => gradient_2D X Y xi eta k a) = 0.
Proof.
  unfold gradient_2D, DifferentiatedShapeFunctions_2D. cbv beta iota zeta.
  generalize (Inverse2M (Jacobian_2D X Y xi eta)).2 as invJ. intros invJ.
  cbn [sum_n lookup_total list_lookup_total].
  replace (-0.25) with (- (0.25)) by lra. ring.
Qed.

Lemma Quad4_quadrature_gram (g : R) (reduced : bool) (X Y : list R) (i j : nat) :
  Quad4_quadrature g reduced X Y i j
  = sum_list (gauss_rule g reduced) (fun p =>
      sum_list (gauss_rule g reduced) (fun q =>
        p.2 * q.2 * (Inverse2M (Jacobian_2D X Y p.1 q.1)).1
        * sum_n 2 (fun k => gradient_2D X Y p.1 q.1 k i * gradient_2D X Y p.1 q.1 k j))).
Proof.
  unfold Quad4_quadrature. apply sum_list_ext. intros p. apply sum_list_ext. intros q.
  apply gauss_term_2D_gram.
Qed.

Lemma gauss_rule_weight (g : R) (reduced : bool) (p : R * R) :
  p ∈ gauss_rule g reduced -> 0 <= p.2.
Proof.
  unfold gauss_rule. destruct reduced; intros Hp.
  - apply list_elem_of_singleton in Hp. subst p. cbn. lra.
  - apply elem_of_cons in Hp. destruct Hp as [->|Hp]; [cbn; lra|].
    apply list_elem_of_singleton in Hp. subst p. cbn. lra.
Qed.

Lemma Quad4Isoparametric_symmetric (X Y : list R) (reduced : bool) (ke : list R)
    (i j : nat) :
  length ke = 16%nat -> (i < 4)%nat -> (j < 4)%nat ->
  Quad4Isoparametric X Y (redInt_of reduced) ke !!! (j + 4 * i)%nat
  = Quad4Isoparametric X Y (redInt_of reduced) ke !!! (i + 4 * j)%nat.
Proof.
  intros Hlen Hi Hj.
  rewrite !Quad4Isoparametric_refines by assumption.
  rewrite !Quad4_quadrature_gram.
  apply sum_list_ext. intros p. apply sum_list_ext. intros q.
  f_equal. apply sum_n_ext. intros k _. ring.
Qed.

Lemma Quad4Isoparametric_row_sum (X Y : list R) (reduced : bool) (ke : list R)
    (i : nat) :
  length ke = 16%nat -> (i < 4)%nat ->
  sum_n 4 (fun c => Quad4Isoparametric X Y (redInt_of reduced) ke !!! (c + 4 * i)%nat)
  = 0.
Proof.
  intros Hlen Hi.
  rewrite (sum_n_ext 4 _ (fun c => Quad4_quadrature gauss_point_code reduced X Y i c))
    by (intros c Hc; apply Quad4Isoparametric_refines; assumption).
  rewrite (sum_n_ext 4 _ _ (fun c _ => Quad4_quadrature_gram _ _ _ _ i c)).
  rewrite sum_n_sum_list.
  rewrite (sum_list_ext _ _ (fun _ => 0)); [apply sum_list_zero|].
  intros p. rewrite sum_n_sum_list.
  rewrite (sum_list_ext _ _ (fun _ => 0)); [apply sum_list_zero|].
  intros q. rewrite sum_n_scale.
  rewrite sum_n_swap.
  rewrite (sum_n_ext 2 _ (fun _ => 0)); [rewrite sum_n_zero; ring|].
  intros k _. rewrite sum_n_scale, gradient_2D_sum. ring.
Qed.

Lemma rectangle_Jacobian (dx dy xi eta : R) :
  (Inverse2M (Jacobian_2D [0.0; dx; dx; 0.0] [0.0; 0.0; dy; dy] xi eta)).1
  = dx * dy / 4.
Proof.
  unfold Jacobian_2D, DifferentiatedShapeFunctions_2D, Inverse2M, dot_n, get2.
  cbn [fst sum_n lookup_total list_lookup_total].
  replace (-0.25) with (- (1 / 4)) by lra. replace 0.25 with (1 / 4) by lra.
  replace 1.0 with 1 by lra. replace 0.0 with 0 by lra. field.
Qed.

(** X7. For an element that is not degenerate (the determinant of the
    Jacobian, by which the kernel divides without a test, is not zero at the
    Gauss points), the element matrix [Quad4Isoparametric] returns is
    symmetric and each of its rows sums to zero (a uniform temperature
    conducts no heat), with either integration rule. *)
Theorem Quad4Isoparametric_symmetric_zero_row_sums
    (X Y : list R) (reduced : bool) (ke : list R) (i j : nat) :
  length ke = 16%nat -> (i < 4)%nat -> (j < 4)%nat ->
  nonsingular_2D reduced X Y ->
  let Ke := Quad4Isoparametric X Y (redInt_of reduced) ke in
  Ke !!! (j + 4 * i)%nat = Ke !!! (i + 4 * j)%nat
  /\ sum_n 4 (fun c => Ke !!! (c + 4 * i)%nat) = 0.
Proof.
  intros Hlen Hi Hj _ Ke. subst Ke. split.
  - apply Quad4Isoparametric_symmetric; assumption.
  - apply Quad4Isoparametric_row_sum; assumption.
Qed.

Lemma Quad4Isoparametric_symmetric_zero_row_sums_witness :
  (length (replicate 16 7) = 16%nat
   /\ nonsingular_2D true [0.0; 2; 2; 0.0] [0.0; 0.0; 1; 1])
  /\ sum_n 4 (fun c =>
       Quad4Isoparametric [0.0; 2; 2; 0.0] [0.0; 0.0; 1; 1] 1 (replicate 16 7)
         !!! (c + 4 * 2)%nat) = 0.
Proof.
  assert (Hdet : nonsingular_2D true [0.0; 2; 2; 0.0] [0.0; 0.0; 1; 1])
    by (intros p q _ _; rewrite rectangle_Jacobian; lra).
  split; [split; [reflexivity|exact Hdet]|].
  exact (proj2 (Quad4Isoparametric_symmetric_zero_row_sums
                  [0.0; 2; 2; 0.0] [0.0; 0.0; 1; 1] true (replicate 16 7) 2 0
                  eq_refl ltac:(lia) ltac:(lia) Hdet)).
Defined.

Lemma Quad4_quadrature_psd (g : R) (reduced : bool) (X Y : list R) (u : nat -> R) :
  (forall xi eta, 0 <= (Inverse2M (Jacobian_2D X Y xi eta)).1) ->
  0 <= sum_n 4 (fun i => sum_n 4 (fun j =>
         u i * Quad4_quadrature g reduced X Y i j * u j)).
Proof.
  intros Hdet.
  rewrite (sum_n_ext 4 _ (fun i => sum_list (gauss_rule g reduced) (fun p =>
     sum_n 4 (fun j => sum_list (gauss_rule g reduced) (fun q =>
       u i * (p.2 * q.2 * (Inverse2M (Jacobian_2D X Y p.1 q.1)).1
              * sum_n 2 (fun k => gradient_2D X Y p.1 q.1 k i
                                  * gradient_2D X Y p.1 q.1 k j)) * u j))))).
  2: { intros i _. rewrite <- sum_n_sum_list. apply sum_n_ext. intros j _.
       rewrite Quad4_quadrature_gram, sum_list_scale.
       apply sum_list_ext. intros p. apply sum_list_scale. }
  rewrite sum_n_sum_list. apply sum_list_nonneg. intros p Hp.
  rewrite (sum_n_ext 4 _ (fun i => sum_list (gauss_rule g reduced) (fun q =>
     sum_n 4 (fun j =>
       u i * (p.2 * q.2 * (Inverse2M (Jacobian_2D X Y p.1 q.1)).1
              * sum_n 2 (fun k => gradient_2D X Y p.1 q.1 k i
                                  * gradient_2D X Y p.1 q.1 k j)) * u j))))
    by (intros i _; apply sum_n_sum_list).
  rewrite sum_n_sum_list. apply sum_list_nonneg. intros q Hq.
  rewrite gram_quadratic_form.
  apply Rmult_le_pos.
  - apply Rmult_le_pos; [apply Rmult_le_pos; eauto using gauss_rule_weight|apply Hdet].
  - apply sum_n_nonneg. intros k _. apply Rle_0_sqr.
Qed.

Lemma rectangle_quadrature_psd (dx dy : R) (reduced : bool) (u : nat -> R) :
  0 < dx -> 0 < dy ->
  0 <= sum_n 4 (fun i => sum_n 4 (fun j =>
         u i * Quad4_quadrature gauss_point_code reduced
                 [0.0; dx; dx; 0.0] [0.0; 0.0; dy; dy] i j * u j)).
Proof.
  intros Hdx Hdy.
  apply Quad4_quadrature_psd. intros xi eta. rewrite rectangle_Jacobian.
  apply Rlt_le. apply Rdiv_lt_0_compat; [apply Rmult_lt_0_compat; assumption|lra].
Qed.

(** X8. The matrix of a rectangular element of positive edge lengths, the one
    the 2-D [SetUpLoadAndBC] caches, is positive semi-definite: the quadratic
    form [u^T KE u] is not negative. *)
Theorem Quad4Isoparametric_rectangle_psd
    (dx dy : R) (reduced : bool) (ke : list R) (u : nat -> R) :
  0 < dx -> 0 < dy -> length ke = 16%nat ->
  0 <= quadratic_form_of 4
         (Quad4Isoparametric [0.0; dx; dx; 0.0] [0.0; 0.0; dy; dy]
            (redInt_of reduced) ke) u.
Proof.
  intros Hdx Hdy Hlen. unfold quadratic_form_of.
  rewrite (sum_n_ext 4 _ (fun i => sum_n 4 (fun j =>
     u i * Quad4_quadrature gauss_point_code reduced
             [0.0; dx; dx; 0.0] [0.0; 0.0; dy; dy] i j * u j))).
  2: { intros i Hi. apply sum_n_ext. intros j Hj.
       replace (i * 4 + j)%nat with (j + 4 * i)%nat by lia.
       rewrite Quad4Isoparametric_refines by assumption. reflexivity. }
  apply rectangle_quadrature_psd; assumption.
Qed.

Lemma Quad4Isoparametric_rectangle_psd_witness :
  0 < 1 /\ 0 < 2 /\ length (replicate 16 0) = 16%nat
  /\ 0 <= quadratic_form_of 4
            (Quad4Isoparametric [0.0; 1; 1; 0.0] [0.0; 0.0; 2; 2] 0 (replicate 16 0))
            (fun i => INR i).
Proof.
  assert (H1 : 0 < 1) by lra. assert (H2 : 0 < 2) by lra.
  split; [exact H1|]. split; [exact H2|]. split; [reflexivity|].
  exact (Quad4Isoparametric_rectangle_psd 1 2 false (replicate 16 0)
           (fun i => INR i) H1 H2 eq_refl).
Defined.

(** *** The 3-D kernel *)

Lemma gauss_term_3D_gram (X Y Z : list R) (xi eta zeta wi wj wk : R) (i j : nat) :
  gauss_term_3D X Y Z xi eta zeta wi wj wk i j
  = wi * wj * wk * (Inverse3M (Jacobian_3D X Y Z xi eta zeta)).1
    * sum_n 3 (fun k => gradient_3D X Y Z xi eta zeta k i
                        * gradient_3D X Y Z xi eta zeta k j).
Proof.
  unfold gauss_term_3D, gradient_3D, Jacobian_3D.
  destruct (DifferentiatedShapeFunctions xi eta zeta) as [[dNdxi dNdeta] dNdzeta].
  cbv beta iota zeta.
  generalize (Inverse3M
    [[dot_n 8 dNdxi X; dot_n 8 dNdxi Y; dot_n 8 dNdxi Z];
     [dot_n 8 dNdeta X; dot_n 8 dNdeta Y; dot_n 8 dNdeta Z];
     [dot_n 8 dNdzeta X; dot_n 8 dNdzeta Y; dot_n 8 dNdzeta Z]]) as r.
  intros [detJ invJ]. cbn [fst snd sum_n]. unfold unit_conductivity.
  rewrite !(bool_decide_eq_true_2 (0%nat = 0%nat)) by reflexivity.
  rewrite !(bool_decide_eq_true_2 (1%nat = 1%nat)) by reflexivity.
  rewrite !(bool_decide_eq_true_2 (2%nat = 2%nat)) by reflexivity.
  rewrite !(bool_decide_eq_false_2 (0%nat = 1%nat)) by lia.
  rewrite !(bool_decide_eq_false_2 (1%nat = 0%nat)) by lia.
  rewrite !(bool_decide_eq_false_2 (0%nat = 2%nat)) by lia.
  rewrite !(bool_decide_eq_false_2 (2%nat = 0%nat)) by lia.
  rewrite !(bool_decide_eq_false_2 (1%nat = 2%nat)) by lia.
  rewrite !(bool_decide_eq_false_2 (2%nat = 1%nat)) by lia.
  ring.
Qed.

Lemma gradient_3D_sum (X Y Z : list R) (xi eta zeta : R) (k : nat) :
  sum_n 8 (fun a => gradient_3D X Y Z xi eta zeta k a) = 0.
Proof.
  unfold gradient_3D.
  generalize (Inverse3M (Jacobian_3D X Y Z xi eta zeta)).2 as invJ. intros invJ.
  unfold DifferentiatedShapeFunctions. cbv beta iota zeta.
  cbn [sum_n lookup_total list_lookup_total].
  replace (-0.125) with (- (0.125)) by lra. ring.
Qed.

Lemma Hex8_quadrature_gram (g : R) (reduced : bool) (X Y Z : list R) (i j : nat) :
  Hex8_quadrature g reduced X Y Z i j
  = sum_list (gauss_rule g reduced) (fun p =>
      sum_list (gauss_rule g reduced) (fun q =>
        sum_list (gauss_rule g reduced) (fun r =>
          p.2 * q.2 * r.2 * (Inverse3M (Jacobian_3D X Y Z p.1 q.1 r.1)).1
          * sum_n 3 (fun k => gradient_3D X Y Z p.1 q.1 r.1 k i
                              * gradient_3D X Y Z p.1 q.1 r.1 k j)))).
Proof.
  unfold Hex8_quadrature. apply sum_list_ext. intros p. apply sum_list_ext. intros q.
  apply sum_list_ext. intros r. apply gauss_term_3D_gram.
Qed.

Lemma Hex8Isoparametric_symmetric (X Y Z : list R) (reduced : bool) (ke : list R)
    (i j : nat) :
  length ke = 64%nat -> (i < 8)%nat -> (j < 8)%nat ->
  Hex8Isoparametric X Y Z (redInt_of reduced) ke !!! (j + 8 * i)%nat
  = Hex8Isoparametric X Y Z (redInt_of reduced) ke !!! (i + 8 * j)%nat.
Proof.
  intros Hlen Hi Hj.
  rewrite !Hex8Isoparametric_refines by assumption.
  rewrite !Hex8_quadrature_gram.
  apply sum_list_ext. intros p. apply sum_list_ext. intros q.
  apply sum_list_ext. intros r.
  f_equal. apply sum_n_ext. intros k _. ring.
Qed.

Lemma Hex8Isoparametric_row_sum (X Y Z : list R) (reduced : bool) (ke : list R)
    (i : nat) :
  length ke = 64%nat -> (i < 8)%nat ->
  sum_n 8 (fun c => Hex8Isoparametric X Y Z (redInt_of reduced) ke !!! (c + 8 * i)%nat)
  = 0.
Proof.
  intros Hlen Hi.
  rewrite (sum_n_ext 8 _ (fun c => Hex8_quadrature gauss_point_code reduced X Y Z i c))
    by (intros c Hc; apply Hex8Isoparametric_refines; assumption).
  rewrite (sum_n_ext 8 _ _ (fun c _ => Hex8_quadrature_gram _ _ _ _ _ i c)).
  rewrite sum_n_sum_list.
  rewrite (sum_list_ext _ _ (fun _ => 0)); [apply sum_list_zero|].
  intros p. rewrite sum_n_sum_list.
  rewrite (sum_list_ext _ _ (fun _ => 0)); [apply sum_list_zero|].
  intros q. rewrite sum_n_sum_list.
  rewrite (sum_list_ext _ _ (fun _ => 0)); [apply sum_list_zero|].
  intros r. rewrite sum_n_scale.
  rewrite sum_n_swap.
  rewrite (sum_n_ext 3 _ (fun _ => 0)); [rewrite sum_n_zero; ring|].
  intros k _. rewrite sum_n_scale, gradient_3D_sum. ring.
Qed.

Lemma box_Jacobian (dx dy dz xi eta zeta : R) :
  (Inverse3M (Jacobian_3D [0.0; dx; dx; 0.0; 0.0; dx; dx; 0.0]
                [0.0; 0.0; dy; dy; 0.0; 0.0; dy; dy]
                [0.0; 0.0; 0.0; 0.0; dz; dz; dz; dz] xi eta zeta)).1
  = dx * dy * dz / 8.
Proof.
  unfold Jacobian_3D, DifferentiatedShapeFunctions, Inverse3M, dot_n, get2.
  cbn [fst sum_n lookup_total list_lookup_total].
  replace (-0.125) with (- (1 / 8)) by lra. replace 0.125 with (1 / 8) by lra.
  replace 1.0 with 1 by lra. replace 0.0 with 0 by lra. field.
Qed.

(** X9. For an element that is not degenerate (the determinant of the
    Jacobian, by which the kernel divides without a test, is not zero at the
    Gauss points), the element matrix [Hex8Isoparametric] returns is
    symmetric and each of its rows sums to zero (a uniform temperature
    conducts no heat), with either integration rule. *)
Theorem Hex8Isoparametric_symmetric_zero_row_sums
    (X Y Z : list R) (reduced : bool) (ke : list R) (i j : nat) :
  length ke = 64%nat -> (i < 8)%nat -> (j < 8)%nat ->
  nonsingular_3D reduced X Y Z ->
  let Ke := Hex8Isoparametric X Y Z (redInt_of reduced) ke in
  Ke !!! (j + 8 * i)%nat = Ke !!! (i + 8 * j)%nat
  /\ sum_n 8 (fun c => Ke !!! (c + 8 * i)%nat) = 0.
Proof.
  intros Hlen Hi Hj _ Ke. subst Ke. split.
  - apply Hex8Isoparametric_symmetric; assumption.
  - apply Hex8Isoparametric_row_sum; assumption.
Qed.

Lemma Hex8Isoparametric_symmetric_zero_row_sums_witness :
  (length (replicate 64 7) = 64%nat
   /\ nonsingular_3D false [0.0; 1; 1; 0.0; 0.0; 1; 1; 0.0]
        [0.0; 0.0; 1; 1; 0.0; 0.0; 1; 1] [0.0; 0.0; 0.0; 0.0; 2; 2; 2; 2])
  /\ Hex8Isoparametric [0.0; 1; 1; 0.0; 0.0; 1; 1; 0.0]
       [0.0; 0.0; 1; 1; 0.0; 0.0; 1; 1]
       [0.0; 0.0; 0.0; 0.0; 2; 2; 2; 2] 0 (replicate 64 7) !!! (5 + 8 * 3)%nat
     = Hex8Isoparametric [0.0; 1; 1; 0.0; 0.0; 1; 1; 0.0]
         [0.0; 0.0; 1; 1; 0.0; 0.0; 1; 1]
         [0.0; 0.0; 0.0; 0.0; 2; 2; 2; 2] 0 (replicate 64 7) !!! (3 + 8 * 5)%nat.
Proof.
  assert (Hdet : nonsingular_3D false [0.0; 1; 1; 0.0; 0.0; 1; 1; 0.0]
                   [0.0; 0.0; 1; 1; 0.0; 0.0; 1; 1]
                   [0.0; 0.0; 0.0; 0.0; 2; 2; 2; 2])
    by (intros p q r _ _ _; rewrite box_Jacobian; lra).
  split; [split; [reflexivity|exact Hdet]|].
  exact (proj1 (Hex8Isoparametric_symmetric_zero_row_sums
                  [0.0; 1; 1; 0.0; 0.0; 1; 1; 0.0] [0.0; 0.0; 1; 1; 0.0; 0.0; 1; 1]
                  [0.0; 0.0; 0.0; 0.0; 2; 2; 2; 2] false (replicate 64 7) 3 5
                  eq_refl ltac:(lia) ltac:(lia) Hdet)).
Defined.

Lemma Hex8_quadrature_psd (g : R) (reduced : bool) (X Y Z : list R) (u : nat -> R) :
  (forall xi eta zeta, 0 <= (Inverse3M (Jacobian_3D X Y Z xi eta zeta)).1) ->
  0 <= sum_n 8 (fun i => sum_n 8 (fun j =>
         u i * Hex8_quadrature g reduced X Y Z i j * u j)).
Proof.
  intros Hdet.
  set (T := fun (p q r : R * R) (i j : nat) =>
     p.2 * q.2 * r.2 * (Inverse3M (Jacobian_3D X Y Z p.1 q.1 r.1)).1
     * sum_n 3 (fun k => gradient_3D X Y Z p.1 q.1 r.1 k i
                         * gradient_3D X Y Z p.1 q.1 r.1 k j)).
  rewrite (sum_n_ext 8 _ (fun i => sum_list (gauss_rule g reduced) (fun p =>
     sum_n 8 (fun j => sum_list (gauss_rule g reduced) (fun q =>
       sum_list (gauss_rule g reduced) (fun r => u i * T p q r i j * u j)))))).
  2: { intros i _. rewrite <- sum_n_sum_list. apply sum_n_ext. intros j _.
       rewrite Hex8_quadrature_gram, sum_list_scale.
       apply sum_list_ext. intros p. rewrite sum_list_scale.
       apply sum_list_ext. intros q. apply sum_list_scale. }
  rewrite sum_n_sum_list. apply sum_list_nonneg. intros p Hp.
  rewrite (sum_n_ext 8 _ (fun i => sum_list (gauss_rule g reduced) (fun q =>
     sum_n 8 (fun j =>
       sum_list (gauss_rule g reduced) (fun r => u i * T p q r i j * u j)))))
    by (intros i _; apply sum_n_sum_list).
  rewrite sum_n_sum_list. apply sum_list_nonneg. intros q Hq.
  rewrite (sum_n_ext 8 _ (fun i => sum_list (gauss_rule g reduced) (fun r =>
     sum_n 8 (fun j => u i * T p q r i j * u j))))
    by (intros i _; apply sum_n_sum_list).
  rewrite sum_n_sum_list. apply sum_list_nonneg. intros r Hr.
  subst T. cbv beta. rewrite gram_quadratic_form.
  apply Rmult_le_pos.
  - apply Rmult_le_pos; [|apply Hdet].
    apply Rmult_le_pos; [apply Rmult_le_pos|]; eauto using gauss_rule_weight.
  - apply sum_n_nonneg. intros k _. apply Rle_0_sqr.
Qed.

(** X10. The matrix of a box element of positive edge lengths, the one the 3-D
    [SetUpLoadAndBC] caches, is positive semi-definite: the quadratic form
    [u^T KE u] is not negative. *)
Theorem Hex8Isoparametric_box_psd
    (dx dy dz : R) (reduced : bool) (ke : list R) (u : nat -> R) :
  0 < dx -> 0 < dy -> 0 < dz -> length ke = 64%nat ->
  0 <= quadratic_form_of 8
         (Hex8Isoparametric [0.0; dx; dx; 0.0; 0.0; dx; dx; 0.0]
            [0.0; 0.0; dy; dy; 0.0; 0.0; dy; dy]
            [0.0; 0.0; 0.0; 0.0; dz; dz; dz; dz] (redInt_of reduced) ke) u.
Proof.
  intros Hdx Hdy Hdz Hlen. unfold quadratic_form_of.
  rewrite (sum_n_ext 8 _ (fun i => sum_n 8 (fun j =>
     u i * Hex8_quadrature gauss_point_code reduced
             [0.0; dx; dx; 0.0; 0.0; dx; dx; 0.0]
             [0.0; 0.0; dy; dy; 0.0; 0.0; dy; dy]
             [0.0; 0.0; 0.0; 0.0; dz; dz; dz; dz] i j * u j))).
  2: { intros i Hi. apply sum_n_ext. intros j Hj.
       replace (i * 8 + j)%nat with (j + 8 * i)%nat by lia.
       rewrite Hex8Isoparametric_refines by assumption. reflexivity. }
  apply Hex8_quadrature_psd. intros xi eta zeta. rewrite box_Jacobian.
  apply Rlt_le. apply Rdiv_lt_0_compat; [|lra].
  apply Rmult_lt_0_compat; [apply Rmult_lt_0_compat|]; assumption.
Qed.

Lemma Hex8Isoparametric_box_psd_witness :
  0 < 1 /\ 0 < 2 /\ 0 < 3 /\ length (replicate 64 0) = 64%nat
  /\ 0 <= quadratic_form_of 8
            (Hex8Isoparametric [0.0; 1; 1; 0.0; 0.0; 1; 1; 0.0]
               [0.0; 0.0; 2; 2; 0.0; 0.0; 2; 2]
               [0.0; 0.0; 0.0; 0.0; 3; 3; 3; 3] 1 (replicate 64 0))
            (fun i => INR i).
Proof.
  assert (H1 : 0 < 1) by lra. assert (H2 : 0 < 2) by lra. assert (H3 : 0 < 3) by lra.
  split; [exact H1|]. split; [exact H2|]. split; [exact H3|]. split; [reflexivity|].
  exact (Hex8Isoparametric_box_psd 1 2 3 true (replicate 64 0)
           (fun i => INR i) H1 H2 H3 eq_refl).
Defined.

(** ** What the methods keep of the state *)

Lemma VecView_lookup (v : Vec) (name : string) (fs : FileSystem) :
  VecView v name fs !! name = Some v.
Proof. unfold VecView, FileSystem. apply lookup_insert_eq. Qed.

Lemma VecView_lookup_ne (v : Vec) (name other : string) (fs : FileSystem) :
  other <> name -> VecView v name fs !! other = fs !! other.
Proof. intros Hne. unfold VecView, FileSystem. apply lookup_insert_ne. congruence. Qed.

Section StateProperties.
Context `{BuildConfig} `{Petsc}.

Lemma SetUpRestart_problem (s : LinearHeatConduction) (opts : PetscOptions)
      (fs : FileSystem) :
    let s' := SetUpRestart s opts fs in
    same_problem s' s /\ K s' = K s /\ RHS s' = RHS s /\ da_nodal s' = da_nodal s
    /\ ksp s' = ksp s.
Proof.
    unfold SetUpRestart, same_problem.
    destruct (opt_restart opts) as [[|]|], (opt_onlyLoadDesign opts) as [[|]|];
      cbn; repeat split;
      destruct (fexists fs _); reflexivity.
Qed.

  (** The temperature field after the restart part of [SetUpSolver]. *)
Lemma SetUpRestart_U (s : LinearHeatConduction) (opts : PetscOptions)
      (fs : FileSystem) :
    U (SetUpRestart s opts fs)
    = if default true (opt_restart opts) && negb (default false (opt_onlyLoadDesign opts))
      then default (U s) (fs !! default ""%string (opt_restartFileVecSol opts))
      else U s.
Proof.
    assert (Happ : forall f : string, String.append "" f = f) by reflexivity.
    unfold SetUpRestart, fexists, VecLoad.
    destruct (opt_restart opts) as [[|]|], (opt_onlyLoadDesign opts) as [[|]|],
      (opt_restartFileVecSol opts) as [f|]; cbn; rewrite ?Happ;
      try reflexivity;
      match goal with
      | |- context [fs !! ?n] => destruct (fs !! n) eqn:E
      end; cbn;
      try (rewrite bool_decide_eq_true_2 by eauto);
      try (rewrite bool_decide_eq_false_2 by (intros [? ?]; congruence));
      cbn; rewrite ?E; reflexivity.
Qed.

Lemma SetUpRestart_loads (s : LinearHeatConduction) (opts : PetscOptions)
      (fs : FileSystem) (f : string) (v : Vec) :
    loads_state opts -> opt_restartFileVecSol opts = Some f -> fs !! f = Some v ->
    U (SetUpRestart s opts fs) = v.
Proof.
    intros (Ho1 & Ho2) Hf Hv. rewrite SetUpRestart_U, Hf.
    replace (default true (opt_restart opts)) with true
      by (destruct (opt_restart opts) as [[|]|]; cbn; congruence).
    replace (default false (opt_onlyLoadDesign opts)) with false
      by (destruct (opt_onlyLoadDesign opts) as [[|]|]; cbn; congruence).
    cbn [andb negb default from_option]. unfold Datatypes.id.
    rewrite Hv. reflexivity.
Qed.

Lemma SetUpSolver_problem (s : LinearHeatConduction) (opts : PetscOptions)
      (fs : FileSystem) :
    let s' := SetUpSolver s opts fs in
    same_problem s' s /\ K s' = K s /\ RHS s' = RHS s
    /\ U s' = U (SetUpRestart s opts fs).
Proof.
    destruct (SetUpRestart_problem s opts fs)
      as ((E1 & E2 & E3 & E4 & E5 & E6) & E7 & E8 & _).
    unfold SetUpSolver, same_problem.
    set (s1 := SetUpRestart s opts fs) in *. cbv zeta.
    destruct (bool_decide (pc_type _ = PCMG)).
    - destruct (bool_decide (nlvls s1 = 0%nat)); cbn; auto 10.
    - cbn; auto 10.
Qed.

Lemma SetUpSolver_ksp (s : LinearHeatConduction) (opts : PetscOptions)
      (fs : FileSystem) :
    exists k, ksp (SetUpSolver s opts fs) = Some k
              /\ ksp_Amat k = K s /\ ksp_Pmat k = K s.
Proof.
    destruct (SetUpRestart_problem s opts fs) as (_ & E7 & _).
    unfold SetUpSolver.
    set (s1 := SetUpRestart s opts fs) in *. cbv zeta.
    destruct (bool_decide (pc_type _ = PCMG)).
    - destruct (bool_decide (nlvls s1 = 0%nat)); cbn; eauto.
    - cbn; eauto.
Qed.

  (** [SolveState] by the two cases of its test on the solver. *)
Lemma SolveState_unfold (s : LinearHeatConduction) (opts : PetscOptions)
      (fs : FileSystem) (xPhys : Vec) (Emin Emax penal : PetscScalar) :
    let a := AssembleConductivityMatrix s xPhys Emin Emax penal in
    SolveState s opts fs xPhys Emin Emax penal
    = match ksp s with
      | None =>
          let t := SetUpSolver a opts fs in
          match ksp t with
          | Some k => set_U (KSPSolve k (RHS t) (U t)) t
          | None => t
          end
      | Some k =>
          let k' := KSPSetOperators k (K a) (K a) in
          set_U (KSPSolve k' (RHS a) (U a)) (set_ksp (Some k') a)
      end.
Proof.
    intros a. unfold SolveState. fold a.
    replace (ksp a) with (ksp s) by reflexivity.
    destruct (ksp s) as [k|]; reflexivity.
Qed.

Lemma SolveState_first_call (s : LinearHeatConduction) (opts : PetscOptions)
      (fs : FileSystem) (xPhys : Vec) (Emin Emax penal : PetscScalar) :
    ksp s = None ->
    let a := AssembleConductivityMatrix s xPhys Emin Emax penal in
    let t := SetUpSolver a opts fs in
    exists k, ksp t = Some k
      /\ SolveState s opts fs xPhys Emin Emax penal = set_U (KSPSolve k (RHS t) (U t)) t.
Proof.
    intros Hk a t. rewrite SolveState_unfold. cbv zeta. rewrite Hk. fold a. fold t.
    destruct (SetUpSolver_ksp a opts fs) as (k & Hkt & _). fold t in Hkt.
    exists k. rewrite Hkt. auto.
Qed.

Lemma SolveState_problem (s : LinearHeatConduction) (opts : PetscOptions)
      (fs : FileSystem) (xPhys : Vec) (Emin Emax penal : PetscScalar) :
    let s' := SolveState s opts fs xPhys Emin Emax penal in
    same_problem s' s
    /\ K s' = K (AssembleConductivityMatrix s xPhys Emin Emax penal)
    /\ RHS s' = VecPointwiseMult (RHS s) (N s).
Proof.
    cbv zeta. rewrite SolveState_unfold. cbv zeta.
    set (a := AssembleConductivityMatrix s xPhys Emin Emax penal).
    destruct (ksp s) as [k|].
    - unfold same_problem. cbn. repeat split; reflexivity.
    - destruct (SetUpSolver_problem a opts fs) as (Hp & HK & HR & _).
      destruct (SetUpSolver_ksp a opts fs) as (k & Hk & _).
      rewrite Hk. unfold same_problem in *. cbn.
      destruct Hp as (E1 & E2 & E3 & E4 & E5 & E6).
      rewrite E1, E2, E3, E4, E5, E6, HK, HR. repeat split; reflexivity.
Qed.

Lemma SolveState_ksp (s : LinearHeatConduction) (opts : PetscOptions)
      (fs : FileSystem) (xPhys : Vec) (Emin Emax penal : PetscScalar) :
    exists k, ksp (SolveState s opts fs xPhys Emin Emax penal) = Some k.
Proof.
    rewrite SolveState_unfold. cbv zeta.
    set (a := AssembleConductivityMatrix s xPhys Emin Emax penal).
    destruct (ksp s) as [k|].
    - eexists. cbn. reflexivity.
    - destruct (SetUpSolver_ksp a opts fs) as (k & Hk & _).
      rewrite Hk. exists k. cbn. exact Hk.
Qed.

  (** X11. After [SolveState] the solver exists, and its operator and
      preconditioner matrices are the matrix this call assembled, whether
      the solver was created by this call or by an earlier one. *)
Theorem SolveState_operators (s : LinearHeatConduction) (opts : PetscOptions)
      (fs : FileSystem) (xPhys : Vec) (Emin Emax penal : PetscScalar) :
    let s' := SolveState s opts fs xPhys Emin Emax penal in
    exists k, ksp s' = Some k /\ ksp_Amat k = K s' /\ ksp_Pmat k = K s'
              /\ K s' = K (AssembleConductivityMatrix s xPhys Emin Emax penal).
Proof.
    cbv zeta. rewrite SolveState_unfold. cbv zeta.
    set (a := AssembleConductivityMatrix s xPhys Emin Emax penal).
    destruct (ksp s) as [k|].
    - eexists. cbn. repeat split; reflexivity.
    - destruct (SetUpSolver_problem a opts fs) as (_ & HK & _).
      destruct (SetUpSolver_ksp a opts fs) as (k & Hk & HA & HP).
      rewrite Hk. exists k. cbn. rewrite HK. auto.
Qed.

  (** X12. A second [SolveState] keeps the solver the first one set up and only
      gives it the new matrix; it starts the linear solve from the
      temperature field of the first solve, and the grid, the restart
      settings and the checkpoint names stay as they were: neither the
      options nor a checkpoint are read again. *)
Theorem SolveState_reuses_solver (s : LinearHeatConduction)
      (opts opts' : PetscOptions) (fs fs' : FileSystem) (x1 x2 : Vec)
      (Emin Emax penal Emin' Emax' penal' : PetscScalar) :
    let s1 := SolveState s opts fs x1 Emin Emax penal in
    let s2 := SolveState s1 opts' fs' x2 Emin' Emax' penal' in
    exists k1,
      ksp s1 = Some k1
      /\ ksp s2 = Some (KSPSetOperators k1 (K s2) (K s2))
      /\ U s2 = KSPSolve (KSPSetOperators k1 (K s2) (K s2)) (RHS s2) (U s1)
      /\ da_nodal s2 = da_nodal s1 /\ restart s2 = restart s1
      /\ flip s2 = flip s1 /\ filename00 s2 = filename00 s1
      /\ filename01 s2 = filename01 s1.
Proof.
    intros s1 s2.
    destruct (SolveState_ksp s opts fs x1 Emin Emax penal) as (k1 & Hk1).
    fold s1 in Hk1. exists k1. split; [exact Hk1|].
    subst s2. rewrite SolveState_unfold. cbv zeta. rewrite Hk1. cbn.
    repeat split; reflexivity.
Qed.

  (** X13. On the first solve of an object the checkpoint named by
      [-restartFileVecSol] is the initial guess of the linear solver. *)
Theorem first_solve_starts_from_checkpoint (s : LinearHeatConduction)
      (opts : PetscOptions) (fs : FileSystem) (xPhys : Vec)
      (Emin Emax penal : PetscScalar) (f : string) (v : Vec) :
    ksp s = None -> loads_state opts ->
    opt_restartFileVecSol opts = Some f -> fs !! f = Some v ->
    let s' := SolveState s opts fs xPhys Emin Emax penal in
    exists k, ksp s' = Some k /\ U s' = KSPSolve k (RHS s') v.
Proof.
    intros Hk Hload Hf Hv.
    destruct (SolveState_first_call s opts fs xPhys Emin Emax penal Hk)
      as (k & Hkt & ->).
    cbv zeta. exists k. cbn [ksp U RHS set_U]. split; [exact Hkt|].
    destruct (SetUpSolver_problem (AssembleConductivityMatrix s xPhys Emin Emax penal)
                opts fs) as (_ & _ & _ & ->).
    rewrite (SetUpRestart_loads _ opts fs f v Hload Hf Hv). reflexivity.
Qed.
End StateProperties.

(** *** A first solve from a checkpoint *)

Lemma first_solve_starts_from_checkpoint_witness :
  let opts := restart_from "U.dat" in
  let fs := VecView [1; 2] "U.dat" ∅ in
  let s' := @SolveState Build2D SerialPetsc unset_members opts fs [] 0 1 3 in
  (ksp unset_members = None /\ loads_state opts
   /\ opt_restartFileVecSol opts = Some "U.dat"%string
   /\ fs !! "U.dat"%string = Some [1; 2])
  /\ exists k, ksp s' = Some k /\ U s' = @KSPSolve SerialPetsc k (RHS s') [1; 2].
Proof.
  intros opts fs s'.
  assert (Hk : ksp unset_members = None) by reflexivity.
  assert (Hl : loads_state opts) by (split; discriminate).
  assert (Hf : opt_restartFileVecSol opts = Some "U.dat"%string) by reflexivity.
  assert (Hv : fs !! "U.dat"%string = Some [1; 2]) by apply VecView_lookup.
  split; [auto|].
  exact (@first_solve_starts_from_checkpoint Build2D SerialPetsc unset_members
           opts fs [] 0 1 3 "U.dat" [1; 2] Hk Hl Hf Hv).
Defined.

(** ** Checkpoints *)

Section RestartProperties.
Context `{BuildConfig} `{Petsc}.

  (** X14. Checkpoint round trip: the temperature field [WriteRestartFiles] saves
      is the one a later [SetUpSolver], of this or of another object, loads
      when [-restartFileVecSol] names the file that was written. *)
Theorem checkpoint_round_trip (s s1 t : LinearHeatConduction)
      (fs fs1 : FileSystem) (e : PetscErrorCode) (opts : PetscOptions) :
    restart s = true ->
    WriteRestartFiles s fs = (e, s1, fs1) ->
    loads_state opts ->
    opt_restartFileVecSol opts = Some (restart_target s1) ->
    e = 0%Z /\ U (SetUpSolver t opts fs1) = U s.
Proof.
    intros Hr W Hload Hname.
    destruct (SetUpSolver_problem t opts fs1) as (_ & _ & _ & ->).
    assert (Hw : e = 0%Z /\ fs1 !! restart_target s1 = Some (U s)).
    { unfold WriteRestartFiles in W. rewrite Hr in W. cbn [negb] in W.
      destruct s as [sK sU sR sN sk sd sKE snl snn sne sxc sre sfl sf0 sf1].
      destruct sfl; cbn -[VecView] in W; injection W as <- <- <-;
        unfold restart_target; cbn -[VecView]; rewrite VecView_lookup; auto. }
    destruct Hw as [-> Hw]. split; [reflexivity|].
    apply (SetUpRestart_loads t opts fs1 _ _ Hload Hname Hw).
Qed.

  (** X15. A missing checkpoint is not an error: when restart is switched off,
      when only the design is to be loaded, or when the file named by
      [-restartFileVecSol] does not exist, [SetUpSolver] keeps the
      temperature field it finds. *)
Theorem SetUpSolver_keeps_state_without_checkpoint (s : LinearHeatConduction)
      (opts : PetscOptions) (fs : FileSystem) :
    opt_restart opts = Some false \/ opt_onlyLoadDesign opts = Some true
    \/ fs !! default ""%string (opt_restartFileVecSol opts) = None ->
    U (SetUpSolver s opts fs) = U s.
Proof.
    intros Hc.
    destruct (SetUpSolver_problem s opts fs) as (_ & _ & _ & ->).
    rewrite SetUpRestart_U.
    destruct Hc as [-> | [-> | ->]]; cbn; try reflexivity.
    - rewrite andb_false_r. reflexivity.
    - destruct (_ && _); reflexivity.
Qed.

  (** X16. Double buffering: after two consecutive saves the file of the first
      save still holds the field saved first, the other checkpoint holds the
      field saved second, and no other file was touched. *)
Theorem checkpoints_hold_last_two_states
      (wd : string) (s t s1 s2 : LinearHeatConduction)
      (fs fs1 fs2 : FileSystem) (e1 e2 : PetscErrorCode) :
    restart_ready wd s ->
    WriteRestartFiles s fs = (e1, s1, fs1) ->
    same_restart_members t s1 ->
    WriteRestartFiles t fs1 = (e2, s2, fs2) ->
    fs2 !! restart_target s1 = Some (U s)
    /\ fs2 !! restart_target s2 = Some (U t)
    /\ (forall name, name <> restart_target s1 -> name <> restart_target s2 ->
          fs2 !! name = fs !! name).
Proof.
    intros (Hr & H00 & H01) W1 (Hr' & Hf' & H00' & H01') W2.
    unfold WriteRestartFiles in W1. rewrite Hr in W1. cbn [negb] in W1.
    destruct s as [sK sU sR sN sk sd sKE snl snn sne sxc sre sfl sf0 sf1].
    cbn in Hr, H00, H01. subst sre sf0 sf1.
    unfold WriteRestartFiles in W2. rewrite Hr' in W2.
    destruct t as [tK tU tR tN tk td tKE tnl tnn tne txc tre tfl tf0 tf1].
    cbn in Hr', Hf', H00', H01'.
    pose proof (restart_names_differ wd) as Hne.
    destruct sfl; cbn -[VecView] in W1; injection W1 as <- <- <-;
      cbn in Hr', Hf', H00', H01'; subst tre tfl tf0 tf1;
      cbn -[VecView] in W2; injection W2 as <- <- <-;
      unfold restart_target; cbn -[VecView]; repeat split.
    - rewrite VecView_lookup_ne by congruence. apply VecView_lookup.
    - apply VecView_lookup.
    - intros name N1 N2. rewrite !VecView_lookup_ne by congruence. reflexivity.
    - rewrite VecView_lookup_ne by congruence. apply VecView_lookup.
    - apply VecView_lookup.
    - intros name N1 N2. rewrite !VecView_lookup_ne by congruence. reflexivity.
Qed.

  (** X17. Without restart [WriteRestartFiles] fails with -1 and changes neither
      the object nor any file; with restart it returns 0, the file the new
      flip flag selects holds the temperature field, and every other file
      is as it was. *)
Theorem WriteRestartFiles_touches_one_file (s s' : LinearHeatConduction)
      (fs fs' : FileSystem) (e : PetscErrorCode) :
    WriteRestartFiles s fs = (e, s', fs') ->
    if restart s then
      e = 0%Z /\ flip s' = negb (flip s)
      /\ fs' !! restart_target s' = Some (U s)
      /\ forall name, name <> restart_target s' -> fs' !! name = fs !! name
    else e = (-1)%Z /\ s' = s /\ fs' = fs.
Proof.
    unfold WriteRestartFiles.
    destruct s as [sK sU sR sN sk sd sKE snl snn sne sxc sre sfl sf0 sf1].
    destruct sre, sfl; cbn -[VecView]; intros W; injection W as <- <- <-;
      unfold restart_target; cbn -[VecView]; auto.
    all: split; [reflexivity|]; split; [reflexivity|];
      split; [apply VecView_lookup|].
    all: intros name Hn; apply VecView_lookup_ne; congruence.
Qed.
End RestartProperties.

(** *** Saving and loading *)

Lemma same_restart_members_set_U (v : Vec) (s : LinearHeatConduction) :
  same_restart_members (set_U v s) s.
Proof. repeat split. Qed.

Lemma checkpoint_round_trip_witness :
  let s := set_U [3; 4] (set_restart true unset_members) in
  let w := WriteRestartFiles s ∅ in
  let opts := restart_from (restart_target w.1.2) in
  (restart s = true /\ loads_state opts)
  /\ U (@SetUpSolver Build2D SerialPetsc unset_members opts w.2) = [3; 4].
Proof.
  intros s w opts.
  assert (Hr : restart s = true) by reflexivity.
  assert (Hl : loads_state opts) by (split; discriminate).
  assert (W : WriteRestartFiles s ∅ = (w.1.1, w.1.2, w.2))
    by (subst w; destruct (WriteRestartFiles s ∅) as [[? ?] ?]; reflexivity).
  split; [auto|].
  exact (proj2 (@checkpoint_round_trip Build2D SerialPetsc s w.1.2 unset_members
                  ∅ w.2 w.1.1 opts Hr W Hl eq_refl)).
Defined.

Lemma SetUpSolver_keeps_state_without_checkpoint_witness :
  let s := set_U [3; 4] unset_members in
  (∅ : FileSystem) !! default ""%string (opt_restartFileVecSol (restart_from "none.dat"))
  = None
  /\ U (@SetUpSolver Build2D SerialPetsc s (restart_from "none.dat") ∅) = [3; 4].
Proof.
  intros s.
  assert (Hm : (∅ : FileSystem)
               !! default ""%string (opt_restartFileVecSol (restart_from "none.dat"))
               = None) by apply lookup_empty.
  split; [exact Hm|].
  exact (@SetUpSolver_keeps_state_without_checkpoint Build2D SerialPetsc s
           (restart_from "none.dat") ∅ (or_intror (or_intror Hm))).
Defined.

Lemma checkpoints_hold_last_two_states_witness :
  let s := @SetUpSolver Build2D SerialPetsc (set_U [1] unset_members) no_options ∅ in
  let w1 := WriteRestartFiles s ∅ in
  let t := set_U [2] w1.1.2 in
  let w2 := WriteRestartFiles t w1.2 in
  (restart_ready "./" s /\ same_restart_members t w1.1.2)
  /\ w2.2 !! restart_target w1.1.2 = Some (U s)
  /\ w2.2 !! restart_target w2.1.2 = Some [2].
Proof.
  intros s w1 t w2.
  assert (Hready : restart_ready "./" s).
  { apply (@SetUpSolver_restart_ready Build2D SerialPetsc (set_U [1] unset_members)
             no_options ∅). discriminate. }
  assert (Hsame : same_restart_members t w1.1.2)
    by apply same_restart_members_set_U.
  assert (W1 : WriteRestartFiles s ∅ = (w1.1.1, w1.1.2, w1.2))
    by (subst w1; destruct (WriteRestartFiles s ∅) as [[? ?] ?]; reflexivity).
  assert (W2 : WriteRestartFiles t w1.2 = (w2.1.1, w2.1.2, w2.2))
    by (subst w2; destruct (WriteRestartFiles t w1.2) as [[? ?] ?]; reflexivity).
  split; [auto|].
  destruct (@checkpoints_hold_last_two_states "./" s t
              w1.1.2 w2.1.2 ∅ w1.2 w2.2 w1.1.1 w2.1.1 Hready W1 Hsame W2)
    as (E1 & E2 & _).
  split; [exact E1|exact E2].
Defined.

Lemma WriteRestartFiles_touches_one_file_witness :
  let s := set_U [3; 4] unset_members in
  let w := WriteRestartFiles s ∅ in
  w.1.1 = (-1)%Z /\ w.1.2 = s /\ w.2 = ∅.
Proof.
  intros s w.
  assert (W : WriteRestartFiles s ∅ = (w.1.1, w.1.2, w.2))
    by (subst w; destruct (WriteRestartFiles s ∅) as [[? ?] ?]; reflexivity).
  exact (@WriteRestartFiles_touches_one_file s w.1.2 ∅ w.2 w.1.1 W).
Defined.

(** ** Options and the grid hierarchy of the solver *)

Lemma interpolation_loop (n : nat) (R : nat -> Mat) (pc : PC) :
  pc_mg_interpolation
    (for_loop n (fun k' pc => PCMGSetInterpolation pc (S k') (R k')) pc)
  = pc_mg_interpolation pc ++ ((fun k' => (S k', R k')) <$> seq 0 n).
Proof.
  induction n as [|n IH]; cbn [for_loop].
  - cbn. rewrite app_nil_r. reflexivity.
  - cbn [PCMGSetInterpolation pc_mg_interpolation]. rewrite IH, seq_S, fmap_app.
    cbn. rewrite app_assoc. reflexivity.
Qed.

Lemma interpolation_loop_type (n : nat) (R : nat -> Mat) (pc : PC) :
  pc_type (for_loop n (fun k' pc => PCMGSetInterpolation pc (S k') (R k')) pc)
  = pc_type pc.
Proof. induction n as [|n IH]; cbn [for_loop]; [reflexivity|exact IH]. Qed.

Lemma smoother_loop_interpolation (n : nat) (f : LevelKSP -> LevelKSP) (pc : PC) :
  pc_mg_interpolation (for_loop n (fun k' pc => PCMGUpdateLevel pc (S k') f) pc)
  = pc_mg_interpolation pc.
Proof. induction n as [|n IH]; cbn [for_loop]; [reflexivity|exact IH]. Qed.

Lemma smoother_loop_type (n : nat) (f : LevelKSP -> LevelKSP) (pc : PC) :
  pc_type (for_loop n (fun k' pc => PCMGUpdateLevel pc (S k') f) pc) = pc_type pc.
Proof. induction n as [|n IH]; cbn [for_loop]; [reflexivity|exact IH]. Qed.

Lemma smoother_loop_length (n : nat) (f : LevelKSP -> LevelKSP) (pc : PC) :
  length (pc_mg_levels (for_loop n (fun k' pc => PCMGUpdateLevel pc (S k') f) pc))
  = length (pc_mg_levels pc).
Proof.
  induction n as [|n IH]; cbn [for_loop]; [reflexivity|].
  unfold PCMGUpdateLevel at 1. cbn [pc_mg_levels PCMGSetLevelKSPs].
  rewrite length_alter. exact IH.
Qed.

Section HierarchyProperties.
Context `{BuildConfig} `{Petsc}.

Lemma DMCoarsenHierarchy_lookup (dm : DM) (n j : nat) :
    (j <= n)%nat ->
    (dm :: DMCoarsenHierarchy dm n) !!! j = Nat.iter j DMCoarsen dm.
Proof.
    intros Hj. destruct j as [|j]; [reflexivity|].
    cbn [lookup_total list_lookup_total]. unfold DMCoarsenHierarchy.
    apply list_lookup_total_correct.
    rewrite list_lookup_fmap, lookup_seq_lt by lia. reflexivity.
Qed.

  (** The array [da_list] of [SetUpSolver]. *)
Lemma da_list_levels (s : LinearHeatConduction) (k : nat) :
    (k < nlvls s)%nat ->
    for_loop (nlvls s) (fun k da_list =>
      let da := (da_nodal s :: DMCoarsenHierarchy (da_nodal s) (nlvls s - 1))
                  !!! (nlvls s - 1 - k)%nat in
      let da :=
        if bool_decide (DIM = 2%nat) then
          DMDASetUniformCoordinates da (xc s !!! 0%nat) (xc s !!! 1%nat)
            (xc s !!! 2%nat) (xc s !!! 3%nat) 0.0 0.0
        else
          DMDASetUniformCoordinates da (xc s !!! 0%nat) (xc s !!! 1%nat)
            (xc s !!! 2%nat) (xc s !!! 3%nat) (xc s !!! 4%nat) (xc s !!! 5%nat) in
      da_list ++ [da]) [] !!! k
    = level_grid s k.
Proof.
    intros Hk. cbv zeta.
    rewrite (for_loop_snoc (nlvls s) (fun k =>
      if bool_decide (DIM = 2%nat) then
        DMDASetUniformCoordinates
          ((da_nodal s :: DMCoarsenHierarchy (da_nodal s) (nlvls s - 1))
             !!! (nlvls s - 1 - k)%nat)
          (xc s !!! 0%nat) (xc s !!! 1%nat) (xc s !!! 2%nat) (xc s !!! 3%nat) 0.0 0.0
      else
        DMDASetUniformCoordinates
          ((da_nodal s :: DMCoarsenHierarchy (da_nodal s) (nlvls s - 1))
             !!! (nlvls s - 1 - k)%nat)
          (xc s !!! 0%nat) (xc s !!! 1%nat) (xc s !!! 2%nat) (xc s !!! 3%nat)
          (xc s !!! 4%nat) (xc s !!! 5%nat))).
    apply list_lookup_total_correct.
    rewrite list_lookup_fmap, lookup_seq_lt by lia. cbn [fmap option_fmap option_map Nat.add].
    unfold level_grid. rewrite DMCoarsenHierarchy_lookup by lia. reflexivity.
Qed.


  (** X19. With another preconditioner than multigrid, [SetUpSolver] configures
      no level solver and no interpolation, and leaves the nodal grid as it
      is. *)
Theorem SetUpSolver_without_multigrid (s : LinearHeatConduction)
      (opts : PetscOptions) (fs : FileSystem) (t : PCType) :
    opt_pc_type opts = Some t -> t <> PCMG ->
    exists k,
      ksp (SetUpSolver s opts fs) = Some k
      /\ pc_type (ksp_pc k) = t
      /\ pc_mg_levels (ksp_pc k) = pc_mg_levels (ksp_pc KSPCreate)
      /\ pc_mg_interpolation (ksp_pc k) = pc_mg_interpolation (ksp_pc KSPCreate)
      /\ da_nodal (SetUpSolver s opts fs) = da_nodal s.
Proof.
    intros Ht Hne.
    destruct (SetUpRestart_problem s opts fs) as (_ & _ & _ & Hda & _).
    unfold SetUpSolver. set (s1 := SetUpRestart s opts fs) in *. cbv zeta.
    match goal with
    | |- context [bool_decide (pc_type (ksp_pc ?k) = PCMG)] => set (k0 := k)
    end.
    assert (Hk0 : pc_type (ksp_pc k0) = t
      /\ pc_mg_levels (ksp_pc k0) = pc_mg_levels (ksp_pc KSPCreate)
      /\ pc_mg_interpolation (ksp_pc k0) = pc_mg_interpolation (ksp_pc KSPCreate))
      by (subst k0; cbn; rewrite Ht; repeat split; reflexivity).
    clearbody k0. destruct Hk0 as (E1 & E2 & E3).
    rewrite bool_decide_eq_false_2 by congruence.
    exists k0. cbn [ksp set_ksp da_nodal]. auto.
Qed.

Lemma SetUpSolver_multigrid_levels (s : LinearHeatConduction)
      (opts : PetscOptions) (fs : FileSystem) :
    multigrid_selected opts -> (0 < nlvls s)%nat ->
    exists k,
      ksp (SetUpSolver s opts fs) = Some k
      /\ length (pc_mg_levels (ksp_pc k)) = nlvls s.
Proof.
    intros Hmg Hpos.
    destruct (SetUpRestart_problem s opts fs) as ((_ & _ & Hnl & _) & _).
    unfold SetUpSolver. set (s1 := SetUpRestart s opts fs) in *. cbv zeta.
    match goal with
    | |- context [bool_decide (pc_type (ksp_pc ?k) = PCMG)] => set (k0 := k)
    end.
    assert (E1 : pc_type (ksp_pc k0) = PCMG)
      by (subst k0; cbn; destruct Hmg as [-> | ->]; reflexivity).
    clearbody k0.
    rewrite (bool_decide_eq_true_2 _ E1).
    rewrite (bool_decide_eq_false_2 (nlvls s1 = 0%nat)) by lia.
    eexists. split; [reflexivity|].
    cbn [ksp_pc KSPSetPC].
    rewrite smoother_loop_length. unfold PCMGUpdateLevel.
    cbn [pc_mg_levels PCMGSetLevelKSPs]. rewrite length_alter.
    rewrite interpolation_loop_levels.
    cbn [pc_mg_levels PCMGSetGalerkin PCMGSetCycleType PCMGSetType PCMGSetLevels
         PCMGSetLevelKSPs].
    rewrite length_fmap, length_seq. exact Hnl.
Qed.

  (** X20. With multigrid, [SetUpSolver] creates [nlvls] level solvers and one
      interpolation per level above the coarsest, each from the grid of the
      level below to the grid of its own level; level 0 is the coarsest grid
      and level [nlvls - 1] the nodal grid itself, whose coordinates are set
      again. *)
Theorem SetUpSolver_grid_hierarchy (s : LinearHeatConduction)
      (opts : PetscOptions) (fs : FileSystem) :
    multigrid_selected opts -> (0 < nlvls s)%nat ->
    exists k,
      ksp (SetUpSolver s opts fs) = Some k
      /\ pc_type (ksp_pc k) = PCMG
      /\ length (pc_mg_levels (ksp_pc k)) = nlvls s
      /\ pc_mg_interpolation (ksp_pc k)
         = pc_mg_interpolation (ksp_pc KSPCreate)
           ++ ((fun j => (S j, DMCreateInterpolation (level_grid s j)
                                 (level_grid s (S j))))
               <$> seq 0 (nlvls s - 1))
      /\ da_nodal (SetUpSolver s opts fs) = level_grid s (nlvls s - 1).
Proof.
    intros Hmg Hpos.
    destruct (SetUpRestart_problem s opts fs)
      as ((_ & _ & Hnl & _ & _ & Hxc) & _ & _ & Hda & _).
    assert (Hgrid : forall j, level_grid (SetUpRestart s opts fs) j = level_grid s j)
      by (intros j; unfold level_grid; rewrite Hnl, Hxc, Hda; reflexivity).
    unfold SetUpSolver. set (s1 := SetUpRestart s opts fs) in *. cbv zeta.
    match goal with
    | |- context [bool_decide (pc_type (ksp_pc ?k) = PCMG)] => set (k0 := k)
    end.
    assert (Hk0 : pc_type (ksp_pc k0) = PCMG
      /\ pc_mg_interpolation (ksp_pc k0) = pc_mg_interpolation (ksp_pc KSPCreate))
      by (subst k0; cbn; destruct Hmg as [-> | ->]; split; reflexivity).
    clearbody k0. destruct Hk0 as (E1 & E3).
    rewrite (bool_decide_eq_true_2 _ E1).
    rewrite (bool_decide_eq_false_2 (nlvls s1 = 0%nat)) by lia.
    eexists. split; [reflexivity|].
    cbn [ksp_pc KSPSetPC da_nodal set_ksp set_da_nodal].
    split; [|split; [|split]].
    - rewrite smoother_loop_type. unfold PCMGUpdateLevel.
      cbn [pc_type PCMGSetLevelKSPs]. rewrite interpolation_loop_type. exact E1.
    - rewrite smoother_loop_length. unfold PCMGUpdateLevel.
      cbn [pc_mg_levels PCMGSetLevelKSPs]. rewrite length_alter.
      rewrite interpolation_loop_levels.
      cbn [pc_mg_levels PCMGSetGalerkin PCMGSetCycleType PCMGSetType PCMGSetLevels
           PCMGSetLevelKSPs].
      rewrite length_fmap, length_seq. exact Hnl.
    - rewrite smoother_loop_interpolation. unfold PCMGUpdateLevel.
      cbn [pc_mg_interpolation PCMGSetLevelKSPs].
      rewrite interpolation_loop.
      cbn [pc_mg_interpolation PCMGSetGalerkin PCMGSetCycleType PCMGSetType
           PCMGSetLevels PCMGSetLevelKSPs].
      rewrite E3, Hnl. f_equal. apply list_eq. intros j.
      rewrite !list_lookup_fmap.
      destruct (decide (j < nlvls s - 1)%nat) as [Hj|Hj].
      + rewrite lookup_seq_lt by lia. cbn [fmap option_fmap option_map Nat.add].
        replace (S j - 1)%nat with j by lia. rewrite <- Hnl.
        rewrite !(da_list_levels s1) by lia. rewrite !Hgrid. reflexivity.
      + rewrite lookup_seq_ge by lia. reflexivity.
    - rewrite (da_list_levels s1) by lia. rewrite Hgrid, Hnl. reflexivity.
Qed.
End HierarchyProperties.

(** *** The solver of an object with four levels *)

Lemma SetUpSolver_without_multigrid_witness :
  (opt_pc_type (with_pc_type PCJACOBI) = Some PCJACOBI /\ PCJACOBI <> PCMG)
  /\ exists k,
       ksp (@SetUpSolver Build2D SerialPetsc unset_members (with_pc_type PCJACOBI) ∅)
       = Some k
       /\ pc_type (ksp_pc k) = PCJACOBI /\ pc_mg_levels (ksp_pc k) = [].
Proof.
  assert (Ht : opt_pc_type (with_pc_type PCJACOBI) = Some PCJACOBI) by reflexivity.
  assert (Hne : PCJACOBI <> PCMG) by discriminate.
  split; [auto|].
  destruct (@SetUpSolver_without_multigrid Build2D SerialPetsc unset_members
              (with_pc_type PCJACOBI) ∅ PCJACOBI Ht Hne) as (k & Hk & E1 & E2 & _).
  exists k. auto.
Defined.

Lemma SetUpSolver_grid_hierarchy_witness :
  (multigrid_selected no_options /\ (0 < nlvls unset_members)%nat)
  /\ exists k,
       ksp (@SetUpSolver Build2D SerialPetsc unset_members no_options ∅) = Some k
       /\ length (pc_mg_levels (ksp_pc k)) = 4%nat
       /\ length (pc_mg_interpolation (ksp_pc k)) = 3%nat.
Proof.
  assert (Hmg : multigrid_selected no_options) by (left; reflexivity).
  assert (Hpos : (0 < nlvls unset_members)%nat) by (cbn; lia).
  split; [auto|].
  destruct (@SetUpSolver_grid_hierarchy Build2D SerialPetsc unset_members
              no_options ∅ Hmg Hpos) as (k & Hk & _ & E1 & E2 & _).
  exists k. split; [exact Hk|]. split; [exact E1|].
  rewrite E2. reflexivity.
Defined.

(** ** The vectors of both scenarios *)

Lemma VecSetValuesLocal_INSERT_length (v : Vec) (n : nat) (ix : list nat) (y : list R) :
  length (VecSetValuesLocal_INSERT v n ix y) = length v.
Proof.
  unfold VecSetValuesLocal_INSERT. induction n as [|n IH]; cbn [for_loop].
  - reflexivity.
  - rewrite length_insert. exact IH.
Qed.

Lemma VecSetValuesLocal_INSERT_entry (v : Vec) (n : nat) (ix : list nat)
    (y : list R) (c : R) (p : nat) :
  (p < length v)%nat -> (forall j, (j < n)%nat -> y !!! j = c) ->
  ((exists j, (j < n)%nat /\ ix !!! j = p) ->
     VecSetValuesLocal_INSERT v n ix y !! p = Some c)
  /\ ((forall j, (j < n)%nat -> ix !!! j <> p) ->
     VecSetValuesLocal_INSERT v n ix y !! p = v !! p).
Proof.
  intros Hp Hy. unfold VecSetValuesLocal_INSERT.
  induction n as [|n IH]; cbn [for_loop].
  - split; [intros (j & Hj & _); lia|reflexivity].
  - destruct IH as [IH1 IH2]; [intros; apply Hy; lia|].
    pose proof (VecSetValuesLocal_INSERT_length v n ix y) as Hlen.
    unfold VecSetValuesLocal_INSERT in Hlen.
    destruct (decide (ix !!! n = p)) as [E|E].
    + split.
      * intros _. rewrite E, Hy by lia. apply list_lookup_insert_eq. lia.
      * intros Hall. exfalso. apply (Hall n); [lia|assumption].
    + rewrite list_lookup_insert_ne by assumption. split.
      * intros (j & Hj & Hjp). apply IH1. exists j. split; [|assumption].
        destruct (decide (j = n)) as [->|]; [congruence|lia].
      * intros Hall. apply IH2. intros j Hj. apply Hall. lia.
Qed.

Lemma boolean_flags_insert (v : Vec) (i : nat) (x : R) :
  x = 0 \/ x = 1 -> boolean_flags v -> boolean_flags (<[i := x]> v).
Proof. intros Hx Hv. unfold boolean_flags. apply Forall_insert; assumption. Qed.

Lemma VecSetValuesLocal_INSERT_boolean (v : Vec) (n : nat) (ix : list nat) (y : list R) :
  (forall j, (j < n)%nat -> y !!! j = 0 \/ y !!! j = 1) ->
  boolean_flags v -> boolean_flags (VecSetValuesLocal_INSERT v n ix y).
Proof.
  intros Hy Hv. unfold VecSetValuesLocal_INSERT.
  induction n as [|n IH]; cbn [for_loop]; [assumption|].
  apply boolean_flags_insert; [apply Hy; lia|]. apply IH. intros; apply Hy; lia.
Qed.

Lemma fill_zero_entry (n j : nat) :
  (j < n)%nat ->
  for_loop n (fun k (a : list R) => <[k := 0.0]> a) (replicate n 0) !!! j = 0.
Proof.
  intros Hj. rewrite (fill_entry n j 0.0 Hj). lra.
Qed.

Lemma imported_load_and_bc_split (nnode nel nen : nat) (necon : list nat)
    (LoadIntensity : R) (p0 p1 : list R) (RHS0 N0 : Vec) :
  imported_load_and_bc nnode nel nen necon LoadIntensity p0 p1 (RHS0, N0)
  = (imported_load nnode nel nen necon LoadIntensity p0 RHS0,
     imported_bc nnode nel nen necon p1 N0).
Proof.
  unfold imported_load_and_bc, imported_load, imported_bc.
  rewrite <- for_loop_pair. apply for_loop_ext. intros i [RHS N] _. reflexivity.
Qed.

Lemma imported_load_adds (nnode nel : nat) (necon : list nat) (L : R) (p0 : list R) :
  adds (imported_load nnode nel nnode necon L p0)
       (node_load_outside_solid nnode nel necon p0 L).
Proof.
  unfold imported_load, node_load_outside_solid.
  apply adds_for_loop. intros i _.
  case_bool_decide.
  - eapply adds_ext; [reflexivity| |apply VecSetValuesLocal_ADD_adds].
    intros p. cbv beta. apply sum_n_ext. intros j Hj.
    rewrite element_dofs_entry by assumption.
    rewrite fill_entry by assumption. reflexivity.
  - intros a. split; [reflexivity|]. intros p _. lra.
Qed.

Lemma imported_bc_length (nnode nel nen : nat) (necon : list nat) (p1 : list R) (N0 : Vec) :
  length (imported_bc nnode nel nen necon p1 N0) = length N0.
Proof.
  unfold imported_bc. induction nel as [|k IH]; cbn [for_loop]; [reflexivity|].
  case_bool_decide; [rewrite VecSetValuesLocal_INSERT_length|]; exact IH.
Qed.

Lemma imported_bc_boolean (nnode nel nen : nat) (necon : list nat) (p1 : list R) (N0 : Vec) :
  boolean_flags N0 -> boolean_flags (imported_bc nnode nel nen necon p1 N0).
Proof.
  intros HN. unfold imported_bc. induction nel as [|k IH]; cbn [for_loop]; [assumption|].
  case_bool_decide; [|exact IH].
  apply VecSetValuesLocal_INSERT_boolean; [|exact IH].
  intros j Hj. left. apply fill_zero_entry. assumption.
Qed.

Lemma imported_bc_entry (nnode nel : nat) (necon : list nat) (p1 : list R)
    (N0 : Vec) (n : nat) :
  (n < length N0)%nat ->
  (corner_of_fixed_element nnode nel necon p1 n ->
     imported_bc nnode nel nnode necon p1 N0 !! n = Some 0)
  /\ (~ corner_of_fixed_element nnode nel necon p1 n ->
     imported_bc nnode nel nnode necon p1 N0 !! n = N0 !! n).
Proof.
  intros Hn. unfold corner_of_fixed_element.
  induction nel as [|k IH].
  - split; [intros (i & j & Hi & _); lia|reflexivity].
  - destruct IH as [IH1 IH2].
    pose proof (imported_bc_length nnode k nnode necon p1 N0) as Hlen.
    unfold imported_bc in *. cbn [for_loop].
    set (Nk := for_loop k _ N0) in *.
    destruct (decide (p1 !!! k = 1)) as [E|E].
    + rewrite (bool_decide_eq_true_2 _ E).
      destruct (VecSetValuesLocal_INSERT_entry Nk nnode
                  (element_dofs nnode nnode necon k)
                  (for_loop nnode (fun j n_ele => <[j := 0.0]> n_ele)
                     (replicate nnode 0)) 0 n) as [I1 I2];
        [lia|intros; apply fill_zero_entry; assumption|].
      destruct (bounded_exists_dec nnode
                  (fun j => necon !!! (k * nnode + j)%nat = n) _) as [Hex|Hall].
      * assert (Hres : VecSetValuesLocal_INSERT Nk nnode
                  (element_dofs nnode nnode necon k)
                  (for_loop nnode (fun j n_ele => <[j := 0.0]> n_ele)
                     (replicate nnode 0)) !! n = Some 0).
        { apply I1. destruct Hex as (j & Hj & Hjn). exists j. split; [assumption|].
          rewrite element_dofs_entry by assumption. assumption. }
        split; [intros _; exact Hres|].
        intros Hno. exfalso. apply Hno. destruct Hex as (j & Hj & Hjn).
        exists k, j. repeat split; [lia|assumption|assumption|assumption].
      * rewrite I2
          by (intros j Hj; rewrite element_dofs_entry by assumption; apply Hall; assumption).
        split.
        -- intros (i & j & Hi & Hj & Hp & Hc). apply IH1.
           destruct (decide (i = k)) as [->|]; [exfalso; exact (Hall j Hj Hc)|].
           exists i, j. repeat split; [lia|assumption|assumption|assumption].
        -- intros Hno. apply IH2. intros (i & j & Hi & Hj & Hp & Hc). apply Hno.
           exists i, j. repeat split; [lia|assumption|assumption|assumption].
    + rewrite (bool_decide_eq_false_2 _ E). split.
      * intros (i & j & Hi & Hj & Hp & Hc). apply IH1.
        destruct (decide (i = k)) as [->|]; [congruence|].
        exists i, j. repeat split; [lia|assumption|assumption|assumption].
      * intros Hno. apply IH2. intros (i & j & Hi & Hj & Hp & Hc). apply Hno.
        exists i, j. repeat split; [lia|assumption|assumption|assumption].
Qed.

Lemma clamp_nodes_2D_boolean lcoorp nn xc epsi (N0 : Vec) :
  boolean_flags N0 -> boolean_flags (clamp_nodes_2D lcoorp nn xc epsi N0).
Proof.
  intros HN. unfold clamp_nodes_2D, VecSetValueLocal_INSERT.
  induction nn as [|m IHm]; cbn [for_loop]; [assumption|].
  destruct (_ && _); [|exact IHm].
  apply boolean_flags_insert; [left; lra|exact IHm].
Qed.

Lemma clamp_nodes_3D_boolean lcoorp nn xc epsi (N0 : Vec) :
  boolean_flags N0 -> boolean_flags (clamp_nodes_3D lcoorp nn xc epsi N0).
Proof.
  intros HN. unfold clamp_nodes_3D, VecSetValueLocal_INSERT.
  induction nn as [|m IHm]; cbn [for_loop]; [assumption|].
  destruct (_ && _); [|exact IHm].
  apply boolean_flags_insert; [left; lra|exact IHm].
Qed.

Lemma body_load_length (nnode nel : nat) (necon : list nat) (L : R) (v : Vec) :
  (0 < nnode)%nat -> length (body_load nnode nel nnode necon L v) = length v.
Proof. intros Hpos. apply (body_load_adds nnode nel necon L Hpos v). Qed.

Lemma imported_load_length (nnode nel : nat) (necon : list nat) (L : R)
    (p0 : list R) (v : Vec) :
  length (imported_load nnode nel nnode necon L p0 v) = length v.
Proof. apply (imported_load_adds nnode nel necon L p0 v). Qed.

Lemma boolean_flags_ones (n : nat) : boolean_flags (replicate n 1.0).
Proof. apply Forall_replicate. right. lra. Qed.

Section SetupMore.
Context `{BuildConfig} `{Petsc}.

Lemma SetUpLoadAndBC_2D_members (s : LinearHeatConduction) (da_nodes da_elem : DM)
      (xPassive0 xPassive1 xPassive2 : Vec) (nel nen : nat) (necon : list nat) :
    DMDAGetElements_2D da_nodes = (nel, nen, necon) ->
    let s' := SetUpLoadAndBC_2D s da_nodes da_elem xPassive0 xPassive1 xPassive2 in
    let c := dm_coor da_nodes in
    let dx := c !!! (DIM * necon !!! 1 + 0)%nat - c !!! (DIM * necon !!! 0 + 0)%nat in
    let dy := c !!! (DIM * necon !!! 2 + 1)%nat - c !!! (DIM * necon !!! 1 + 1)%nat in
    let da := nodal_grid_2D da_nodes necon in
    let n0 := (dm_xm da * dm_ym da * dm_zm da)%nat in
    nen = 4%nat
    /\ da_nodal s' = da
    /\ U s' = replicate n0 0
    /\ KE s' = Quad4Isoparametric [0.0; dx; dx; 0.0] [0.0; 0.0; dy; dy] 0 (KE s)
    /\ ksp s' = ksp s /\ nlvls s' = nlvls s
    /\ (RHS s', N s')
       = if bool_decide (IMPORT_GEO = 0%nat) then
           (body_load 4 nel nen necon 0.001 (replicate n0 0.0),
            clamp_nodes_2D (dm_coor da) (length (dm_coor da)) (xc s')
              (PetscMin (dx * 0.05) (dy * 0.05)) (replicate n0 1.0))
         else
           (imported_load 4 nel nen necon 0.001 xPassive0 (replicate n0 0.0),
            imported_bc 4 nel nen necon xPassive1 (replicate n0 1.0)).
Proof.
    intros Hmesh s' c dx dy da n0.
    assert (Hnen : nen = 4%nat).
    { unfold DMDAGetElements_2D in Hmesh. cbv zeta in Hmesh.
      injection Hmesh as _ Hn _. congruence. }
    subst s'. unfold SetUpLoadAndBC_2D. rewrite Hmesh.
    rewrite imported_load_and_bc_split.
    subst nen. subst n0 da dx dy c. unfold nodal_grid_2D.
    destruct (bool_decide (IMPORT_GEO = 0%nat));
      cbn [N RHS U KE ksp nlvls xc da_nodal lookup_total list_lookup_total];
      unfold VecGetSize, VecSet, VecDuplicate, DMCreateGlobalVector;
      rewrite !length_replicate;
      repeat split; reflexivity.
Qed.

Lemma SetUpLoadAndBC_3D_members (s : LinearHeatConduction) (da_nodes da_elem : DM)
      (xPassive0 xPassive1 xPassive2 : Vec) (nel nen : nat) (necon : list nat) :
    DMDAGetElements_3D da_nodes = (nel, nen, necon) ->
    let s' := SetUpLoadAndBC_3D s da_nodes da_elem xPassive0 xPassive1 xPassive2 in
    let c := dm_coor da_nodes in
    let dx := c !!! (3 * necon !!! 1 + 0)%nat - c !!! (3 * necon !!! 0 + 0)%nat in
    let dy := c !!! (3 * necon !!! 2 + 1)%nat - c !!! (3 * necon !!! 1 + 1)%nat in
    let dz := c !!! (3 * necon !!! 4 + 2)%nat - c !!! (3 * necon !!! 0 + 2)%nat in
    let da := nodal_grid_3D da_nodes necon in
    let n0 := (dm_xm da * dm_ym da * dm_zm da)%nat in
    nen = 8%nat
    /\ da_nodal s' = da
    /\ U s' = replicate n0 0
    /\ KE s' = Hex8Isoparametric [0.0; dx; dx; 0.0; 0.0; dx; dx; 0.0]
                 [0.0; 0.0; dy; dy; 0.0; 0.0; dy; dy]
                 [0.0; 0.0; 0.0; 0.0; dz; dz; dz; dz] 0 (KE s)
    /\ ksp s' = ksp s /\ nlvls s' = nlvls s
    /\ (RHS s', N s')
       = if bool_decide (IMPORT_GEO = 0%nat) then
           (body_load 8 nel nen necon 0.001 (replicate n0 0.0),
            clamp_nodes_3D (dm_coor da) (length (dm_coor da)) (xc s')
              (PetscMin (dx * 0.05) (PetscMin (dy * 0.05) (dz * 0.05)))
              (replicate n0 1.0))
         else
           (imported_load 8 nel nen necon 0.001 xPassive0 (replicate n0 0.0),
            imported_bc 8 nel nen necon xPassive1 (replicate n0 1.0)).
Proof.
    intros Hmesh s' c dx dy dz da n0.
    assert (Hnen : nen = 8%nat).
    { unfold DMDAGetElements_3D in Hmesh. cbv zeta in Hmesh.
      injection Hmesh as _ Hn _. congruence. }
    subst s'. unfold SetUpLoadAndBC_3D. rewrite Hmesh.
    rewrite imported_load_and_bc_split.
    subst nen. subst n0 da dx dy dz c. unfold nodal_grid_3D.
    destruct (bool_decide (IMPORT_GEO = 0%nat));
      cbn [N RHS U KE ksp nlvls xc da_nodal lookup_total list_lookup_total];
      unfold VecGetSize, VecSet, VecDuplicate, DMCreateGlobalVector;
      rewrite !length_replicate;
      repeat split; reflexivity.
Qed.

Lemma SetUpLoadAndBC_mask_boolean (s : LinearHeatConduction) (da_nodes da_elem : DM)
      (xPassive0 xPassive1 xPassive2 : Vec) :
    boolean_flags (N (SetUpLoadAndBC s da_nodes da_elem xPassive0 xPassive1 xPassive2)).
Proof.
    unfold SetUpLoadAndBC. case_bool_decide.
    - destruct (DMDAGetElements_2D da_nodes) as [[nel nen] necon] eqn:Hmesh.
      destruct (SetUpLoadAndBC_2D_members s da_nodes da_elem xPassive0 xPassive1
                  xPassive2 nel nen necon Hmesh)
        as (_ & _ & _ & _ & _ & _ & HRN).
      destruct (bool_decide (IMPORT_GEO = 0%nat)); injection HRN as _ ->.
      + apply clamp_nodes_2D_boolean, boolean_flags_ones.
      + apply imported_bc_boolean, boolean_flags_ones.
    - destruct (DMDAGetElements_3D da_nodes) as [[nel nen] necon] eqn:Hmesh.
      destruct (SetUpLoadAndBC_3D_members s da_nodes da_elem xPassive0 xPassive1
                  xPassive2 nel nen necon Hmesh)
        as (_ & _ & _ & _ & _ & _ & HRN).
      destruct (bool_decide (IMPORT_GEO = 0%nat)); injection HRN as _ ->.
      + apply clamp_nodes_3D_boolean, boolean_flags_ones.
      + apply imported_bc_boolean, boolean_flags_ones.
Qed.

  (** X21. Whatever the scenario, [SetUpLoadAndBC] leaves a mask whose entries
      are 0 or 1, a zero temperature field, and mask, load and temperature
      vectors of one length; it does not create the solver. *)
Theorem SetUpLoadAndBC_vectors (s : LinearHeatConduction) (da_nodes da_elem : DM)
      (xPassive0 xPassive1 xPassive2 : Vec) :
    let s' := SetUpLoadAndBC s da_nodes da_elem xPassive0 xPassive1 xPassive2 in
    boolean_flags (N s') /\ Forall (fun u => u = 0) (U s')
    /\ length (N s') = length (U s') /\ length (RHS s') = length (U s')
    /\ ksp s' = ksp s.
Proof.
    cbv zeta. unfold SetUpLoadAndBC. case_bool_decide.
    - destruct (DMDAGetElements_2D da_nodes) as [[nel nen] necon] eqn:Hmesh.
      destruct (SetUpLoadAndBC_2D_members s da_nodes da_elem xPassive0 xPassive1
                  xPassive2 nel nen necon Hmesh)
        as (Hnen & _ & HU & _ & Hk & _ & HRN).
      rewrite HU, Hk. subst nen.
      destruct (bool_decide (IMPORT_GEO = 0%nat)); injection HRN as -> ->.
      + split; [apply clamp_nodes_2D_boolean, boolean_flags_ones|].
        split; [apply Forall_replicate; reflexivity|].
        rewrite clamp_nodes_2D_length, !length_replicate.
        rewrite body_load_length by lia. rewrite length_replicate. auto.
      + split; [apply imported_bc_boolean, boolean_flags_ones|].
        split; [apply Forall_replicate; reflexivity|].
        rewrite imported_bc_length, !length_replicate.
        rewrite imported_load_length. rewrite length_replicate. auto.
    - destruct (DMDAGetElements_3D da_nodes) as [[nel nen] necon] eqn:Hmesh.
      destruct (SetUpLoadAndBC_3D_members s da_nodes da_elem xPassive0 xPassive1
                  xPassive2 nel nen necon Hmesh)
        as (Hnen & _ & HU & _ & Hk & _ & HRN).
      rewrite HU, Hk. subst nen.
      destruct (bool_decide (IMPORT_GEO = 0%nat)); injection HRN as -> ->.
      + split; [apply clamp_nodes_3D_boolean, boolean_flags_ones|].
        split; [apply Forall_replicate; reflexivity|].
        rewrite clamp_nodes_3D_length, !length_replicate.
        rewrite body_load_length by lia. rewrite length_replicate. auto.
      + split; [apply imported_bc_boolean, boolean_flags_ones|].
        split; [apply Forall_replicate; reflexivity|].
        rewrite imported_bc_length, !length_replicate.
        rewrite imported_load_length. rewrite length_replicate. auto.
Qed.

Lemma imported_scenario_vectors (nnode nel : nat) (necon : list nat)
      (p0 p1 : Vec) (n0 n : nat) :
    (n < n0)%nat ->
    let Nv := imported_bc nnode nel nnode necon p1 (replicate n0 1.0) in
    let Rv := imported_load nnode nel nnode necon 0.001 p0 (replicate n0 0.0) in
    (corner_of_fixed_element nnode nel necon p1 n -> Nv !! n = Some 0)
    /\ (~ corner_of_fixed_element nnode nel necon p1 n -> Nv !! n = Some 1)
    /\ Rv !! n = Some (node_load_outside_solid nnode nel necon p0 0.001 n).
Proof.
    intros Hn Nv Rv.
    destruct (imported_bc_entry nnode nel necon p1 (replicate n0 1.0) n) as [I1 I2];
      [rewrite length_replicate; assumption|].
    split; [exact I1|]. split.
    - intros Hno. subst Nv. rewrite (I2 Hno), lookup_replicate_2 by assumption.
      f_equal. lra.
    - destruct (imported_load_adds nnode nel necon 0.001 p0 (replicate n0 0.0))
        as [Hlen Hent].
      apply lookup_of_total; [subst Rv; rewrite Hlen, length_replicate; assumption|].
      subst Rv. rewrite Hent by (rewrite length_replicate; assumption).
      rewrite lookup_total_replicate_2 by assumption. lra.
Qed.

  (** X22. In the imported-geometry scenario ([IMPORT_GEO] not 0) the mask
      and the load have one entry per node of the nodal grid that
      [SetUpLoadAndBC] creates; the mask is 0 exactly at the corners of the
      elements flagged in [xPassive1] and 1 elsewhere, and every element
      whose [xPassive0] flag is 0 adds the whole load intensity 0.001 to each
      of its corners. *)
Theorem imported_scenario_mask_and_load
      (s : LinearHeatConduction) (da_nodes da_elem : DM)
      (xPassive0 xPassive1 xPassive2 : Vec) (nel nen : nat) (necon : list nat) :
    IMPORT_GEO <> 0%nat ->
    DMDAGetElements da_nodes = (nel, nen, necon) ->
    let s' := SetUpLoadAndBC s da_nodes da_elem xPassive0 xPassive1 xPassive2 in
    let nodes := (dm_xm (da_nodal s') * dm_ym (da_nodal s')
                  * dm_zm (da_nodal s'))%nat in
    length (N s') = nodes /\ length (RHS s') = nodes
    /\ forall n, (n < nodes)%nat ->
         (corner_of_fixed_element nen nel necon xPassive1 n -> N s' !! n = Some 0)
         /\ (~ corner_of_fixed_element nen nel necon xPassive1 n ->
             N s' !! n = Some 1)
         /\ RHS s' !! n
            = Some (node_load_outside_solid nen nel necon xPassive0 0.001 n).
Proof.
    intros Hgeo Hmesh. cbv zeta. unfold SetUpLoadAndBC, DMDAGetElements in *.
    case_bool_decide.
    - destruct (SetUpLoadAndBC_2D_members s da_nodes da_elem xPassive0 xPassive1
                  xPassive2 nel nen necon Hmesh)
        as (Hnen & Hda & _ & _ & _ & _ & HRN).
      rewrite (bool_decide_eq_false_2 _ Hgeo) in HRN. injection HRN as -> ->.
      subst nen. rewrite Hda.
      rewrite imported_bc_length, imported_load_length, !length_replicate.
      split; [reflexivity|]. split; [reflexivity|].
      intros n Hn. apply imported_scenario_vectors. exact Hn.
    - destruct (SetUpLoadAndBC_3D_members s da_nodes da_elem xPassive0 xPassive1
                  xPassive2 nel nen necon Hmesh)
        as (Hnen & Hda & _ & _ & _ & _ & HRN).
      rewrite (bool_decide_eq_false_2 _ Hgeo) in HRN. injection HRN as -> ->.
      subst nen. rewrite Hda.
      rewrite imported_bc_length, imported_load_length, !length_replicate.
      split; [reflexivity|]. split; [reflexivity|].
      intros n Hn. apply imported_scenario_vectors. exact Hn.
Qed.
End SetupMore.

(** *** The imported scenario on the 3 x 3 and on the 2 x 2 x 2 grid *)

Lemma imported_scenario_mask_and_load_witness :
  let s2 := @SetUpLoadAndBC Build2D_imported SerialPetsc unset_members
              grid_3x3 grid_3x3 [0; 1; 1; 1] [1; 0; 0; 0] [0; 0; 0; 0] in
  let necon2 := [0; 1; 4; 3; 1; 2; 5; 4; 3; 4; 7; 6; 4; 5; 8; 7]%nat in
  let s3 := @SetUpLoadAndBC Build3D_imported SerialPetsc unset_members_3D
              grid_2x2x2 grid_2x2x2 [0] [1] [0] in
  let necon3 := [0; 1; 3; 2; 4; 5; 7; 6]%nat in
  (((@IMPORT_GEO Build2D_imported <> 0)%nat
    /\ @DMDAGetElements Build2D_imported grid_3x3 = (4, 4, necon2)%nat)
   /\ length (N s2) = 9%nat /\ length (RHS s2) = 9%nat
   /\ N s2 !! 0%nat = Some 0
   /\ RHS s2 !! 0%nat
      = Some (node_load_outside_solid 4 4 necon2 [0; 1; 1; 1] 0.001 0))
  /\
  (((@IMPORT_GEO Build3D_imported <> 0)%nat
    /\ @DMDAGetElements Build3D_imported grid_2x2x2 = (1, 8, necon3)%nat)
   /\ length (N s3) = 8%nat /\ length (RHS s3) = 8%nat
   /\ N s3 !! 6%nat = Some 0
   /\ RHS s3 !! 6%nat
      = Some (node_load_outside_solid 8 1 necon3 [0] 0.001 6)).
Proof.
  intros s2 necon2 s3 necon3. split.
  - assert (Hgeo : (@IMPORT_GEO Build2D_imported <> 0)%nat) by (cbn; lia).
    assert (Hmesh : @DMDAGetElements Build2D_imported grid_3x3
                    = (4, 4, necon2)%nat) by reflexivity.
    split; [auto|].
    destruct (@imported_scenario_mask_and_load Build2D_imported SerialPetsc
                unset_members grid_3x3 grid_3x3 [0; 1; 1; 1] [1; 0; 0; 0]
                [0; 0; 0; 0] 4%nat 4%nat necon2 Hgeo Hmesh)
      as (HlenN & HlenR & Hent).
    split; [exact HlenN|]. split; [exact HlenR|].
    destruct (Hent 0%nat) as (Hfixed & _ & Hload); [change (0 < 9)%nat; lia|].
    split; [|exact Hload].
    apply Hfixed. exists 0%nat, 0%nat. repeat split; lia.
  - assert (Hgeo : (@IMPORT_GEO Build3D_imported <> 0)%nat) by (cbn; lia).
    assert (Hmesh : @DMDAGetElements Build3D_imported grid_2x2x2
                    = (1, 8, necon3)%nat) by reflexivity.
    split; [auto|].
    destruct (@imported_scenario_mask_and_load Build3D_imported SerialPetsc
                unset_members_3D grid_2x2x2 grid_2x2x2 [0] [1] [0]
                1%nat 8%nat necon3 Hgeo Hmesh)
      as (HlenN & HlenR & Hent).
    split; [exact HlenN|]. split; [exact HlenR|].
    destruct (Hent 6%nat) as (Hfixed & _ & Hload); [change (6 < 8)%nat; lia|].
    split; [|exact Hload].
    apply Hfixed. exists 0%nat, 7%nat. repeat split; lia.
Defined.

(** ** Sign of the objective and normalisation of the volume constraint *)

Lemma disjoint_mask (p0 p1 p2 : Vec) (i : nat) :
  boolean_flags p0 -> boolean_flags p1 -> boolean_flags p2 ->
  disjoint_flags p0 p1 p2 ->
  (i < length p0)%nat -> (i < length p1)%nat -> (i < length p2)%nat ->
  (if bool_decide (designable p0 p1 p2 i) then 1 else 0)
  = 1 - p0 !!! i - p1 !!! i - p2 !!! i.
Proof.
  unfold boolean_flags, disjoint_flags. rewrite !Forall_lookup_total.
  intros B0 B1 B2 D L0 L1 L2.
  specialize (B0 i L0). specialize (B1 i L1). specialize (B2 i L2).
  specialize (D i). cbv beta in B0, B1, B2. unfold designable.
  destruct B0 as [E0|E0], B1 as [E1|E1], B2 as [E2|E2];
    case_bool_decide as Hd; rewrite ?E0, ?E1, ?E2 in *; try lra;
    exfalso; first [ apply Hd; auto | destruct Hd as (? & ? & ?); lra ].
Qed.

Lemma designable_count_normaliser (p0 p1 p2 : Vec) (n : nat) :
  boolean_flags p0 -> boolean_flags p1 -> boolean_flags p2 ->
  disjoint_flags p0 p1 p2 ->
  length p0 = n -> length p1 = n -> length p2 = n ->
  INR n - VecSum p0 - VecSum p1 - VecSum p2 = designable_count n p0 p1 p2.
Proof.
  intros B0 B1 B2 D L0 L1 L2. unfold designable_count.
  rewrite (sum_n_ext n _ (fun i => 1 - p0 !!! i - p1 !!! i - p2 !!! i))
    by (intros i Hi; apply disjoint_mask; try assumption; lia).
  rewrite !sum_n_minus, sum_n_const, !VecSum_sum_n, L0, L1, L2. lra.
Qed.

Section EvaluatorMore.
Context `{BuildConfig} `{Petsc}.

Lemma objective_value
      (s : LinearHeatConduction) (opts : PetscOptions) (fs : FileSystem)
      (dfdx dgdx xPhys : Vec) (Emin Emax penal volfrac : PetscScalar)
      (xPassive0 xPassive1 xPassive2 : Vec) :
    let r := ComputeObjectiveConstraintsSensitivities s opts fs dfdx dgdx xPhys
               Emin Emax penal volfrac xPassive0 xPassive1 xPassive2 in
    exists nel nen necon,
      r_fx r = sum_n nel (objective_term (KE s) (U (r_state r)) nen necon xPhys
                            xPassive0 xPassive1 xPassive2 Emin Emax penal).
Proof.
    intros r.
    destruct (DMDAGetElements (da_nodal (SolveState s opts fs xPhys Emin Emax penal)))
      as [[nel nen] necon] eqn:Hmesh.
    destruct (ComputeObjectiveConstraintsSensitivities_parts s opts fs dfdx dgdx
                xPhys Emin Emax penal volfrac xPassive0 xPassive1 xPassive2
                nel nen necon Hmesh) as (Hst & Hloop & _).
    fold r in Hst, Hloop. rewrite sensitivity_loop_spec in Hloop.
    injection Hloop as Hfx _. exists nel, nen, necon. rewrite Hfx, Hst.
    destruct (SolveState_problem s opts fs xPhys Emin Emax penal) as ((_ & -> & _) & _).
    rewrite R_zero_literal. lra.
Qed.

  (** X23. With a positive semi-definite element matrix and non-negative element
      conductivities the objective is not negative. *)
Theorem objective_nonnegative
      (s : LinearHeatConduction) (opts : PetscOptions) (fs : FileSystem)
      (dfdx dgdx xPhys : Vec) (Emin Emax penal volfrac : PetscScalar)
      (xPassive0 xPassive1 xPassive2 : Vec) :
    (forall u, 0 <= quadratic_form_of nedof (KE s) u) ->
    (forall i, 0 <= simp_conductivity xPhys Emin Emax penal i) ->
    0 <= r_fx (ComputeObjectiveConstraintsSensitivities s opts fs dfdx dgdx xPhys
                 Emin Emax penal volfrac xPassive0 xPassive1 xPassive2).
Proof.
    intros Hpsd Hcond.
    destruct (objective_value s opts fs dfdx dgdx xPhys Emin Emax penal volfrac
                xPassive0 xPassive1 xPassive2) as (nel & nen & necon & ->).
    apply sum_n_nonneg. intros i _. unfold objective_term.
    case_bool_decide; [|lra].
    apply Rmult_le_pos; [apply Hcond|]. apply Hpsd.
Qed.

  (** X24. When the passive regions are marked with 0 and 1 and do not overlap,
      the volume constraint divides by the number of designable elements:
      [gx] is the mean density of the designable elements minus [volfrac],
      and the entries of [dgdx] sum to 1. *)
Theorem volume_constraint_is_mean_density
      (s : LinearHeatConduction) (opts : PetscOptions) (fs : FileSystem)
      (dfdx dgdx xPhys : Vec) (Emin Emax penal volfrac : PetscScalar)
      (xPassive0 xPassive1 xPassive2 : Vec) :
    let r := ComputeObjectiveConstraintsSensitivities s opts fs dfdx dgdx xPhys
               Emin Emax penal volfrac xPassive0 xPassive1 xPassive2 in
    let n := length xPhys in
    length xPassive0 = n -> length xPassive1 = n ->
    length xPassive2 = n -> length dgdx = n ->
    boolean_flags xPassive0 -> boolean_flags xPassive1 ->
    boolean_flags xPassive2 ->
    disjoint_flags xPassive0 xPassive1 xPassive2 ->
    (exists i, (i < n)%nat /\ designable xPassive0 xPassive1 xPassive2 i) ->
    r_gx r
    = sum_n n (fun i =>
        if bool_decide (designable xPassive0 xPassive1 xPassive2 i)
        then xPhys !!! i else 0)
      / designable_count n xPassive0 xPassive1 xPassive2 - volfrac
    /\ sum_n n (fun i => r_dgdx r !!! i) = 1.
Proof.
    intros r n L0 L1 L2 Lg B0 B1 B2 D (i0 & Hi0 & Hd0).
    pose proof (ComputeObjectiveConstraintsSensitivities_volume s opts fs dfdx
                  dgdx xPhys Emin Emax penal volfrac
                  xPassive0 xPassive1 xPassive2) as Hvol.
    cbv zeta in Hvol. fold r in Hvol.
    pose proof (volume_constraint_masks dgdx xPhys volfrac
                  xPassive0 xPassive1 xPassive2 L0 L1 L2 Lg) as Hmask.
    cbv zeta in Hmask. rewrite <- Hvol in Hmask. fold n in Hmask.
    rewrite (designable_count_normaliser xPassive0 xPassive1 xPassive2 n)
      in Hmask by assumption.
    destruct Hmask as (Hgx & Hlen & Hdg).
    assert (Hpos : 0 < designable_count n xPassive0 xPassive1 xPassive2).
    { unfold designable_count.
      apply Rlt_le_trans with
        (sum_n n (fun i => if bool_decide (i = i0) then 1 else 0));
        [rewrite (sum_n_single n i0 (fun _ => 1) Hi0); lra|].
      apply sum_n_le. intros i Hi. case_bool_decide as E; [subst i|].
      - rewrite bool_decide_eq_true_2 by assumption. lra.
      - case_bool_decide; lra. }
    split.
    - rewrite Hgx. f_equal. f_equal. apply sum_n_ext. intros i Hi.
      rewrite !Rmult_assoc, <- (Rmult_assoc (1 - _)).
      rewrite boolean_mask by (assumption || lia).
      destruct (bool_decide _); ring.
    - rewrite (sum_n_ext n _ (fun i =>
        1 / designable_count n xPassive0 xPassive1 xPassive2
        * (if bool_decide (designable xPassive0 xPassive1 xPassive2 i) then 1 else 0))).
      2: { intros i Hi. rewrite (Hdg i Hi).
           rewrite !Rmult_assoc, <- (Rmult_assoc (1 - _)).
           rewrite boolean_mask by (assumption || lia). reflexivity. }
      rewrite sum_n_scale. fold (designable_count n xPassive0 xPassive1 xPassive2).
      field. lra.
Qed.
End EvaluatorMore.

(** *** The evaluator on the 3 x 3 grid *)

Lemma heat_3x3_element_psd (u : nat -> R) :
  0 <= quadratic_form_of 4 (KE heat_3x3) u.
Proof.
  destruct (@SetUpLoadAndBC_2D_members Build2D SerialPetsc unset_members
              grid_3x3 grid_3x3 (replicate 4 0) (replicate 4 0) (replicate 4 0)
              _ _ _ grid_3x3_elements) as (_ & _ & _ & HKE & _).
  rewrite heat_3x3_unfold, HKE, grid_3x3_coordinates.
  unfold quadratic_form_of.
  erewrite sum_n_ext.
  2: { intros i Hi. apply sum_n_ext. intros j Hj.
       replace (i * 4 + j)%nat with (j + 4 * i)%nat by lia.
       rewrite (Quad4Isoparametric_refines _ _ false)
         by first [assumption | reflexivity].
       reflexivity. }
  apply rectangle_quadrature_psd;
    cbn [lookup_total list_lookup_total Build2D DIM Nat.mul Nat.add]; lra.
Qed.

Lemma serial_conductivity_nonnegative (xPhys : Vec) (Emin Emax penal : R) (i : nat) :
  0 <= Emin <= Emax ->
  0 <= @simp_conductivity SerialPetsc xPhys Emin Emax penal i.
Proof.
  intros HE. unfold simp_conductivity. cbn [PetscPowScalar SerialPetsc].
  unfold Rpower. pose proof (exp_pos (penal * ln (xPhys !!! i))). nra.
Qed.

Lemma objective_nonnegative_witness :
  let xPhys := [0.5; 0.5; 0.5; 0.5] in
  ((forall u, 0 <= quadratic_form_of 4 (KE heat_3x3) u)
   /\ (forall i, 0 <= @simp_conductivity SerialPetsc xPhys 1.0e-9 1 3 i))
  /\ 0 <= r_fx (@ComputeObjectiveConstraintsSensitivities Build2D SerialPetsc
                 heat_3x3 no_options ∅ (replicate 4 0) (replicate 4 0)
                 xPhys 1.0e-9 1 3 0.5
                 [0; 1; 0; 0] [0; 0; 0; 0] [0; 0; 0; 0]).
Proof.
  intros xPhys.
  assert (Hpsd : forall u, 0 <= quadratic_form_of 4 (KE heat_3x3) u)
    by exact heat_3x3_element_psd.
  assert (Hcond : forall i, 0 <= @simp_conductivity SerialPetsc xPhys 1.0e-9 1 3 i)
    by (intros i; apply serial_conductivity_nonnegative; lra).
  split; [auto|].
  exact (@objective_nonnegative Build2D SerialPetsc heat_3x3 no_options ∅
           (replicate 4 0) (replicate 4 0) xPhys 1.0e-9 1 3 0.5
           [0; 1; 0; 0] [0; 0; 0; 0] [0; 0; 0; 0] Hpsd Hcond).
Defined.

Lemma volume_constraint_is_mean_density_witness :
  let r := @ComputeObjectiveConstraintsSensitivities Build2D SerialPetsc
             heat_3x3 no_options ∅ (replicate 4 0) (replicate 4 0)
             [0.5; 0.5; 0.5; 0.5] 1.0e-9 1 3 0.5
             [0; 1; 0; 0] [0; 0; 1; 0] [0; 0; 0; 0] in
  (boolean_flags [0; 1; 0; 0] /\ boolean_flags [0; 0; 1; 0]
   /\ boolean_flags [0; 0; 0; 0]
   /\ disjoint_flags [0; 1; 0; 0] [0; 0; 1; 0] [0; 0; 0; 0]
   /\ designable [0; 1; 0; 0] [0; 0; 1; 0] [0; 0; 0; 0] 0)
  /\ sum_n 4 (fun i => r_dgdx r !!! i) = 1.
Proof.
  intros r.
  assert (B0 : boolean_flags [0; 1; 0; 0]) by (repeat constructor; lra).
  assert (B1 : boolean_flags [0; 0; 1; 0]) by (repeat constructor; lra).
  assert (B2 : boolean_flags [0; 0; 0; 0]) by (repeat constructor; lra).
  assert (D : disjoint_flags [0; 1; 0; 0] [0; 0; 1; 0] [0; 0; 0; 0]).
  { intros i. destruct i as [|[|[|[|i]]]];
      cbn [lookup_total list_lookup_total inhabitant]; try lra.
    destruct i; cbn; lra. }
  assert (Hd : designable [0; 1; 0; 0] [0; 0; 1; 0] [0; 0; 0; 0] 0)
    by (unfold designable; cbn [lookup_total list_lookup_total]; repeat split; reflexivity).
  assert (Hex : exists i, (i < length [0.5; 0.5; 0.5; 0.5]%R)%nat
                  /\ designable [0; 1; 0; 0] [0; 0; 1; 0] [0; 0; 0; 0] i)
    by (exists 0%nat; split; [cbn; lia|exact Hd]).
  split; [auto 6|].
  exact (proj2 (@volume_constraint_is_mean_density Build2D SerialPetsc
           heat_3x3 no_options ∅ (replicate 4 0) (replicate 4 0)
           [0.5; 0.5; 0.5; 0.5] 1.0e-9 1 3 0.5
           [0; 1; 0; 0] [0; 0; 1; 0] [0; 0; 0; 0]
           eq_refl eq_refl eq_refl eq_refl B0 B1 B2 D
           Hex)).
Defined.

(** ** Symmetry and repeatability of the assembly *)

Lemma VecPointwiseMult_boolean_idempotent (x m : Vec) :
  boolean_flags m -> VecPointwiseMult (VecPointwiseMult x m) m = VecPointwiseMult x m.
Proof.
  unfold VecPointwiseMult, boolean_flags. revert x.
  induction m as [|b m IH]; intros x Hm.
  - destruct x; reflexivity.
  - destruct x as [|a x]; [reflexivity|].
    apply Forall_cons in Hm. destruct Hm as [Hb Hm]. cbn [zip_with].
    f_equal; [destruct Hb as [-> | ->]; ring|apply IH; assumption].
Qed.

Section AssemblerMore.
Context `{BuildConfig} `{Petsc}.

Lemma AssembleElements_entry
      (s : LinearHeatConduction) (xPhys : Vec) (Emin Emax penal : PetscScalar)
      (nel nen : nat) (necon : list nat) (r c : nat) :
    DMDAGetElements (da_nodal s) = (nel, nen, necon) ->
    AssembleElements s xPhys Emin Emax penal r c
    = sum_n nel (fun i =>
        sum_n nedof (fun k =>
          sum_n nedof (fun h =>
            if bool_decide (element_dofs nedof nen necon i !!! k = r
                            /\ element_dofs nedof nen necon i !!! h = c)
            then KE s !!! (k * nedof + h)%nat
                 * simp_conductivity xPhys Emin Emax penal i
            else 0))).
Proof.
    intros Hmesh. unfold simp_conductivity.
    apply AssembleElements_gathered. exact Hmesh.
Qed.

Lemma AssembleElements_independent
      (s t : LinearHeatConduction) (xPhys : Vec) (Emin Emax penal : PetscScalar) :
    da_nodal s = da_nodal t -> KE s = KE t ->
    AssembleElements s xPhys Emin Emax penal = AssembleElements t xPhys Emin Emax penal.
Proof.
    intros Hda HKE. unfold AssembleElements. rewrite Hda, HKE. reflexivity.
Qed.

Lemma AssembleElements_symmetric
      (s : LinearHeatConduction) (xPhys : Vec) (Emin Emax penal : PetscScalar)
      (r c : nat) :
    symmetric_array nedof (KE s) ->
    AssembleElements s xPhys Emin Emax penal r c
    = AssembleElements s xPhys Emin Emax penal c r.
Proof.
    intros Hsym.
    destruct (DMDAGetElements (da_nodal s)) as [[nel nen] necon] eqn:Hmesh.
    rewrite !(AssembleElements_entry s xPhys Emin Emax penal nel nen necon) by assumption.
    apply sum_n_ext. intros i _. rewrite sum_n_swap.
    apply sum_n_ext. intros k Hk. apply sum_n_ext. intros h Hh.
    rewrite (Hsym h k) by assumption.
    destruct (decide (element_dofs nedof nen necon i !!! k = c
                      /\ element_dofs nedof nen necon i !!! h = r)) as [Hd|Hd].
    - rewrite !bool_decide_eq_true_2 by tauto. reflexivity.
    - rewrite !bool_decide_eq_false_2 by tauto. reflexivity.
Qed.

Lemma Dirichlet_entry (s : LinearHeatConduction) (xPhys : Vec)
      (Emin Emax penal : PetscScalar) (a b : nat) :
    (a < length (N s))%nat ->
    K (AssembleConductivityMatrix s xPhys Emin Emax penal) a b
    = N s !!! a * AssembleElements s xPhys Emin Emax penal a b * N s !!! b
      + (if bool_decide (a = b) then 1 - N s !!! a else 0).
Proof.
    intros Ha. unfold AssembleConductivityMatrix, ImposeDirichlet.
    cbn [K set_K set_RHS]. unfold MatDiagonalSet_ADD, MatDiagonalScale.
    case_bool_decide; [|lra].
    unfold VecAXPY, VecSet, VecDuplicate.
    rewrite (@lookup_total_zip_with R R R _ R_inhabited R_inhabited R_inhabited)
      by (rewrite ?length_replicate; assumption).
    rewrite lookup_total_replicate_2 by (rewrite length_replicate; assumption).
    lra.
Qed.

  (** X25. With a symmetric element matrix, the matrix
      [AssembleConductivityMatrix] leaves is symmetric, Dirichlet rows and
      columns included. *)
Theorem assembled_matrix_symmetric
      (s : LinearHeatConduction) (xPhys : Vec) (Emin Emax penal : PetscScalar)
      (r c : nat) :
    symmetric_array nedof (KE s) ->
    (r < length (N s))%nat -> (c < length (N s))%nat ->
    K (AssembleConductivityMatrix s xPhys Emin Emax penal) r c
    = K (AssembleConductivityMatrix s xPhys Emin Emax penal) c r.
Proof.
    intros Hsym Hr Hc. rewrite !Dirichlet_entry by assumption.
    rewrite (AssembleElements_symmetric s xPhys Emin Emax penal r c Hsym).
    destruct (decide (r = c)) as [->|Hne].
    - ring.
    - rewrite !bool_decide_eq_false_2 by congruence. ring.
Qed.

  (** X26. Assembling again changes nothing but the design: the matrix is built
      from zero for the new densities, and a load vector that was masked
      once stays as it is, the mask being 0 or 1 everywhere. *)
Theorem assembly_is_repeatable
      (s : LinearHeatConduction) (x1 x2 : Vec)
      (Emin Emax penal Emin' Emax' penal' : PetscScalar) :
    boolean_flags (N s) ->
    let s1 := AssembleConductivityMatrix s x1 Emin Emax penal in
    let s2 := AssembleConductivityMatrix s1 x2 Emin' Emax' penal' in
    RHS s2 = RHS s1
    /\ K s2 = K (AssembleConductivityMatrix s x2 Emin' Emax' penal').
Proof.
    intros HN s1 s2. split.
    - subst s2 s1. unfold AssembleConductivityMatrix, ImposeDirichlet.
      cbn [RHS N set_K set_RHS]. apply VecPointwiseMult_boolean_idempotent. exact HN.
    - subst s2 s1. unfold AssembleConductivityMatrix at 1 3, ImposeDirichlet.
      cbn [K N set_K set_RHS].
      rewrite (AssembleElements_independent
                 (AssembleConductivityMatrix s x1 Emin Emax penal) s) by reflexivity.
      reflexivity.
Qed.
End AssemblerMore.

(** *** The assembly on the 3 x 3 grid *)

Lemma heat_3x3_element_symmetric : symmetric_array 4 (KE heat_3x3).
Proof.
  destruct (@SetUpLoadAndBC_2D_members Build2D SerialPetsc unset_members
              grid_3x3 grid_3x3 (replicate 4 0) (replicate 4 0) (replicate 4 0)
              _ _ _ grid_3x3_elements) as (_ & _ & _ & HKE & _).
  rewrite heat_3x3_unfold, HKE. intros k h Hk Hh.
  replace (k * 4 + h)%nat with (h + 4 * k)%nat by lia.
  replace (h * 4 + k)%nat with (k + 4 * h)%nat by lia.
  apply (Quad4Isoparametric_symmetric _ _ false); [reflexivity|assumption|assumption].
Qed.

Lemma assembled_matrix_symmetric_witness :
  let s' := @AssembleConductivityMatrix Build2D SerialPetsc heat_3x3
              [0.5; 0.5; 0.5; 0.5] 1.0e-9 1 3 in
  (symmetric_array 4 (KE heat_3x3)
   /\ (1 < length (N heat_3x3))%nat /\ (4 < length (N heat_3x3))%nat)
  /\ K s' 1%nat 4%nat = K s' 4%nat 1%nat.
Proof.
  intros s'.
  destruct heat_3x3_setup as (_ & _ & HlenN & _).
  assert (H1 : (1 < length (N heat_3x3))%nat) by (rewrite HlenN; lia).
  assert (H4 : (4 < length (N heat_3x3))%nat) by (rewrite HlenN; lia).
  split; [split; [exact heat_3x3_element_symmetric|split; assumption]|].
  exact (@assembled_matrix_symmetric Build2D SerialPetsc heat_3x3
           [0.5; 0.5; 0.5; 0.5] 1.0e-9 1 3 1%nat 4%nat
           heat_3x3_element_symmetric H1 H4).
Defined.

Lemma assembly_is_repeatable_witness :
  let s1 := @AssembleConductivityMatrix Build2D SerialPetsc heat_3x3
              [0.5; 0.5; 0.5; 0.5] 1.0e-9 1 3 in
  let s2 := @AssembleConductivityMatrix Build2D SerialPetsc s1
              [1; 1; 1; 1] 1.0e-9 1 3 in
  boolean_flags (N heat_3x3) /\ RHS s2 = RHS s1.
Proof.
  intros s1 s2.
  assert (HN : boolean_flags (N heat_3x3))
    by apply (@SetUpLoadAndBC_mask_boolean Build2D SerialPetsc).
  split; [exact HN|].
  exact (proj1 (@assembly_is_repeatable Build2D SerialPetsc heat_3x3
                  [0.5; 0.5; 0.5; 0.5] [1; 1; 1; 1] 1.0e-9 1 3 1.0e-9 1 3 HN)).
Defined.

(** ** The constructor and the first solve *)

Section Construction.
Context `{BuildConfig} `{Petsc}.

Lemma SetUpLoadAndBC_solver_members (s : LinearHeatConduction)
      (da_nodes da_elem : DM) (xPassive0 xPassive1 xPassive2 : Vec) :
    let s' := SetUpLoadAndBC s da_nodes da_elem xPassive0 xPassive1 xPassive2 in
    ksp s' = ksp s /\ nlvls s' = nlvls s.
Proof.
    cbv zeta. unfold SetUpLoadAndBC. case_bool_decide.
    - destruct (DMDAGetElements_2D da_nodes) as [[nel nen] necon] eqn:Hmesh.
      destruct (SetUpLoadAndBC_2D_members s da_nodes da_elem xPassive0 xPassive1
                  xPassive2 nel nen necon Hmesh) as (_ & _ & _ & _ & Hk & Hn & _).
      auto.
    - destruct (DMDAGetElements_3D da_nodes) as [[nel nen] necon] eqn:Hmesh.
      destruct (SetUpLoadAndBC_3D_members s da_nodes da_elem xPassive0 xPassive1
                  xPassive2 nel nen necon Hmesh) as (_ & _ & _ & _ & Hk & Hn & _).
      auto.
Qed.

Lemma LinearHeatConduction_new_members (mem : LinearHeatConduction)
      (opts : PetscOptions) (da_nodes da_elem : DM) (numLoads : PetscInt)
      (xPassive0 xPassive1 xPassive2 : Vec) :
    let s := LinearHeatConduction_new mem opts da_nodes da_elem numLoads
               xPassive0 xPassive1 xPassive2 in
    ksp s = None /\ nlvls s = default 4%nat (opt_nlvls opts).
Proof.
    cbv zeta. unfold LinearHeatConduction_new. cbv zeta.
    match goal with
    | |- context [SetUpLoadAndBC ?s0 _ _ _ _ _] =>
        destruct (SetUpLoadAndBC_solver_members s0 da_nodes da_elem
                    xPassive0 xPassive1 xPassive2) as (Hk & Hn)
    end.
    cbv zeta in Hk, Hn. rewrite Hk, Hn. split; reflexivity.
Qed.

  (** X27. A new object has no solver and 4 multigrid levels unless [-nlvls]
      says otherwise; its first solve creates the solver with that many
      levels. *)
Theorem new_object_solver (mem : LinearHeatConduction) (opts : PetscOptions)
      (fs : FileSystem) (da_nodes da_elem : DM) (numLoads : PetscInt)
      (xPassive0 xPassive1 xPassive2 xPhys : Vec) (Emin Emax penal : PetscScalar) :
    multigrid_selected opts -> opt_nlvls opts <> Some 0%nat ->
    let s := LinearHeatConduction_new mem opts da_nodes da_elem numLoads
               xPassive0 xPassive1 xPassive2 in
    ksp s = None /\ nlvls s = default 4%nat (opt_nlvls opts)
    /\ exists k, ksp (SolveState s opts fs xPhys Emin Emax penal) = Some k
                 /\ length (pc_mg_levels (ksp_pc k)) = default 4%nat (opt_nlvls opts).
Proof.
    intros Hmg Hnz s.
    destruct (LinearHeatConduction_new_members mem opts da_nodes da_elem numLoads
                xPassive0 xPassive1 xPassive2) as (Hk & Hn).
    fold s in Hk, Hn.
    split; [exact Hk|]. split; [exact Hn|].
    destruct (SolveState_first_call s opts fs xPhys Emin Emax penal Hk)
      as (k & Hkt & ->).
    exists k. cbn [ksp set_U]. split; [exact Hkt|].
    destruct (SetUpSolver_multigrid_levels
                (AssembleConductivityMatrix s xPhys Emin Emax penal) opts fs Hmg)
      as (k' & Hk' & Hlen).
    - change (nlvls (AssembleConductivityMatrix s xPhys Emin Emax penal))
        with (nlvls s). rewrite Hn.
      destruct (opt_nlvls opts) as [[|n]|]; cbn; [congruence|lia|lia].
    - rewrite Hkt in Hk'. injection Hk' as <-. rewrite Hlen.
      change (nlvls (AssembleConductivityMatrix s xPhys Emin Emax penal))
        with (nlvls s). exact Hn.
Qed.
End Construction.

Lemma new_object_solver_witness :
  let s := @LinearHeatConduction_new Build2D SerialPetsc unset_members no_options
             grid_3x3 grid_3x3 1 (replicate 4 0) (replicate 4 0) (replicate 4 0) in
  (multigrid_selected no_options /\ opt_nlvls no_options <> Some 0%nat)
  /\ ksp s = None /\ nlvls s = 4%nat
  /\ exists k,
       ksp (@SolveState Build2D SerialPetsc s no_options ∅
              [0.5; 0.5; 0.5; 0.5] 1.0e-9 1 3) = Some k
       /\ length (pc_mg_levels (ksp_pc k)) = 4%nat.
Proof.
  intros s.
  assert (Hmg : multigrid_selected no_options) by (left; reflexivity).
  assert (Hnz : opt_nlvls no_options <> Some 0%nat) by discriminate.
  split; [auto|].
  exact (@new_object_solver Build2D SerialPetsc unset_members no_options ∅
           grid_3x3 grid_3x3 1%nat (replicate 4 0) (replicate 4 0) (replicate 4 0)
           [0.5; 0.5; 0.5; 0.5] 1.0e-9 1 3 Hmg Hnz).
Defined.
